(** * aws-lambda-proxy: route matching and gateway path normalisation

    A shallow embedding of [aws_lambda_proxy/patterns.py], [routing.py],
    [gateway.py] and the routing part of [proxy.py], together with the
    fragment of Python's [re] and [str] that those modules call.

    Conventions.
    - A Python [str] is a [string]; characters are code points below 256.
    - A Python exception is a value of [exn]; a fallible computation has
      type [result A] and is sequenced with stdpp's [x ← c; k].
    - A Python [dict] with string keys is a [gmap string _]. *)

From Stdlib Require Import Ascii String ZArith Bool Lia DecimalString.
From stdpp Require Import base option list gmap strings fin_maps.

Open Scope string_scope.
Open Scope list_scope.
Open Scope stdpp_scope.

(** ** Exceptions *)

Inductive exn :=
  | KeyError (key : string)
  | IndexError
  | AttributeError
  | TypeError (msg : string)
  | ValueError (msg : string)
  | ReError.

Inductive result (A : Type) :=
  | Ok (a : A)
  | Raise (e : exn).
Arguments Ok {A} a.
Arguments Raise {A} e.

Global Instance result_ret : MRet result := fun A a => Ok a.
Global Instance result_bind : MBind result := fun A B k c =>
  match c with
  | Ok a => k a
  | Raise e => Raise e
  end.

Global Instance result_fmap : FMap result := fun A B f c =>
  match c with
  | Ok a => Ok (f a)
  | Raise e => Raise e
  end.

Fixpoint mapM_result {A B} (f : A -> result B) (l : list A) : result (list B) :=
  match l with
  | [] => Ok []
  | a :: l' => b ← f a; bs ← mapM_result f l'; Ok (b :: bs)
  end.

(** ** Strings *)

Module Str.

Fixpoint take (n : nat) (s : string) : string :=
  match n, s with
  | S n', String c s' => String c (take n' s')
  | _, _ => ""
  end.

Fixpoint drop (n : nat) (s : string) : string :=
  match n, s with
  | S n', String _ s' => drop n' s'
  | _, _ => s
  end.

(** [s.startswith(p)], returning the rest of [s] after [p]. *)
Fixpoint strip_prefix (p s : string) : option string :=
  match p, s with
  | "", _ => Some s
  | String a p', String b s' =>
      if Ascii.eqb a b then strip_prefix p' s' else None
  | String _ _, "" => None
  end.

Fixpoint mem (c : ascii) (s : string) : bool :=
  match s with
  | "" => false
  | String a s' => Ascii.eqb a c || mem c s'
  end.

Fixpoint all (P : ascii -> bool) (s : string) : bool :=
  match s with
  | "" => true
  | String a s' => P a && all P s'
  end.

(** [old in s] *)
Fixpoint contains (old s : string) : bool :=
  match strip_prefix old s with
  | Some _ => true
  | None =>
      match s with
      | "" => false
      | String _ s' => contains old s'
      end
  end.

(** [s.replace(old, new)]: every non-overlapping occurrence of [old],
    scanning from the left; with an empty [old], [new] is put before
    every character and at the end.  [skip] counts the characters of an
    occurrence that are still to be passed over. *)
Fixpoint replace_go (old new s : string) (skip : nat) : string :=
  match skip with
  | S k =>
      match s with
      | "" => ""
      | String _ s' => replace_go old new s' k
      end
  | 0 =>
      match strip_prefix old s with
      | Some _ =>
          match old, s with
          | "", "" => new
          | "", String c s' => new +:+ String c (replace_go old new s' 0)
          | String _ old', "" => ""
          | String _ old', String _ s' =>
              new +:+ replace_go old new s' (String.length old')
          end
      | None =>
          match s with
          | "" => ""
          | String c s' => String c (replace_go old new s' 0)
          end
      end
  end.

Definition replace (s old new : string) : string := replace_go old new s 0.

(** Removal of the first occurrence only (used to state the
    specification's wording, the program itself never calls it). *)
Fixpoint remove_first (old s : string) : string :=
  match strip_prefix old s with
  | Some rest => rest
  | None =>
      match s with
      | "" => ""
      | String c s' => String c (remove_first old s')
      end
  end.

(** [s.rstrip(chars)] *)
Fixpoint rstrip (chars s : string) : string :=
  match s with
  | "" => ""
  | String c s' =>
      match rstrip chars s' with
      | "" => if mem c chars then "" else String c ""
      | t => String c t
      end
  end.

(** [", ".join(l)] and friends *)
Fixpoint join (sep : string) (l : list string) : string :=
  match l with
  | [] => ""
  | [x] => x
  | x :: l' => x +:+ sep +:+ join sep l'
  end.

End Str.

(** ** The fragment of Python's [re] used by the program

    Patterns are kept as their source text and compiled by [Re.compile],
    as the program does with [re.compile]; matching is the backtracking
    search of CPython's engine: alternatives left to right, repetitions
    greedy, the first success wins.

    Supported syntax: literals, [.], [^], [$], classes [[...]] and
    [[^...]] with ranges and [\d], the escape [\d] and escaped
    punctuation, groups [(...)], [(?:...)], [(?P<name>...)], alternation
    and the greedy repetitions [*], [+], [?], [{m}], [{m,n}].  Anything
    else makes [Re.compile] answer [None]: a text that Python refuses,
    and also one that Python compiles but that is outside this syntax,
    such as [\w], [\s], a lazy repetition, a look-around or an inline
    flag.  What is proved of a pattern that compiles is proved of the
    patterns of this syntax. *)

Module Re.

Inductive citem :=
  | IChar (c : ascii)
  | IRange (lo hi : ascii)
  | IDigit.

Inductive regex :=
  | REps
  | RChr (c : ascii)
  | RAny
  | RSet (neg : bool) (items : list citem)
  | RDigit
  | RBol
  | REol
  | RSeq (r1 r2 : regex)
  | RAlt (r1 r2 : regex)
  | RRep (r : regex) (lo : nat) (hi : option nat)
  | RGroup (i : nat) (r : regex).

Definition newline : ascii := "010"%char.

Definition is_digit (c : ascii) : bool :=
  Nat.leb 48 (nat_of_ascii c) && Nat.leb (nat_of_ascii c) 57.

Definition is_lower (c : ascii) : bool :=
  Nat.leb 97 (nat_of_ascii c) && Nat.leb (nat_of_ascii c) 122.

Definition is_upper (c : ascii) : bool :=
  Nat.leb 65 (nat_of_ascii c) && Nat.leb (nat_of_ascii c) 90.

Definition is_alpha (c : ascii) : bool := is_lower c || is_upper c.

Definition in_item (c : ascii) (it : citem) : bool :=
  match it with
  | IChar a => Ascii.eqb a c
  | IRange lo hi =>
      Nat.leb (nat_of_ascii lo) (nat_of_ascii c) && Nat.leb (nat_of_ascii c) (nat_of_ascii hi)
  | IDigit => is_digit c
  end.

Definition in_set (neg : bool) (items : list citem) (c : ascii) : bool :=
  xorb neg (existsb (in_item c) items).

(** Captured text per group, [None] for a group that took no part. *)
Definition caps := list (option string).

(** A continuation receives the position reached, the rest of the
    subject and the captures so far; the answer is the end position of
    the whole match with its captures. *)
Definition cont := nat -> string -> caps -> option (nat * caps).

Definition one_char (P : ascii -> bool) (pos : nat) (s : string) (cs : caps)
    (k : cont) : option (nat * caps) :=
  match s with
  | String c s' => if P c then k (S pos) s' cs else None
  | "" => None
  end.

Definition or_else {A} (a b : option A) : option A :=
  match a with
  | Some x => Some x
  | None => b
  end.

(** Greedy repetition of a matcher [mr]: one more round is tried first,
    then the rest of the pattern.  Beyond the [lo] compulsory rounds, a
    round that consumes nothing is not repeated; [fuel] bounds the
    number of rounds.  CPython lets one such empty round through before
    it stops, so a group inside the repetition can hold other text
    there than here; which subjects match is the same. *)
Fixpoint rep_loop (mr : nat -> string -> caps -> cont -> option (nat * caps))
    (lo : nat) (hi : option nat) (k : cont)
    (fuel cnt pos : nat) (s : string) (cs : caps) {struct fuel}
    : option (nat * caps) :=
  let more :=
    match fuel with
    | 0 => None
    | S fuel' =>
        if match hi with Some h => Nat.ltb cnt h | None => true end
        then mr pos s cs (fun pos' s' cs' =>
               if Nat.leb lo cnt && Nat.eqb pos' pos then None
               else rep_loop mr lo hi k fuel' (S cnt) pos' s' cs')
        else None
    end in
  or_else more (if Nat.leb lo cnt then k pos s cs else None).

Fixpoint m (r : regex) (pos : nat) (s : string) (cs : caps) (k : cont)
    {struct r} : option (nat * caps) :=
  match r with
  | REps => k pos s cs
  | RChr c => one_char (Ascii.eqb c) pos s cs k
  | RAny => one_char (fun c => negb (Ascii.eqb c newline)) pos s cs k
  | RSet neg items => one_char (in_set neg items) pos s cs k
  | RDigit => one_char is_digit pos s cs k
  | RBol => if Nat.eqb pos 0 then k pos s cs else None
  | REol =>
      match s with
      | "" => k pos s cs
      | String c "" => if Ascii.eqb c newline then k pos s cs else None
      | _ => None
      end
  | RSeq r1 r2 => m r1 pos s cs (fun pos' s' cs' => m r2 pos' s' cs' k)
  | RAlt r1 r2 => or_else (m r1 pos s cs k) (m r2 pos s cs k)
  | RGroup i r1 =>
      m r1 pos s cs (fun pos' s' cs' =>
        k pos' s' (<[i := Some (Str.take (pos' - pos) s)]> cs'))
  | RRep r1 lo hi =>
      rep_loop (m r1) lo hi k (S (lo + String.length s)) 0 pos s cs
  end.

(** *** Compilation of pattern text *)

Record pstate := { ps_count : nat; ps_names : list (string * nat) }.

(** A backslash before anything but a letter or a digit stands for the
    character itself. *)
Definition literal_escape (c : ascii) : bool := negb (is_alpha c || is_digit c).

Fixpoint read_digits (s : string) (acc : option nat) : option nat * string :=
  match s with
  | String c s' =>
      if is_digit c
      then read_digits s' (Some (10 * default 0 acc + (nat_of_ascii c - 48)))
      else (acc, s)
  | "" => (acc, s)
  end.

(** The text after an opening brace, when it is a repetition count. *)
Definition parse_braces (s : string) : option (nat * option nat * string) :=
  match s with
  | String "}" _ => None
  | _ =>
      let '(lo, s1) := read_digits s None in
      let '(hi, s2) :=
        match s1 with
        | String "," s1' =>
            let '(h, s2) := read_digits s1' None in (h, s2)
        | _ => (lo, s1)
        end in
      match s2 with
      | String "}" s3 => Some (default 0 lo, hi, s3)
      | _ => None
      end
  end.

Inductive quant :=
  | QNone
  | QRep (lo : nat) (hi : option nat)
  | QBad.

Definition parse_quant1 (s : string) : quant * string :=
  match s with
  | String "*" s' => (QRep 0 None, s')
  | String "+" s' => (QRep 1 None, s')
  | String "?" s' => (QRep 0 (Some 1), s')
  | String "{" s' =>
      match parse_braces s' with
      | Some (lo, Some hi, s'') =>
          if Nat.leb lo hi then (QRep lo (Some hi), s'') else (QBad, s)
      | Some (lo, None, s'') => (QRep lo None, s'')
      | None => (QNone, s)
      end
  | _ => (QNone, s)
  end.

(** A repetition followed by another repetition sign (a lazy or
    possessive mark, or a second count) is not in the fragment. *)
Definition parse_quant (s : string) : quant * string :=
  match parse_quant1 s with
  | (QRep lo hi, s') =>
      match parse_quant1 s' with
      | (QNone, _) => (QRep lo hi, s')
      | _ => (QBad, s)
      end
  | q => q
  end.

Definition class_atom (s : string) : option (citem * string) :=
  match s with
  | String "\" (String c s') =>
      if Ascii.eqb c "d" then Some (IDigit, s')
      else if literal_escape c then Some (IChar c, s') else None
  | String "\" "" => None
  | String c s' => Some (IChar c, s')
  | "" => None
  end.

Fixpoint parse_class (fuel : nat) (s : string) (first : bool)
    (acc : list citem) : option (list citem * string) :=
  match fuel with
  | 0 => None
  | S f =>
      match s with
      | "" => None
      | String c s' =>
          if Ascii.eqb c "]" && negb first then Some (acc, s')
          else
            '(a1, s1) ← class_atom s;
            match s1 with
            | String "-" (String "]" s2) => Some (acc ++ [a1; IChar "-"], s2)
            | String "-" s2 =>
                '(a2, s3) ← class_atom s2;
                match a1, a2 with
                | IChar lo, IChar hi =>
                    if Nat.leb (nat_of_ascii lo) (nat_of_ascii hi)
                    then parse_class f s3 false (acc ++ [IRange lo hi])
                    else None
                | _, _ => None
                end
            | _ => parse_class f s1 false (acc ++ [a1])
            end
      end
  end.

Fixpoint read_name (s : string) : option (string * string) :=
  match s with
  | "" => None
  | String c s' =>
      if Ascii.eqb c ">" then Some ("", s')
      else if is_alpha c || is_digit c || Ascii.eqb c "_"
      then '(n, rest) ← read_name s'; Some (String c n, rest)
      else None
  end.

(** A group name begins with a letter or an underscore. *)
Definition is_identifier (name : string) : bool :=
  match name with
  | String c _ => negb (is_digit c)
  | "" => false
  end.

Definition seq (a tl : regex) : regex :=
  match tl with
  | REps => a
  | _ => RSeq a tl
  end.

Definition close_paren (s : string) : option string :=
  match s with
  | String ")" s' => Some s'
  | _ => None
  end.

(** The [bool] answered by [parse_atom] tells an anchor, which cannot be
    repeated. *)
Fixpoint parse_alt (fuel : nat) (s : string) (st : pstate)
    : option (regex * string * pstate) :=
  match fuel with
  | 0 => None
  | S f =>
      '(r1, rest, st1) ← parse_seq f s st;
      match rest with
      | String "|" rest' =>
          '(r2, rest2, st2) ← parse_alt f rest' st1;
          Some (RAlt r1 r2, rest2, st2)
      | _ => Some (r1, rest, st1)
      end
  end
with parse_seq (fuel : nat) (s : string) (st : pstate)
    : option (regex * string * pstate) :=
  match fuel with
  | 0 => None
  | S f =>
      match s with
      | "" => Some (REps, s, st)
      | String c _ =>
          if Ascii.eqb c "|" || Ascii.eqb c ")" then Some (REps, s, st)
          else
            '(a, anchor, rest, st1) ← parse_atom f s st;
            match parse_quant rest with
            | (QNone, _) =>
                '(tl, rest2, st2) ← parse_seq f rest st1;
                Some (seq a tl, rest2, st2)
            | (QRep lo hi, rest1) =>
                if anchor : bool then None
                else
                  '(tl, rest2, st2) ← parse_seq f rest1 st1;
                  Some (seq (RRep a lo hi) tl, rest2, st2)
            | (QBad, _) => None
            end
      end
  end
with parse_atom (fuel : nat) (s : string) (st : pstate)
    : option (regex * bool * string * pstate) :=
  match fuel with
  | 0 => None
  | S f =>
      match s with
      | "" => None
      | String "(" (String "?" (String "P" (String "<" s1))) =>
          '(name, s2) ← read_name s1;
          let i := ps_count st in
          if negb (is_identifier name) then None
          else if bool_decide (name ∈ (ps_names st).*1) then None
          else
            '(r, s3, st1) ← parse_alt f s2
               {| ps_count := S i; ps_names := ps_names st ++ [(name, i)] |};
            s4 ← close_paren s3;
            Some (RGroup i r, false, s4, st1)
      | String "(" (String "?" (String ":" s1)) =>
          '(r, s2, st1) ← parse_alt f s1 st;
          s3 ← close_paren s2;
          Some (r, false, s3, st1)
      | String "(" (String "?" _) => None
      | String "(" s1 =>
          let i := ps_count st in
          '(r, s2, st1) ← parse_alt f s1
             {| ps_count := S i; ps_names := ps_names st |};
          s3 ← close_paren s2;
          Some (RGroup i r, false, s3, st1)
      | String "[" (String "^" s1) =>
          '(items, s2) ← parse_class (String.length s1) s1 true [];
          Some (RSet true items, false, s2, st)
      | String "[" s1 =>
          '(items, s2) ← parse_class (String.length s1) s1 true [];
          Some (RSet false items, false, s2, st)
      | String "." s1 => Some (RAny, false, s1, st)
      | String "^" s1 => Some (RBol, true, s1, st)
      | String "$" s1 => Some (REol, true, s1, st)
      | String "\" (String c s1) =>
          if Ascii.eqb c "d" then Some (RDigit, false, s1, st)
          else if literal_escape c then Some (RChr c, false, s1, st)
          else None
      | String "\" "" => None
      | String "*" _ | String "+" _ | String "?" _ => None
      | String "{" s1 =>
          match parse_quant1 s with
          | (QNone, _) => Some (RChr "{", false, s1, st)
          | _ => None
          end
      | String c s1 => Some (RChr c, false, s1, st)
      end
  end.

Record pattern := {
  p_re : regex;
  p_groups : nat;
  p_names : list (string * nat)
}.

(** [re.compile(src)] *)
Definition compile (src : string) : option pattern :=
  '(r, rest, st) ← parse_alt (3 * String.length src + 3) src
     {| ps_count := 0; ps_names := [] |};
  match rest with
  | "" => Some {| p_re := r; p_groups := ps_count st; p_names := ps_names st |}
  | _ => None
  end.

(** *** Match objects *)

Record mtch := {
  m_start : nat;
  m_end : nat;
  m_text : string;
  m_caps : caps;
  m_names : list (string * nat)
}.

Definition match_at (p : pattern) (pos : nat) (s : string) : option mtch :=
  match m (p_re p) pos s (replicate (p_groups p) None)
          (fun e _ cs => Some (e, cs)) with
  | Some (e, cs) =>
      Some {| m_start := pos; m_end := e; m_text := Str.take (e - pos) s;
              m_caps := cs; m_names := p_names p |}
  | None => None
  end.

(** [p.match(s)] *)
Definition match_ (p : pattern) (s : string) : option mtch := match_at p 0 s.

(** [p.search(s)]: the leftmost position with a match. *)
Fixpoint search_from (p : pattern) (pos : nat) (s : string) : option mtch :=
  match match_at p pos s with
  | Some mt => Some mt
  | None =>
      match s with
      | "" => None
      | String _ s' => search_from p (S pos) s'
      end
  end.

Definition search (p : pattern) (s : string) : option mtch := search_from p 0 s.

(** [mt.groups()] *)
Definition groups (mt : mtch) : list (option string) := m_caps mt.

(** [mt.group(name)] and [mt.groupdict()[name]] for a name of the
    pattern; [None] for a group that took no part. *)
Definition group (mt : mtch) (name : string) : option string :=
  match list_find (fun p => p.1 = name) (m_names mt) with
  | Some (_, (_, i)) => mjoin (m_caps mt !! i)
  | None => None
  end.

(** [p.finditer(s)]: the non-overlapping matches from left to right.
    After a match the scan resumes at its end; [skip] counts the
    characters still to pass, an empty match passes one character. *)
Fixpoint finditer_go (p : pattern) (pos : nat) (s : string) (skip : nat)
    : list mtch :=
  match skip with
  | S k =>
      match s with
      | "" => []
      | String _ s' => finditer_go p (S pos) s' k
      end
  | 0 =>
      match match_at p pos s with
      | Some mt =>
          mt :: match s with
                | "" => []
                | String _ s' => finditer_go p (S pos) s' (pred (m_end mt - pos))
                end
      | None =>
          match s with
          | "" => []
          | String _ s' => finditer_go p (S pos) s' 0
          end
      end
  end.

Definition finditer (p : pattern) (s : string) : list mtch := finditer_go p 0 s 0.

(** [p.findall(s)] for a pattern with exactly one group: the text of
    that group for every match. *)
Definition findall1 (p : pattern) (s : string) : list string :=
  (fun mt => default "" (mjoin (m_caps mt !! 0))) <$> finditer p s.

(** [p.sub(repl, s)] for a replacement text without backslashes. *)
Fixpoint sub_go (p : pattern) (repl : string) (pos : nat) (s : string)
    (skip : nat) : string :=
  match skip with
  | S k =>
      match s with
      | "" => ""
      | String _ s' => sub_go p repl (S pos) s' k
      end
  | 0 =>
      match match_at p pos s with
      | Some mt =>
          repl +:+
          match s with
          | "" => ""
          | String c s' =>
              if Nat.eqb (m_end mt) pos
              then String c (sub_go p repl (S pos) s' 0)
              else sub_go p repl (S pos) s' (pred (m_end mt - pos))
          end
      | None =>
          match s with
          | "" => ""
          | String c s' => String c (sub_go p repl (S pos) s' 0)
          end
      end
  end.

Definition sub (p : pattern) (repl s : string) : string := sub_go p repl 0 s 0.

End Re.

(** ** Python values *)

(** A [float]: a binary double.  [FBin neg m e] is [m] times two to the
    [e], negated when [neg]; [m] is below two to the 53 and [e] is from
    -1074 to 971, and [m] is at least two to the 52 unless [e] is
    -1074. *)
Inductive pyfloat :=
  | FInf (neg : bool)
  | FNan
  | FBin (neg : bool) (m : N) (e : Z).

(** Scalars of a gateway event: JSON [null], booleans and strings. *)
Inductive scalar :=
  | SNone
  | SBool (b : bool)
  | SStr (s : string).

Global Instance scalar_eq_dec : EqDecision scalar.
Proof. solve_decision. Defined.

(** The values handed to a handler. *)
Inductive pyval :=
  | VNone
  | VBool (b : bool)
  | VStr (s : string)
  | VInt (z : Z)
  | VFloat (f : pyfloat)
  | VDict (d : gmap string scalar).

Definition of_scalar (x : scalar) : pyval :=
  match x with
  | SNone => VNone
  | SBool b => VBool b
  | SStr s => VStr s
  end.

(** A captured group is a [str], or [None] when the group took no part. *)
Definition of_capture (u : option string) : pyval :=
  match u with
  | Some s => VStr s
  | None => VNone
  end.

Module Py.

(** Truth value of an object in a condition. *)
Definition truthy (v : scalar) : bool :=
  match v with
  | SNone => false
  | SBool b => b
  | SStr s => negb (String.eqb s "")
  end.

(** The white space that [int()] and [float()] skip at both ends of a
    [str]: tab to carriage return and the space, and the two white
    spaces above the ASCII range, which are turned into spaces first.
    The separators from 28 to 31 stay as they are and are not
    skipped. *)
Definition is_space (c : ascii) : bool :=
  let n := nat_of_ascii c in
  (Nat.leb 9 n && Nat.leb n 13) || Nat.eqb n 32
  || Nat.eqb n 133 || Nat.eqb n 160.

Fixpoint lstrip (s : string) : string :=
  match s with
  | String c s' => if is_space c then lstrip s' else s
  | "" => ""
  end.

Fixpoint rstrip (s : string) : string :=
  match s with
  | "" => ""
  | String c s' =>
      match rstrip s' with
      | "" => if is_space c then "" else String c ""
      | t => String c t
      end
  end.

Definition strip (s : string) : string := rstrip (lstrip s).

Definition digit_val (c : ascii) : N := N.of_nat (nat_of_ascii c - 48).

(** [digit (["_"] digit)*]: the digits read, as a number, how many
    there are, and the rest of the text. *)
Fixpoint digitpart_go (s : string) (acc : N) (n : nat) : N * nat * string :=
  match s with
  | String c s' =>
      if Re.is_digit c then digitpart_go s' (10 * acc + digit_val c)%N (S n)
      else if Ascii.eqb c "_" then
        match s' with
        | String d s'' =>
            if Re.is_digit d
            then digitpart_go s'' (10 * acc + digit_val d)%N (S n)
            else (acc, n, s)
        | "" => (acc, n, s)
        end
      else (acc, n, s)
  | "" => (acc, n, s)
  end.

Definition digitpart (s : string) (acc : N) : option (N * nat * string) :=
  match s with
  | String c _ => if Re.is_digit c then Some (digitpart_go s acc 0) else None
  | "" => None
  end.

Definition sign (s : string) : bool * string :=
  match s with
  | String "-" s' => (true, s')
  | String "+" s' => (false, s')
  | _ => (false, s)
  end.

(** The most digits [int()] reads, [sys.get_int_max_str_digits()]. *)
Definition max_str_digits : nat := 4300.

Definition str_nat (n : nat) : string := NilZero.string_of_uint (Nat.to_uint n).

Definition exceeds_limit (digits : nat) : exn :=
  ValueError ("Exceeds the limit (4300 digits) for integer string conversion: value has "
              +:+ str_nat digits
              +:+ " digits; use sys.set_int_max_str_digits() to increase the limit").

(** [int(s)] on a [str], base ten.  The digits are scanned and counted
    first, and the limit is looked at before what follows them. *)
Definition int_of_str (s : string) : result Z :=
  let '(neg, body) := sign (strip s) in
  match digitpart body 0 with
  | Some (n, digits, rest) =>
      match rest with
      | String "_" _ => Raise (ValueError "invalid literal for int() with base 10")
      | _ =>
          if Nat.ltb max_str_digits digits then Raise (exceeds_limit digits)
          else
            match rest with
            | "" => Ok (if neg then (- Z.of_N n)%Z else Z.of_N n)
            | _ => Raise (ValueError "invalid literal for int() with base 10")
            end
      end
  | None => Raise (ValueError "invalid literal for int() with base 10")
  end.

(** [int(u)] for a captured group. *)
Definition int (u : option string) : result Z :=
  match u with
  | Some s => int_of_str s
  | None => Raise (TypeError "int() argument must be a string, a bytes-like object or a real number, not 'NoneType'")
  end.

(** [s.lower()], for the characters below 256: the capitals of ASCII
    and those from 192 to 222, but for the multiplication sign. *)
Definition is_capital (c : ascii) : bool :=
  let n := nat_of_ascii c in
  Re.is_upper c || (Nat.leb 192 n && Nat.leb n 222 && negb (Nat.eqb n 215)).

Fixpoint lower (s : string) : string :=
  match s with
  | "" => ""
  | String c s' =>
      String (if is_capital c then ascii_of_nat (nat_of_ascii c + 32) else c)
             (lower s')
  end.

Definition exponent (s : string) : option Z :=
  match s with
  | "" => Some 0%Z
  | String c s' =>
      if Ascii.eqb c "e" || Ascii.eqb c "E" then
        let '(neg, body) := sign s' in
        match digitpart body 0 with
        | Some (n, _, "") => Some (if neg then (- Z.of_N n)%Z else Z.of_N n)
        | _ => None
        end
      else None
  end.

Definition decimal (s : string) : option (N * Z) :=
  match s with
  | String "." s1 =>
      '(mt, nfrac, s2) ← digitpart s1 0;
      e ← exponent s2;
      Some (mt, (e - Z.of_nat nfrac)%Z)
  | _ =>
      '(ip, _, s1) ← digitpart s 0;
      match s1 with
      | String "." s2 =>
          match digitpart s2 ip with
          | Some (mt, nfrac, s3) =>
              e ← exponent s3; Some (mt, (e - Z.of_nat nfrac)%Z)
          | None => e ← exponent s2; Some (ip, e)
          end
      | _ => e ← exponent s1; Some (ip, e)
      end
  end.

(** The integer nearest to [n / d], the even one of two that are
    equally near. *)
Definition round_half_even (n d : Z) : Z :=
  let q := (n / d)%Z in
  let r := (n mod d)%Z in
  if (2 * r <? d)%Z then q
  else if (d <? 2 * r)%Z then (q + 1)%Z
  else if Z.even q then q else (q + 1)%Z.

(** The decimal [mt] times ten to the [e10], counted in units of two to
    the -1074, the smallest step of a double: a fraction, numerator and
    denominator. *)
Definition in_steps (mt : N) (e10 : Z) : Z * Z :=
  ((Z.of_N mt * 10 ^ Z.max e10 0 * 2 ^ 1074)%Z, (10 ^ Z.max (- e10) 0)%Z).

(** The double nearest to the decimal [mt] times ten to the [e10]: 53
    bits are kept, fewer below two to the -1022; halfway cases go to
    the even mantissa; past the largest double the answer is
    infinite. *)
Definition binary64 (neg : bool) (mt : N) (e10 : Z) : pyfloat :=
  let '(n, d) := in_steps mt e10 in
  let ex := Z.max (Z.log2 (n / d) - 52) 0 in
  let m := round_half_even n (d * 2 ^ ex) in
  let '(m, ex) := if (m =? 2 ^ 53)%Z then ((2 ^ 52)%Z, (ex + 1)%Z) else (m, ex) in
  if (2045 <? ex)%Z then FInf neg else FBin neg (Z.to_N m) (ex - 1074).

(** [float(s)] on a [str]. *)
Definition float_of_str (s : string) : result pyfloat :=
  let '(neg, body) := sign (strip s) in
  let low := lower body in
  if bool_decide (low = "inf") || bool_decide (low = "infinity") then Ok (FInf neg)
  else if bool_decide (low = "nan") then Ok FNan
  else
    match decimal body with
    | Some (mt, e) => Ok (binary64 neg mt e)
    | None => Raise (ValueError "could not convert string to float")
    end.

(** [float(u)] for a captured group. *)
Definition float (u : option string) : result pyfloat :=
  match u with
  | Some s => float_of_str s
  | None => Raise (TypeError "float() argument must be a string or a real number, not 'NoneType'")
  end.

(** [str(v)], as an f-string applies it. *)
Definition str (v : scalar) : string :=
  match v with
  | SNone => "None"
  | SBool true => "True"
  | SBool false => "False"
  | SStr s => s
  end.

Definition str_opt (u : option string) : string :=
  match u with
  | Some s => s
  | None => "None"
  end.

End Py.

(** ** [patterns.py] *)

Definition no_pattern : Re.pattern :=
  {| Re.p_re := Re.REps; Re.p_groups := 0; Re.p_names := [] |}.

(** A pattern of the program, compiled once from its source text. *)
Definition compiled (src : string) : Re.pattern :=
  default no_pattern (Re.compile src).

Definition params_expr : Re.pattern :=
  Eval vm_compute in compiled "(<[^>]*>)".

Definition proxy_pattern : Re.pattern :=
  Eval vm_compute in compiled "/{(?P<name>.+)\+}$".

Definition param_pattern : Re.pattern :=
  Eval vm_compute in
    compiled "^<((?P<type>[a-zA-Z0-9_]+)(\((?P<pattern>.+)\))?\:)?(?P<name>[a-zA-Z0-9_]+)>$".

Definition regex_pattern : Re.pattern :=
  Eval vm_compute in
    compiled "^<(?P<type>regex)\((?P<pattern>.+)\):(?P<name>[a-zA-Z0-9_]+)>$".

(** ** [routing.py] *)

Definition bare_param : Re.pattern :=
  Eval vm_compute in compiled "<[a-zA-Z0-9_]+>".
Definition string_param : Re.pattern :=
  Eval vm_compute in compiled "<string\:[a-zA-Z0-9_]+>".
Definition int_param : Re.pattern :=
  Eval vm_compute in compiled "<int\:[a-zA-Z0-9_]+>".
Definition float_param : Re.pattern :=
  Eval vm_compute in compiled "<float\:[a-zA-Z0-9_]+>".
Definition uuid_param : Re.pattern :=
  Eval vm_compute in compiled "<uuid\:[a-zA-Z0-9_]+>".
Definition regex_param : Re.pattern :=
  Eval vm_compute in compiled "(<regex[^>]*>)".
Definition open_param : Re.pattern :=
  Eval vm_compute in compiled "<([a-zA-Z0-9_]+\:)?".
Definition close_param : Re.pattern :=
  Eval vm_compute in compiled ">".

Definition word_group : string := "([a-zA-Z0-9_]+)".
Definition int_group : string := "([0-9]+)".
Definition float_group : string := "([+-]?[0-9]+.[0-9]+)".
Definition uuid_group : string :=
  "([0-9a-f]{8}-[0-9a-f]{4}-[0-9a-f]{4}-[0-9a-f]{4}-[0-9a-f]{12})".

(** [matches.groupdict()] on the answer of [regex_pattern.search]: an
    attribute lookup on [None] when there was no match. *)
Definition groupdict_of (o : option Re.mtch) : result Re.mtch :=
  match o with
  | Some mt => Ok mt
  | None => Raise AttributeError
  end.

(** One round of the loop over the [<regex...>] placeholders; [path] is
    the text rewritten so far. *)
Definition regex_step (field : string) (wrap : string -> string)
    (path : result string) (param : string) : result string :=
  path ← path;
  mt ← groupdict_of (Re.search regex_pattern param);
  Ok (Str.replace path param (wrap (Py.str_opt (Re.group mt field)))).

Definition _path_to_regex (path : string) : result string :=
  let path := "^" +:+ path +:+ "$" in
  let path := Re.sub bare_param word_group path in
  let path := Re.sub string_param word_group path in
  let path := Re.sub int_param int_group path in
  let path := Re.sub float_param float_group path in
  let path := Re.sub uuid_param uuid_group path in
  foldl (regex_step "pattern" (fun expr => "(" +:+ expr +:+ ")"))
        (Ok path) (Re.findall1 regex_param path).

Definition _path_to_openapi (path : string) : result string :=
  path ← foldl (regex_step "name" (fun name => "<regex:" +:+ name +:+ ">"))
           (Ok path) (Re.findall1 regex_param path);
  let path := Re.sub open_param "{" path in
  Ok (Re.sub close_param "}" path).

Definition _converters (value : option string) (path_arg : string) : result pyval :=
  match Re.match_ param_pattern path_arg with
  | Some mt =>
      let arg_type := Re.group mt "type" in
      if bool_decide (arg_type = Some "int") then VInt <$> Py.int value
      else if bool_decide (arg_type = Some "float") then VFloat <$> Py.float value
      else if bool_decide (arg_type ∈ [Some "string"; Some "uuid"])
      then Ok (of_capture value)
      else Ok (of_capture value)
  | None => Ok (of_capture value)
  end.

(** ** Gateway events

    An event is a [dict] decoded from JSON.  The fields the program reads
    are scalars or one-level dicts of scalars. *)

Inductive jval :=
  | JScalar (x : scalar)
  | JDict (d : gmap string scalar).

Definition jstr (s : string) : jval := JScalar (SStr s).
Definition jnone : jval := JScalar SNone.

(** [x.get(...)] asks [x] to be a dict. *)
Definition as_dict (v : jval) : result (gmap string scalar) :=
  match v with
  | JDict d => Ok d
  | JScalar _ => Raise AttributeError
  end.

(** A [str] where the [re] functions want one. *)
Definition as_subject (v : jval) : result string :=
  match v with
  | JScalar (SStr s) => Ok s
  | _ => Raise (TypeError "expected string or bytes-like object")
  end.

(** [v is None] *)
Definition is_none (v : jval) : bool :=
  match v with
  | JScalar SNone => true
  | _ => false
  end.

Definition jtruthy (v : jval) : bool :=
  match v with
  | JScalar x => Py.truthy x
  | JDict d => negb (bool_decide (d = ∅))
  end.

(** [event[key]] *)
Definition getitem {A} (d : gmap string A) (key : string) : result A :=
  match d !! key with
  | Some v => Ok v
  | None => Raise (KeyError key)
  end.

(** [sub in host] for a header value [host]. *)
Definition contains_in (sub : string) (host : scalar) : result bool :=
  match host with
  | SStr h => Ok (Str.contains sub h)
  | _ => Raise (TypeError "argument is not iterable")
  end.

(** ** [gateway.py] *)

Definition _get_apigw_stage (event : gmap string jval) : result scalar :=
  header ← as_dict (default (JDict ∅) (event !! "headers"));
  let host := default (default (SStr "") (header !! "host"))
                      (header !! "x-forwarded-host") in
  a ← contains_in ".execute-api." host;
  b ← (if a : bool then contains_in ".amazonaws.com" host else Ok false);
  if b : bool then
    ctx ← getitem event "requestContext";
    ctx ← as_dict ctx;
    Ok (default (SStr "") (ctx !! "stage"))
  else Ok (SStr "").

Definition _get_request_path (event : gmap string jval) : result jval :=
  resource ← as_subject (default (jstr "/") (event !! "resource"));
  match Re.search proxy_pattern resource with
  | Some resource_proxy =>
      params ← getitem event "pathParameters";
      params ← as_dict params;
      let proxy_path :=
        match Re.group resource_proxy "name" with
        | Some name => default SNone (params !! name)
        | None => SNone
        end in
      Ok (jstr ("/" +:+ Py.str proxy_path))
  | None => Ok (default jnone (event !! "path"))
  end.

Record ApigwPath := {
  version : jval;
  apigw_stage : scalar;
  path : jval;
  api_prefix : string;
  path_mapping : string
}.

(** [api_prefix + self.path] *)
Definition concat_path (api_prefix : string) (path : jval) : result string :=
  match path with
  | JScalar (SStr p) => Ok (api_prefix +:+ p)
  | _ => Raise (TypeError "can only concatenate str to str")
  end.

(** [path.replace(suffix, "")] on the event's raw path. *)
Definition replace_in (raw : jval) (suffix : string) : result string :=
  match raw with
  | JScalar (SStr p) => Ok (Str.replace p suffix "")
  | _ => Raise AttributeError
  end.

Definition ApigwPath_init (event : gmap string jval) : result ApigwPath :=
  let version := default jnone (event !! "version") in
  apigw_stage ← _get_apigw_stage event;
  path ← _get_request_path event;
  resource ← as_subject (default (jstr "") (event !! "resource"));
  let api_prefix := Str.rstrip "/" (Re.sub proxy_pattern "" resource) in
  path_mapping ←
    (if negb (Py.truthy apigw_stage) && jtruthy path then
       let raw := default (jstr "") (event !! "path") in
       suffix ← concat_path api_prefix path;
       replace_in raw suffix
     else Ok "");
  Ok {| version := version; apigw_stage := apigw_stage; path := path;
        api_prefix := api_prefix; path_mapping := path_mapping |}.

Definition prefix (self : ApigwPath) : string :=
  if Py.truthy (apigw_stage self)
     && negb (bool_decide (apigw_stage self = SStr "$default"))
  then "/" +:+ Py.str (apigw_stage self) +:+ api_prefix self
  else if negb (String.eqb (path_mapping self) "")
  then path_mapping self +:+ api_prefix self
  else api_prefix self.

(** ** [types.py] and the route entries of [routing.py] *)

(** The members of [StatusCode] the program uses. *)
Inductive StatusCode := OK | BAD_REQUEST | INTERNAL_SERVER_ERROR.

Record Response := {
  status_code : StatusCode;
  content_type : string;
  body : string
}.

(** A handler: called with keyword arguments, it answers or raises. *)
Record Endpoint := {
  ep_call : gmap string pyval -> result Response;
  ep_doc : option string
}.

Record RouteEntry := {
  endpoint : Endpoint;
  r_path : string;
  route_regex : string;
  openapi_path : string;
  methods : list string;
  cors : bool;
  token : bool;
  compression : string;
  b64encode : bool;
  ttl : option Z;
  cache_control : option string;
  description : option string;
  tag : option (list string)
}.

(** The keyword arguments of a registration; every recognised keyword
    holds its default when it is not given, [kw_extra] lists the
    unrecognised ones. *)
Record route_kwargs := {
  kw_methods : list string;
  kw_cors : bool;
  kw_token : bool;
  kw_payload_compression_method : string;
  kw_binary_b64encode : bool;
  kw_ttl : option Z;
  kw_cache_control : option string;
  kw_description : option string;
  kw_tag : option (list string);
  kw_extra : list string
}.

Definition default_kwargs : route_kwargs := {|
  kw_methods := ["GET"];
  kw_cors := false;
  kw_token := false;
  kw_payload_compression_method := "";
  kw_binary_b64encode := false;
  kw_ttl := None;
  kw_cache_control := None;
  kw_description := None;
  kw_tag := None;
  kw_extra := []
|}.

Definition with_methods (ms : list string) (kw : route_kwargs) : route_kwargs := {|
  kw_methods := ms;
  kw_cors := kw_cors kw;
  kw_token := kw_token kw;
  kw_payload_compression_method := kw_payload_compression_method kw;
  kw_binary_b64encode := kw_binary_b64encode kw;
  kw_ttl := kw_ttl kw;
  kw_cache_control := kw_cache_control kw;
  kw_description := kw_description kw;
  kw_tag := kw_tag kw;
  kw_extra := kw_extra kw
|}.

Definition unsupported_compression (c : string) : exn :=
  ValueError ("'" +:+ c +:+ "' is not a supported compression").

(** [RouteEntry.__init__] *)
Definition RouteEntry_init (ep : Endpoint) (path : string) (kw : route_kwargs)
    : result RouteEntry :=
  regex ← _path_to_regex path;
  openapi ← _path_to_openapi path;
  let c := kw_payload_compression_method kw in
  if negb (String.eqb c "") && negb (bool_decide (c ∈ ["gzip"; "zlib"; "deflate"]))
  then Raise (unsupported_compression c)
  else
    Ok {| endpoint := ep;
          r_path := path;
          route_regex := regex;
          openapi_path := openapi;
          methods := match kw_methods kw with [] => ["GET"] | ms => ms end;
          cors := kw_cors kw;
          token := kw_token kw;
          compression := c;
          b64encode := kw_binary_b64encode kw;
          ttl := kw_ttl kw;
          cache_control := kw_cache_control kw;
          description := match kw_description kw with
                         | Some d => if String.eqb d "" then ep_doc ep else Some d
                         | None => ep_doc ep
                         end;
          tag := kw_tag kw |}.

(** [[i.group() for i in params_expr.finditer(path)]]: the texts of
    the placeholders of a template, in the order they are written. *)
Definition route_args_of (path : string) : list string :=
  Re.m_text <$> Re.finditer params_expr path.

(** ** The route table of [proxy.py] *)

Definition duplicate_route (path : string) : exn :=
  ValueError ("Duplicate route detected: " +:+ String "034"%char (path +:+ String "034"%char
              (String "010"%char "URL paths must be unique."))).

Definition unexpected_keywords (extra : list string) : exn :=
  TypeError ("TypeError: route() got unexpected keyword arguments: "
             +:+ Str.join ", " extra).

Fixpoint _checkroute (routes : list RouteEntry) (path method : string) : bool :=
  match routes with
  | [] => false
  | route :: rest =>
      if bool_decide (method ∈ methods route) && String.eqb path (r_path route)
      then true
      else _checkroute rest path method
  end.

(** The loop of [_add_route] over the methods of the registration. *)
Fixpoint check_methods (routes : list RouteEntry) (path : string)
    (ms : list string) : result unit :=
  match ms with
  | [] => Ok ()
  | method :: rest =>
      if _checkroute routes path method then Raise (duplicate_route path)
      else check_methods routes path rest
  end.

(** [_add_route]: the new route and the table after the registration.
    The deprecation warning for [ttl] is not modelled. *)
Definition _add_route (routes : list RouteEntry) (path : string) (ep : Endpoint)
    (kw : route_kwargs) : result (RouteEntry * list RouteEntry) :=
  match kw_extra kw with
  | _ :: _ => Raise (unexpected_keywords (kw_extra kw))
  | [] =>
      _ ← check_methods routes path (kw_methods kw);
      route ← RouteEntry_init ep path kw;
      Ok (route, routes ++ [route])
  end.

Definition re_compile (src : string) : result Re.pattern :=
  match Re.compile src with
  | Some p => Ok p
  | None => Raise ReError
  end.

(** [method in route.methods] *)
Definition method_in (method : jval) (ms : list string) : bool :=
  match method with
  | JScalar (SStr m) => bool_decide (m ∈ ms)
  | _ => false
  end.

Fixpoint _url_matching (routes : list RouteEntry) (url method : jval)
    : result (option RouteEntry) :=
  match routes with
  | [] => Ok None
  | route :: rest =>
      expr ← re_compile (route_regex route);
      if method_in method (methods route) then
        u ← as_subject url;
        match Re.match_ expr u with
        | Some _ => Ok (Some route)
        | None => _url_matching rest url method
        end
      else _url_matching rest url method
  end.

(** [param_pattern.match(arg).groupdict()["name"]] *)
Definition name_of (arg : string) : result (option string) :=
  mt ← groupdict_of (Re.match_ param_pattern arg);
  Ok (Re.group mt "name").

(** The comprehension of [_get_matching_args] over [enumerate(url_args)]. *)
Fixpoint convert_args (route_args : list string) (id : nat)
    (url_args : list (option string)) : result (list pyval) :=
  match url_args with
  | [] => Ok []
  | u :: rest =>
      match route_args !! id with
      | None => Raise IndexError
      | Some arg =>
          if bool_decide (u = Some arg) then convert_args route_args (S id) rest
          else
            v ← _converters u arg;
            vs ← convert_args route_args (S id) rest;
            Ok (v :: vs)
      end
  end.

(** [dict(pairs)]: a later pair replaces an earlier one with its key. *)
Definition dict_of {K} `{Countable K} {V} (pairs : list (K * V)) : gmap K V :=
  foldl (fun d kv => <[kv.1 := kv.2]> d) ∅ pairs.

Fixpoint zip_ {A B} (l : list A) (l' : list B) : list (A * B) :=
  match l, l' with
  | a :: t, b :: t' => (a, b) :: zip_ t t'
  | _, _ => []
  end.

Definition _get_matching_args (route : RouteEntry) (url : jval)
    : result (gmap (option string) pyval) :=
  route_expr ← re_compile (route_regex route);
  let route_args := route_args_of (r_path route) in
  u ← as_subject url;
  mt ← groupdict_of (Re.match_ route_expr u);
  let url_args := Re.groups mt in
  names ← mapM_result name_of route_args;
  args ← convert_args route_args 0 url_args;
  Ok (dict_of (zip_ names args)).

(** ** The dispatcher of [proxy.py]

    [API.__call__], over the route table and the collaborators that lie
    outside the routing core.  Logging is not modelled. *)

Section Dispatcher.

(** The message built by [API.response] from a response, and, for a
    matched route, from the route and the [accept-encoding] header. *)
Variable Message : Type.
Variable response : Response -> option (RouteEntry * scalar) -> result Message.
(** [json.dumps({key: value})] *)
Variable json_dumps : string -> string -> string.
(** [str(err)] *)
Variable exn_str : exn -> string.
(** [os.environ.get("TOKEN")] *)
Variable env_token : option string.
(** [base64.b64decode(body).decode()] *)
Variable b64decode : jval -> result string.
(** [str(d)] for a dict *)
Variable repr_dict : gmap string scalar -> string.

Definition jval_str (v : jval) : string :=
  match v with
  | JScalar x => Py.str x
  | JDict d => repr_dict d
  end.

Definition of_jval (v : jval) : pyval :=
  match v with
  | JScalar x => of_scalar x
  | JDict d => VDict d
  end.

(** [x or {}], then used as a dict. *)
Definition or_empty (o : option jval) : result (gmap string scalar) :=
  match o with
  | Some v => if jtruthy v then as_dict v else Ok ∅
  | None => Ok ∅
  end.

(** [dict((key.lower(), value) for key, value in headers.items())];
    of two keys that differ only in case, the one enumerated last by
    the map stays.  The map enumerates its keys in an order of its own,
    not in the order the event lists them, so which of two such keys
    stays is not the one Python keeps. *)
Definition lower_keys (headers : gmap string scalar) : gmap string scalar :=
  dict_of ((fun kv => (Py.lower kv.1, kv.2)) <$> map_to_list headers).

Definition _validate_token (tok : option scalar) : bool :=
  match tok, env_token with
  | Some (SStr t), Some e =>
      negb (String.eqb t "") && negb (String.eqb e "") && String.eqb t e
  | _, _ => false
  end.

Definition error_response (code : StatusCode) (key msg : string) : Response :=
  {| status_code := code; content_type := "application/json";
     body := json_dumps key msg |}.

(** The call of [endpoint] with [function_kwargs] as keyword arguments:
    the keywords must be strings. *)
Definition call_endpoint (ep : Endpoint) (kwargs : gmap (option string) pyval)
    : result Response :=
  match kwargs !! None with
  | Some _ => Raise (TypeError "keywords must be strings")
  | None =>
      ep_call ep (dict_of (omap (fun kv => match kv.1 with
                                           | Some k => Some (k, kv.2)
                                           | None => None
                                           end) (map_to_list kwargs)))
  end.

(** [try: ... except Exception as err: ...] around the handler. *)
Definition guarded (c : result Response) : Response :=
  match c with
  | Ok r => r
  | Raise err => error_response INTERNAL_SERVER_ERROR "errorMessage" (exn_str err)
  end.

Definition with_body (event : gmap string jval) (http_method : jval)
    (kwargs : gmap (option string) pyval) : result (gmap (option string) pyval) :=
  if method_in http_method ["POST"; "PUT"; "PATCH"]
     && jtruthy (default jnone (event !! "body"))
  then
    raw ← getitem event "body";
    if jtruthy (default jnone (event !! "isBase64Encoded"))
    then decoded ← b64decode raw; Ok (<[Some "body" := VStr decoded]> kwargs)
    else Ok (<[Some "body" := of_jval raw]> kwargs)
  else Ok kwargs.

Definition update_with (params : gmap string scalar)
    (kwargs : gmap (option string) pyval) : gmap (option string) pyval :=
  foldl (fun d kv => <[Some kv.1 := of_scalar kv.2]> d) kwargs (map_to_list params).

Definition __call__ (routes : list RouteEntry) (event : gmap string jval)
    : result Message :=
  headers ← or_empty (event !! "headers");
  let event := <["headers" := JDict (lower_keys headers)]> event in
  request_path ← ApigwPath_init event;
  if is_none (path request_path) then
    response (error_response BAD_REQUEST "errorMessage" "Missing or invalid path") None
  else
    http_method ← getitem event "httpMethod";
    route_entry ← _url_matching routes (path request_path) http_method;
    match route_entry with
    | None =>
        response (error_response BAD_REQUEST "errorMessage"
                    ("No view function for: " +:+ jval_str http_method +:+ " - "
                     +:+ jval_str (path request_path))) None
    | Some route_entry =>
        request_params ← or_empty (event !! "queryStringParameters");
        if token route_entry && negb (_validate_token (request_params !! "access_token"))
        then response (error_response INTERNAL_SERVER_ERROR "message"
                         "Invalid access token") None
        else
          let request_params := delete "access_token" request_params in
          function_kwargs ← _get_matching_args route_entry (path request_path);
          let function_kwargs := update_with request_params function_kwargs in
          function_kwargs ← with_body event http_method function_kwargs;
          let resp := guarded (call_endpoint (endpoint route_entry) function_kwargs) in
          response resp
            (Some (route_entry,
                   default (SStr "") (lower_keys headers !! "accept-encoding")))
    end.

End Dispatcher.

(** ** Example events and routes

    The events of [tests/test_proxy.py] and [tests/test_gateway.py], and
    a few more, for the statements below. *)

Definition mk_event (l : list (string * jval)) : gmap string jval := list_to_map l.
Definition mk_dict (l : list (string * scalar)) : jval := JDict (list_to_map l).

Definition managed_host : scalar :=
  SStr "afakeapi.execute-api.us-east-1.amazonaws.com".

(** Managed domain, stage [$default]. *)
Definition ev_default_stage : gmap string jval :=
  mk_event [("resource", jstr "/api/{proxy+}");
            ("pathParameters", mk_dict [("proxy", SStr "test/1234/pix")]);
            ("path", jstr "/api/test/1234/pix");
            ("headers", mk_dict [("host", managed_host)]);
            ("requestContext", mk_dict [("stage", SStr "$default")])].

(** Custom domain whose base path equals the first segment of the
    logical path. *)
Definition ev_repeated_segment : gmap string jval :=
  mk_event [("resource", jstr "/{proxy+}");
            ("pathParameters", mk_dict [("proxy", SStr "a")]);
            ("path", jstr "/a/a");
            ("headers", mk_dict [])].

(** Greedy resource with a base path. *)
Definition ev_base_path : gmap string jval :=
  mk_event [("resource", jstr "/api/{proxy+}");
            ("pathParameters", mk_dict [("proxy", SStr "test/1234/pix")]);
            ("path", jstr "/prefix/api/test/1234/pix");
            ("headers", mk_dict [])].

(** Greedy resource without the [pathParameters] key. *)
Definition ev_no_path_parameters : gmap string jval :=
  mk_event [("resource", jstr "/api/{proxy+}");
            ("path", jstr "/api/test/1234/pix");
            ("headers", mk_dict [])].

(** Greedy resource whose [pathParameters] lack the placeholder. *)
Definition ev_other_parameter : gmap string jval :=
  mk_event [("resource", jstr "/api/{proxy+}");
            ("pathParameters", mk_dict [("other", SStr "test/1234/pix")]);
            ("path", jstr "/api/test/1234/pix");
            ("headers", mk_dict [])].

(** ** Definitions used to state the properties *)

(** The specification's wording of the path mapping: the raw path with
    the first occurrence of api-prefix + logical-path removed. *)
Definition path_mapping_first_occurrence : Prop :=
  forall (event : gmap string jval) (p : ApigwPath) (raw lp : string),
    ApigwPath_init event = Ok p ->
    Py.truthy (apigw_stage p) = false ->
    path p = jstr lp -> lp <> "" ->
    event !! "path" = Some (jstr raw) ->
    path_mapping p = Str.remove_first (api_prefix p +:+ lp) raw.

(** Greedy repetition of a one-character test followed by [k]: the
    longest run first, then shorter ones. *)
Fixpoint greedy (P : ascii -> bool) (lo : nat) (hi : option nat) (k : Re.cont)
    (cnt pos : nat) (s : string) (cs : Re.caps) : option (nat * Re.caps) :=
  Re.or_else
    match s with
    | String c s' =>
        if match hi with Some h => Nat.ltb cnt h | None => true end && P c
        then greedy P lo hi k (S cnt) (S pos) s' cs
        else None
    | "" => None
    end
    (if Nat.leb lo cnt then k pos s cs else None).

Definition not_newline (c : ascii) : bool := negb (Ascii.eqb c Re.newline).

(** A route answers a request when its method set holds the method and
    its compiled expression matches the path. *)
Definition route_matches (url method : string) (route : RouteEntry) : bool :=
  bool_decide (method ∈ methods route) &&
  match Re.compile (route_regex route) with
  | Some expr => bool_decide (is_Some (Re.match_ expr url))
  | None => false
  end.

Definition compiles (route : RouteEntry) : Prop :=
  is_Some (Re.compile (route_regex route)).

(** ** What an expression matches

    The texts an expression matches, told without the matcher.
    [lang r pos a rest] says that [r] matches the text [a] when [a]
    stands at position [pos] of the subject and [rest] follows it.  A
    group matches what its body matches; [^] matches the empty text at
    the start of the subject, [$] the empty text at its end or before a
    line break that ends it. *)
Fixpoint iter (L : nat -> string -> string -> Prop) (n : nat) (pos : nat)
    (a rest : string) : Prop :=
  match n with
  | 0 => a = ""
  | S n' =>
      exists a1 a2, a = a1 +:+ a2 /\ L pos a1 (a2 +:+ rest) /\
                    iter L n' (pos + String.length a1) a2 rest
  end.

Fixpoint lang (r : Re.regex) (pos : nat) (a rest : string) : Prop :=
  match r with
  | Re.REps => a = ""
  | Re.RChr c => a = String c ""
  | Re.RAny => exists c, a = String c "" /\ c <> Re.newline
  | Re.RSet neg items => exists c, a = String c "" /\ Re.in_set neg items c = true
  | Re.RDigit => exists c, a = String c "" /\ Re.is_digit c = true
  | Re.RBol => a = "" /\ pos = 0
  | Re.REol => a = "" /\ (rest = "" \/ rest = String Re.newline "")
  | Re.RSeq r1 r2 =>
      exists a1 a2, a = a1 +:+ a2 /\ lang r1 pos a1 (a2 +:+ rest) /\
                    lang r2 (pos + String.length a1) a2 rest
  | Re.RAlt r1 r2 => lang r1 pos a rest \/ lang r2 pos a rest
  | Re.RRep r1 lo hi =>
      exists n, lo <= n /\ (forall h, hi = Some h -> n <= h) /\
                iter (lang r1) n pos a rest
  | Re.RGroup _ r1 => lang r1 pos a rest
  end.

(** [expr.match(url)] finds a match: the expression matches the start
    of the path, up to some point. *)
Definition matches_start (expr : Re.pattern) (url : string) : Prop :=
  exists a rest, url = a +:+ rest /\ lang (Re.p_re expr) 0 a rest.

(** The expression matches the path as a whole. *)
Definition matches_fully (expr : Re.pattern) (url : string) : Prop :=
  lang (Re.p_re expr) 0 url "".

(** A route accepts a request: its methods hold the method and its
    expression matches the start of the path. *)
Definition accepts (url method : string) (route : RouteEntry) : Prop :=
  method ∈ methods route /\
  exists expr, Re.compile (route_regex route) = Some expr /\ matches_start expr url.

(** An expression that ends in [$]. *)
Fixpoint ends_anchored (r : Re.regex) : Prop :=
  match r with
  | Re.REol => True
  | Re.RSeq _ r2 => ends_anchored r2
  | Re.RGroup _ r1 => ends_anchored r1
  | _ => False
  end.

(** Captures do not decide whether a continuation succeeds. *)
Definition insensitive (k : Re.cont) : Prop :=
  forall pos s cs cs', is_Some (k pos s cs) <-> is_Some (k pos s cs').

(** What a matcher has to do for a set of texts [L]: with a
    continuation of that kind, it finds a match exactly when the
    subject starts with a text of [L] after which the continuation
    goes through. *)
Definition decides (L : nat -> string -> string -> Prop)
    (mr : nat -> string -> Re.caps -> Re.cont -> option (nat * Re.caps)) : Prop :=
  forall pos s cs k, insensitive k ->
    (is_Some (mr pos s cs k) <->
     exists a b, s = a +:+ b /\ L pos a b /\ is_Some (k (pos + String.length a) b cs)).

(** What [Re.rep_loop] tries after one more round. *)
Definition after_round (mr : nat -> string -> Re.caps -> Re.cont -> option (nat * Re.caps))
    (lo : nat) (hi : option nat) (k : Re.cont) (fuel cnt pos : nat) : Re.cont :=
  fun pos' s' cs' =>
    if Nat.leb lo cnt && Nat.eqb pos' pos then None
    else Re.rep_loop mr lo hi k fuel (S cnt) pos' s' cs'.



Definition plain_endpoint (text : string) : Endpoint :=
  {| ep_call := fun _ => Ok {| status_code := OK; content_type := "text/plain";
                               body := text |};
     ep_doc := None |}.

(** The table after [registrations], from an empty table. *)
Definition register_all (registrations : list (string * string * list string))
    : result (list RouteEntry) :=
  foldl (fun table reg =>
           routes ← table;
           snd <$> _add_route routes reg.1.1 (plain_endpoint reg.1.2)
                               (with_methods reg.2 default_kwargs))
        (Ok []) registrations.

Definition table_of (registrations : list (string * string * list string))
    : list RouteEntry :=
  match register_all registrations with
  | Ok routes => routes
  | Raise _ => []
  end.

(** The two routes of [test_routeRegex]: both match [/test/1234/pix]. *)
Definition regex_routes : list RouteEntry :=
  Eval vm_compute in
    table_of [("/test/<regex([0-9]{4}):number>/<regex([a-z]{3}):name>", "yooooo", ["GET"]);
              ("/test/<regex([0-9]{4}):number>/<name>", "heyyyy", ["GET"])].

(** The type the program reads from a placeholder text: [None] when the
    text is not a placeholder, [Some None] for a placeholder without a
    type. *)
Definition descriptor_type (path_arg : string) : option (option string) :=
  (fun mt => Re.group mt "type") <$> Re.match_ param_pattern path_arg.

(** The number written by a run of decimal digits. *)
Fixpoint decimal_value (s : string) (acc : N) : N :=
  match s with
  | "" => acc
  | String c s' => decimal_value s' (10 * acc + Py.digit_val c)%N
  end.

(** What it is for a double to be the nearest to a fraction [n / d] of
    steps of two to the -1074, negated when [neg]: its mantissa and
    exponent are in range, it is within half a step of its own size of
    the fraction, and it is the even one when the fraction is halfway;
    the infinite double stands for what is past the largest double by
    half a step or more. *)
Definition nearest_double (neg : bool) (n d : Z) (f : pyfloat) : Prop :=
  match f with
  | FBin neg' m e =>
      neg' = neg /\ (Z.of_N m < 2 ^ 53)%Z /\ (-1074 <= e <= 971)%Z /\
      ((2 ^ 52 <= Z.of_N m)%Z \/ e = (-1074)%Z) /\
      (2 * Z.abs (n - Z.of_N m * (d * 2 ^ (e + 1074))) <= d * 2 ^ (e + 1074))%Z /\
      ((2 * Z.abs (n - Z.of_N m * (d * 2 ^ (e + 1074))) = d * 2 ^ (e + 1074))%Z ->
       Z.even (Z.of_N m) = true)
  | FInf neg' => neg' = neg /\ ((2 ^ 54 - 1) * 2 ^ 2045 * d <= 2 * n)%Z
  | FNan => False
  end.

(** What [float()] reads in a capture of the class of [<float:..>], a
    run of digits [a], one character [c] and a run of digits [b]: the
    decimal [a.b] when [c] is the point; the digits of all three when
    [c] is a digit, and those of [a] and [b] when it is an underscore;
    [a] times ten to the [b] when it is an [e]; nothing otherwise.  The
    answer is the mantissa and the exponent of ten. *)
Definition float_capture (a : string) (c : ascii) (b : string) : option (N * Z) :=
  if Ascii.eqb c "." then Some (decimal_value (a +:+ b) 0, (- Z.of_nat (String.length b))%Z)
  else if Re.is_digit c then Some (decimal_value (a +:+ String c b) 0, 0%Z)
  else if Ascii.eqb c "_" then Some (decimal_value (a +:+ b) 0, 0%Z)
  else if Ascii.eqb c "e" || Ascii.eqb c "E"
  then Some (decimal_value a 0, Z.of_N (decimal_value b 0))
  else None.

(** A sign as a capture may start with: none, [+] or [-]. *)
Definition sign_prefix (neg : option bool) : string :=
  match neg with
  | None => ""
  | Some false => "+"
  | Some true => "-"
  end.

Definition is_minus (neg : option bool) : bool := default false neg.

Definition empty_route : RouteEntry := {|
  endpoint := plain_endpoint "";
  r_path := "";
  route_regex := "";
  openapi_path := "";
  methods := [];
  cors := false;
  token := false;
  compression := "";
  b64encode := false;
  ttl := None;
  cache_control := None;
  description := None;
  tag := None
|}.

(** The entry made by registering [path] for GET in an empty table. *)
Definition route_of (path body : string) : RouteEntry :=
  match _add_route [] path (plain_endpoint body) default_kwargs with
  | Ok (route, _) => route
  | Raise _ => empty_route
  end.

(** The route of the extraction scenario. *)
Definition scenario_route : RouteEntry :=
  Eval vm_compute in route_of "/test/<string:user>/<name>" "heyyyy".

(** A route whose first placeholder can capture its own source text. *)
Definition self_capture_route : RouteEntry :=
  Eval vm_compute in route_of "/<regex(.+):x>/<y>" "heyyyy".

(** The route of [test_routeRegexFailing]: a group inside the inline
    pattern. *)
Definition nested_group_route : RouteEntry :=
  Eval vm_compute in route_of "/test/<regex(user(\d+)?):user>/<sport>" "yooooo".

(** The specification's wording of argument extraction: every captured
    group is paired with the descriptor at its position, a capture equal
    to its own placeholder text is skipped, the others are converted and
    bound to the name of their own descriptor. *)
Fixpoint pair_args (names : list (option string)) (route_args : list string)
    (url_args : list (option string)) : result (list (option string * pyval)) :=
  match names, route_args, url_args with
  | name :: names', arg :: route_args', u :: url_args' =>
      if bool_decide (u = Some arg) then pair_args names' route_args' url_args'
      else
        v ← _converters u arg;
        rest ← pair_args names' route_args' url_args';
        Ok ((name, v) :: rest)
  | _, _, _ => Ok []
  end.

Definition extraction_as_specified : Prop :=
  forall (route : RouteEntry) (url : string) (expr : Re.pattern) (mt : Re.mtch)
         (names : list (option string)),
    Re.compile (route_regex route) = Some expr ->
    Re.match_ expr url = Some mt ->
    mapM_result name_of (route_args_of (r_path route)) = Ok names ->
    _get_matching_args route (jstr url) =
    (pairs ← pair_args names (route_args_of (r_path route)) (Re.groups mt);
     Ok (dict_of pairs)).

(** A route with a [float] placeholder, and a request whose segment has
    a letter where the dot stands. *)
Definition float_route : RouteEntry :=
  Eval vm_compute in route_of "/<float:num>" "heyyyy".

Definition ev_float_letter : gmap string jval :=
  mk_event [("path", jstr "/1a2");
            ("httpMethod", jstr "GET");
            ("headers", mk_dict []);
            ("queryStringParameters", mk_dict [])].

(** The state of a dispatch that has reached argument extraction: the
    headers are lower-cased, the path is resolved, a route is found and
    the token test, if any, is passed. *)
Record reaches_extraction (env_token : option string) (routes : list RouteEntry)
    (event : gmap string jval) (headers : gmap string scalar)
    (request_path : ApigwPath) (http_method : jval) (route : RouteEntry)
    (request_params : gmap string scalar) : Prop := {
  re_headers : or_empty (event !! "headers") = Ok headers;
  re_path :
    ApigwPath_init (<["headers" := JDict (lower_keys headers)]> event) = Ok request_path;
  re_resolved : is_none (path request_path) = false;
  re_method : event !! "httpMethod" = Some http_method;
  re_route : _url_matching routes (path request_path) http_method = Ok (Some route);
  re_params : or_empty (event !! "queryStringParameters") = Ok request_params;
  re_token :
    token route && negb (_validate_token env_token (request_params !! "access_token"))
    = false
}.

(** The specification's wording of C8: a conversion failure is answered
    with a response, whatever response builder is plugged in, provided
    the builder itself answers. *)
Definition conversion_failure_answered : Prop :=
  forall (Message : Type)
         (response : Response -> option (RouteEntry * scalar) -> result Message)
         json_dumps exn_str env_token b64decode repr_dict
         routes event headers request_path http_method route request_params e,
    (forall r o, exists msg, response r o = Ok msg) ->
    reaches_extraction env_token routes event headers request_path http_method
                       route request_params ->
    _get_matching_args route (path request_path) = Raise e ->
    exists msg,
      __call__ Message response json_dumps exn_str env_token b64decode repr_dict
               routes event = Ok msg.

(** The path information of [ev_float_letter]. *)
Definition float_letter_path : ApigwPath :=
  {| version := jnone; apigw_stage := SStr ""; path := jstr "/1a2";
     api_prefix := ""; path_mapping := "" |}.

(** ** Templates as sequences of segments

    A template read as the placeholder grammar reads it: literal text,
    [<name>] and [<type:name>] placeholders, and [<regex(pattern):name>]
    placeholders. *)

Inductive segment :=
  | TLit (text : string)
  | TParam (ty : option string) (name : string)
  | TRegex (pattern name : string).

Definition render1 (t : segment) : string :=
  match t with
  | TLit text => text
  | TParam None name => "<" +:+ name +:+ ">"
  | TParam (Some ty) name => "<" +:+ ty +:+ ":" +:+ name +:+ ">"
  | TRegex pattern name => "<regex(" +:+ pattern +:+ "):" +:+ name +:+ ">"
  end.

Fixpoint render (toks : list segment) : string :=
  match toks with
  | [] => ""
  | t :: toks' => render1 t +:+ render toks'
  end.

(** The documentation form of a token: [{name}] for a placeholder. *)
Definition doc1 (t : segment) : string :=
  match t with
  | TLit text => text
  | TParam _ name => "{" +:+ name +:+ "}"
  | TRegex _ name => "{" +:+ name +:+ "}"
  end.

Fixpoint doc (toks : list segment) : string :=
  match toks with
  | [] => ""
  | t :: toks' => doc1 t +:+ doc toks'
  end.

(** The characters of [[a-zA-Z0-9_]]. *)
Definition word_char (c : ascii) : bool :=
  Re.in_set false [Re.IRange "a" "z"; Re.IRange "A" "Z"; Re.IRange "0" "9"; Re.IChar "_"] c.

Definition is_word (s : string) : Prop := s <> "" /\ Str.all word_char s = true.

(** The characters of [[^>]]. *)
Definition not_gt (c : ascii) : bool := Re.in_set true [Re.IChar ">"] c.

Definition no_angle (c : ascii) : bool :=
  negb (Ascii.eqb c "<") && negb (Ascii.eqb c ">").

(** The tokens of the placeholder grammar as the specification gives
    it: any non-empty text is allowed as an inline pattern. *)
Definition wf_stated (t : segment) : Prop :=
  match t with
  | TLit text => Str.all no_angle text = true
  | TParam None name => is_word name
  | TParam (Some ty) name => ty ∈ ["string"; "int"; "float"; "uuid"] /\ is_word name
  | TRegex pattern name => pattern <> "" /\ is_word name
  end.

Definition openapi_as_specified : Prop :=
  forall toks, Forall wf_stated toks -> _path_to_openapi (render toks) = Ok (doc toks).

(** Tokens whose placeholders the program reads as one placeholder
    each: an inline pattern holds no [>], no line break and no text
    [<regex]. *)
Definition wf_tag (t : segment) : Prop :=
  match t with
  | TLit text => Str.all no_angle text = true
  | TParam None name => is_word name
  | TParam (Some ty) name => is_word ty /\ is_word name
  | TRegex pattern name =>
      pattern <> "" /\
      Str.all not_gt pattern = true /\
      Str.all not_newline pattern = true /\
      Str.contains "<regex" pattern = false /\
      is_word name
  end.

(** A placeholder other than the inline-pattern one does not begin with
    the text [<regex]. *)
Definition no_regex_prefix (t : segment) : Prop :=
  match t with
  | TParam None name => Str.strip_prefix "regex" name = None
  | TParam (Some ty) _ => Str.strip_prefix "regex" ty = None
  | _ => True
  end.

Definition wf_token (t : segment) : Prop := wf_tag t /\ no_regex_prefix t.

(** The regular expression that reads the text [l] and goes on with
    [tail]. *)
Fixpoint lit_re (l : string) (tail : Re.regex) : Re.regex :=
  match l with
  | "" => tail
  | String c l' => Re.RSeq (Re.RChr c) (lit_re l' tail)
  end.

(** The texts of the inline-pattern placeholders, from left to right. *)
Fixpoint regex_texts (toks : list segment) : list string :=
  match toks with
  | [] => []
  | TRegex p n :: toks' => render1 (TRegex p n) :: regex_texts toks'
  | _ :: toks' => regex_texts toks'
  end.

(** The intermediate form [<regex:name>] of an inline-pattern
    placeholder. *)
Definition normal (t : segment) : segment :=
  match t with
  | TRegex _ name => TParam (Some "regex") name
  | _ => t
  end.

(** The same, for the placeholders whose text is in [texts]. *)
Definition normal_in (texts : list string) (t : segment) : segment :=
  match t with
  | TRegex _ _ => if bool_decide (render1 t ∈ texts) then normal t else t
  | _ => t
  end.

(** A token after the rewriting of the opening brackets. *)
Definition opened1 (t : segment) : string :=
  match t with
  | TLit text => text
  | TParam _ name => "{" +:+ name +:+ ">"
  | TRegex _ name => "{" +:+ name +:+ ">"
  end.

Fixpoint opened (toks : list segment) : string :=
  match toks with
  | [] => ""
  | t :: toks' => opened1 t +:+ opened toks'
  end.

Fixpoint map_chars (f : ascii -> ascii) (s : string) : string :=
  match s with
  | "" => ""
  | String c s' => String (f c) (map_chars f s')
  end.

Definition close_char (c : ascii) : ascii :=
  if Ascii.eqb c ">" then "}"%char else c.



Definition not_lt (c : ascii) : bool := negb (Ascii.eqb c "<").

(** A segment with no inline pattern left. *)
Definition simple (t : segment) : Prop :=
  match t with
  | TRegex _ _ => False
  | _ => wf_tag t
  end.

(** A route with an [int] placeholder, and the text of a line break. *)
Definition int_route : RouteEntry :=
  Eval vm_compute in route_of "/<int:num>" "heyyyy".

Definition line_break : string := String Re.newline "".

(** The characters of [[0-9]]. *)
Definition digit_char (c : ascii) : bool := Re.in_set false [Re.IRange "0" "9"] c.

(** The end of the subject as [$] sees it. *)
Definition at_end (s : string) : Prop := s = "" \/ s = line_break.

(** A route with a [uuid] placeholder. *)
Definition uuid_route : RouteEntry :=
  Eval vm_compute in route_of "/<uuid:id>" "heyyyy".

(** The characters of [[+-]] and of [[0-9a-f]]. *)
Definition sign_char (c : ascii) : bool := Re.in_set false [Re.IChar "+"; Re.IChar "-"] c.

Definition hex_char (c : ascii) : bool :=
  Re.in_set false [Re.IRange "0" "9"; Re.IRange "a" "f"] c.

(** The texts of the groups written for the typed placeholders:
    [[0-9]+], [[+-]?[0-9]+.[0-9]+] and the five runs of a uuid. *)
Definition int_text (t : string) : Prop :=
  t <> "" /\ Str.all digit_char t = true.

Definition float_text (t : string) : Prop :=
  exists sg d1 c d2,
    t = sg +:+ d1 +:+ String c d2 /\
    (sg = "" \/ sg = "+" \/ sg = "-") /\
    int_text d1 /\ not_newline c = true /\ int_text d2.

Definition hex_run (n : nat) (h : string) : Prop :=
  String.length h = n /\ Str.all hex_char h = true.

Definition uuid_text (t : string) : Prop :=
  exists h1 h2 h3 h4 h5,
    t = h1 +:+ "-" +:+ h2 +:+ "-" +:+ h3 +:+ "-" +:+ h4 +:+ "-" +:+ h5 /\
    hex_run 8 h1 /\ hex_run 4 h2 /\ hex_run 4 h3 /\ hex_run 4 h4 /\ hex_run 12 h5.

(** The paths [/s] that the expression of a route matches are the texts
    of a class, alone or before one line break. *)
Definition matches_class (class : string -> Prop) (route : RouteEntry) : Prop :=
  forall s,
    route_matches ("/" +:+ s) "GET" route = true <->
    exists t rest, s = t +:+ rest /\ class t /\ at_end rest.

(** ** The rest of [proxy.py] and [routing.py]

    The functions around the route table: the endpoint URL, the
    descriptors of a route, the response builder and the documentation. *)

(** [API.host] for an API built with [https], once a call has set
    [self.event] and [self.request_path]. *)
Definition host (https : bool) (event : gmap string jval) (request_path : ApigwPath)
    : result string :=
  headers ← getitem event "headers";
  headers ← as_dict headers;
  let host := default (default (SStr "") (headers !! "host"))
                      (headers !! "x-forwarded-host") in
  let host_suffix :=
    if Py.truthy (apigw_stage request_path)
       && negb (bool_decide (apigw_stage request_path = SStr "$default"))
    then "/" +:+ Py.str (apigw_stage request_path)
    else path_mapping request_path in
  let scheme := if https : bool then "https" else "http" in
  Ok (scheme +:+ "://" +:+ Py.str host +:+ host_suffix).

(** A host of a managed domain, as [_get_apigw_stage] tests it. *)
Definition occurs (sub s : string) : Prop := exists pre post, s = pre +:+ sub +:+ post.

Definition managed (h : string) : Prop :=
  occurs ".execute-api." h /\ occurs ".amazonaws.com" h.

(** The host header that [_get_apigw_stage] and [API.host] read. *)
Definition host_header (headers : gmap string scalar) : scalar :=
  default (default (SStr "") (headers !! "host")) (headers !! "x-forwarded-host").

(** [requestContext.get("stage", "")] *)
Definition context_stage (event : gmap string jval) : result scalar :=
  ctx ← getitem event "requestContext";
  ctx ← as_dict ctx;
  Ok (default (SStr "") (ctx !! "stage")).

(** *** [API.response]

    The builder of the message handed back to the gateway.  A body is a
    [str] or [bytes]; the compressor of [zlib], [base64] and the UTF-8
    encoder are collaborators.  [statusCode] holds the member of
    [StatusCode], which stands for its value. *)

Inductive pybody :=
  | BStr (s : string)
  | BBytes (b : list Byte.byte).

(** The response object as [API.response] reads it: the fields of
    [types.py], a body of either kind, and the [headers] attribute. *)
Record ResponseObj := {
  ro_status_code : StatusCode;
  ro_content_type : string;
  ro_body : pybody;
  ro_headers : option (gmap string string)
}.

Record Message := {
  msg_headers : gmap string string;
  msg_statusCode : StatusCode;
  msg_isBase64Encoded : bool;
  msg_body : pybody
}.

Definition BINARY_TYPES : list string :=
  ["application/octet-stream"; "application/x-protobuf"; "application/x-tar";
   "application/zip"; "image/png"; "image/jpeg"; "image/jpg"; "image/tiff";
   "image/webp"; "image/jp2"].

(** [str(z)] for an [int]. *)
Definition str_int (z : Z) : string := NilZero.string_of_int (Z.to_int z).

(** [if ttl:] and [elif cache_control:] *)
Definition ttl_set (ttl : option Z) : option Z :=
  match ttl with
  | Some z => if Z.eqb z 0 then None else Some z
  | None => None
  end.

Definition text_set (s : option string) : option string :=
  match s with
  | Some t => if String.eqb t "" then None else Some t
  | None => None
  end.

Definition is_ok (c : StatusCode) : bool :=
  match c with
  | OK => true
  | _ => false
  end.

Section Response.

(** [zlib.compressobj(9, zlib.DEFLATED, wbits)], fed the whole body and
    flushed. *)
Variable compress : Z -> list Byte.byte -> list Byte.byte.
(** [base64.b64encode(b).decode()] *)
Variable b64encode_text : list Byte.byte -> string.
(** [bytes(s, "utf-8")] *)
Variable utf8 : string -> list Byte.byte.
(** [json.dumps({key: value})] *)
Variable json_dumps : string -> string -> string.

Definition MAX_WBITS : Z := 15.

(** [base64.b64encode] wants bytes. *)
Definition b64encode_body (b : pybody) : result string :=
  match b with
  | BBytes x => Ok (b64encode_text x)
  | BStr _ => Raise (TypeError "a bytes-like object is required, not 'str'")
  end.

Definition as_bytes (b : pybody) : list Byte.byte :=
  match b with
  | BStr s => utf8 s
  | BBytes x => x
  end.

Definition is_str (b : pybody) : bool :=
  match b with
  | BStr _ => true
  | BBytes _ => false
  end.

Definition cors_headers (accepted_methods : list string) (headers : gmap string string)
    : gmap string string :=
  <["Access-Control-Allow-Credentials" := "true"]>
    (<["Access-Control-Allow-Methods" := Str.join "," accepted_methods]>
       (<["Access-Control-Allow-Origin" := "*"]> headers)).

(** The tail of [response], from the cache headers on. *)
Definition finish (r : ResponseObj) (headers : gmap string string)
    (response_body : pybody) (b64encode : bool) (ttl : option Z)
    (cache_control : option string) : result Message :=
  let headers :=
    match ttl_set ttl, text_set cache_control with
    | Some z, _ =>
        <["Cache-Control" :=
            if is_ok (ro_status_code r) then "max-age=" +:+ str_int z else "no-cache"]>
          headers
    | None, Some c =>
        <["Cache-Control" := if is_ok (ro_status_code r) then c else "no-cache"]> headers
    | None, None => headers
    end in
  if (bool_decide (ro_content_type r ∈ BINARY_TYPES) || negb (is_str response_body))
     && b64encode
  then
    encoded ← b64encode_body response_body;
    Ok {| msg_headers := headers; msg_statusCode := ro_status_code r;
          msg_isBase64Encoded := true; msg_body := BStr encoded |}
  else
    Ok {| msg_headers := headers; msg_statusCode := ro_status_code r;
          msg_isBase64Encoded := false; msg_body := response_body |}.

(** [API.response] handed a [Response] of [types.py].  The first thing
    it reads is [response.headers], and that class has the fields
    [status_code], [content_type] and [body] only: [AttributeError],
    whatever the other arguments are. *)
Definition response_of_Response (r : Response) : result Message :=
  Raise AttributeError.

(** [API.response] for a response object that carries [headers].  In
    the branch of an unknown compression it calls itself with a
    [Response] it builds. *)
Definition API_response (r : ResponseObj) (cors : bool)
    (accepted_methods : list string) (accepted_compression : scalar)
    (compression : string) (b64encode : bool) (ttl : option Z)
    (cache_control : option string) : result Message :=
  let headers := default ∅ (ro_headers r) in
  let headers := <["Content-Type" := ro_content_type r]> headers in
  let headers := if cors then cors_headers accepted_methods headers else headers in
  compress_it ←
    (if String.eqb compression "" then Ok false
     else contains_in compression accepted_compression);
  if compress_it : bool then
    let headers := <["Content-Encoding" := compression]> headers in
    let response_body := as_bytes (ro_body r) in
    if String.eqb compression "gzip" then
      finish r headers (BBytes (compress (Z.lor MAX_WBITS 16) response_body))
             b64encode ttl cache_control
    else if String.eqb compression "zlib" then
      finish r headers (BBytes (compress MAX_WBITS response_body))
             b64encode ttl cache_control
    else if String.eqb compression "deflate" then
      finish r headers (BBytes (compress (- MAX_WBITS) response_body))
             b64encode ttl cache_control
    else
      response_of_Response
        {| status_code := INTERNAL_SERVER_ERROR;
           content_type := "application/json";
           body := json_dumps "errorMessage"
                     ("Unsupported compression mode: " +:+ compression) |}
  else finish r headers (ro_body r) b64encode ttl cache_control.

(** The two ways [__call__] calls [response]: with a [Response] it
    builds, and with what the handler returns, a [Response] too, and
    the settings of the route. *)
Definition respond (r : Response) (settings : option (RouteEntry * scalar))
    : result Message :=
  response_of_Response r.

End Response.

(** The compressions [RouteEntry] accepts, and whether [response]
    compresses: a compression is asked for and its name occurs in the
    [accept-encoding] text. *)
Definition supported (compression : string) : Prop :=
  compression ∈ [""; "gzip"; "zlib"; "deflate"].

Definition compresses (compression accept : string) : bool :=
  negb (String.eqb compression "") && Str.contains compression accept.

(** A header that [response] never writes. *)
Definition passive (key : string) : Prop :=
  key ∉ ["Content-Type"; "Access-Control-Allow-Origin"; "Access-Control-Allow-Methods";
         "Access-Control-Allow-Credentials"; "Content-Encoding"; "Cache-Control"].

(** The window bits [response] gives the compressor. *)
Definition wbits (compression : string) : Z :=
  if String.eqb compression "gzip" then Z.lor 15 16
  else if String.eqb compression "zlib" then 15
  else (-15).

(** *** The dispatcher with its response builder *)

(** [API.__call__] with [API.response] as the builder of its answers. *)
Definition API_call (compress : Z -> list Byte.byte -> list Byte.byte)
    (b64encode_text : list Byte.byte -> string) (utf8 : string -> list Byte.byte)
    (json_dumps : string -> string -> string) (exn_str : exn -> string)
    (env_token : option string) (b64decode : jval -> result string)
    (repr_dict : gmap string scalar -> string)
    (routes : list RouteEntry) (event : gmap string jval) : result Message :=
  __call__ Message respond json_dumps exn_str env_token b64decode repr_dict routes event.

(** The state of a dispatch whose path is resolved: the headers are
    lower-cased and the path information holds a path. *)
Record resolved (event : gmap string jval) (headers : gmap string scalar)
    (request_path : ApigwPath) : Prop := {
  rs_headers : or_empty (event !! "headers") = Ok headers;
  rs_path :
    ApigwPath_init (<["headers" := JDict (lower_keys headers)]> event) = Ok request_path;
  rs_resolved : is_none (path request_path) = false
}.

(** An event without a path of its own: no [path], and a resource, if
    any, without a brace. *)
Definition pathless (event : gmap string jval) : Prop :=
  event !! "path" = None /\
  (event !! "resource" = None \/
   exists res, event !! "resource" = Some (jstr res) /\ Str.mem "{" res = false).

(** The [body] keyword of a handler: given for [POST], [PUT] and
    [PATCH] when the event holds a body, decoded when the event says it
    is base64. *)
Definition body_argument (b64decode : jval -> result string)
    (event : gmap string jval) (http_method : jval) : result (option pyval) :=
  if method_in http_method ["POST"; "PUT"; "PATCH"]
     && jtruthy (default jnone (event !! "body"))
  then
    raw ← getitem event "body";
    if jtruthy (default jnone (event !! "isBase64Encoded"))
    then decoded ← b64decode raw; Ok (Some (VStr decoded))
    else Ok (Some (of_jval raw))
  else Ok None.

(** A route that asks for a token, and a request to it. *)
Definition token_route : RouteEntry :=
  Eval vm_compute in
    match _add_route [] "/secret" (plain_endpoint "heyyyy")
            {| kw_methods := ["GET"]; kw_cors := false; kw_token := true;
               kw_payload_compression_method := ""; kw_binary_b64encode := false;
               kw_ttl := None; kw_cache_control := None; kw_description := None;
               kw_tag := None; kw_extra := [] |} with
    | Ok (route, _) => route
    | Raise _ => empty_route
    end.

Definition ev_secret : gmap string jval :=
  mk_event [("path", jstr "/secret");
            ("httpMethod", jstr "GET");
            ("headers", mk_dict []);
            ("queryStringParameters", mk_dict [("access_token", SStr "guess")])].

Definition secret_path : ApigwPath :=
  {| version := jnone; apigw_stage := SStr ""; path := jstr "/secret";
     api_prefix := ""; path_mapping := "" |}.

(** *** [RouteEntry._get_path_args] *)

(** [match.groupdict()] of [param_pattern]: the named groups. *)
Record path_arg := {
  arg_type : option string;
  arg_pattern : option string;
  arg_name : option string
}.

Definition groupdict (mt : Re.mtch) : path_arg :=
  {| arg_type := Re.group mt "type";
     arg_pattern := Re.group mt "pattern";
     arg_name := Re.group mt "name" |}.

Definition _get_path_args (self : RouteEntry) : result (list path_arg) :=
  mapM_result (fun arg => mt ← groupdict_of (Re.match_ param_pattern arg);
                          Ok (groupdict mt))
              (route_args_of (r_path self)).

(** The placeholders of a template given by its segments, and what
    [param_pattern] reads from each. *)
Fixpoint placeholders (toks : list segment) : list segment :=
  match toks with
  | [] => []
  | TLit _ :: toks' => placeholders toks'
  | t :: toks' => t :: placeholders toks'
  end.

Definition descriptor (t : segment) : path_arg :=
  match t with
  | TLit _ => {| arg_type := None; arg_pattern := None; arg_name := None |}
  | TParam ty name => {| arg_type := ty; arg_pattern := None; arg_name := Some name |}
  | TRegex p name =>
      {| arg_type := Some "regex"; arg_pattern := Some p; arg_name := Some name |}
  end.

(** *** [API._get_parameters]

    The parameters of a route for the documentation.  The schema of a
    typed placeholder is the dict of [argspath_schema] for its type,
    the same object for every placeholder of that type; what is written
    into it is seen by all of them.  The table is kept as a store, a
    parameter holds a reference into it or a dict of its own, and the
    schemas are read off the store when the list is handed back. *)

(** A parameter of the signature of the handler, as [inspect] gives it:
    its name, its default when it has one, and whether it is the
    [**kwargs] parameter. *)
Record sig_param := {
  sp_name : string;
  sp_default : option pyval;
  sp_var_keyword : bool
}.

Notation "'schema'" := (gmap string pyval) (only parsing).

Definition argspath_schema : gmap string schema :=
  list_to_map
    [("default", {["type" := VStr "string"]});
     ("string", {["type" := VStr "string"]});
     ("str", {["type" := VStr "string"]});
     ("regex", <["pattern" := VStr ""]> {["type" := VStr "string"]});
     ("uuid", <["format" := VStr "uuid"]> {["type" := VStr "string"]});
     ("int", {["type" := VStr "integer"]});
     ("float", <["format" := VStr "float"]> {["type" := VStr "number"]})].

Inductive schema_ref :=
  | Shared (ty : string)
  | Own (s : schema).

(** A parameter while the list is built. *)
Record parameter_obj := {
  po_name : option string;
  po_in : string;
  po_schema : schema_ref;
  po_required : bool
}.

(** A parameter of the list handed back; [p_required] tells whether the
    key [required] is there (it is [True] then). *)
Record parameter := {
  p_name : option string;
  p_in : string;
  p_schema : schema;
  p_required : bool
}.

(** [ref[key] = v] *)
Definition write_schema (ref : schema_ref) (key : string) (v : pyval)
    (store : gmap string schema) : schema_ref * gmap string schema :=
  match ref with
  | Shared ty => (ref, <[ty := <[key := v]> (default ∅ (store !! ty))]> store)
  | Own s => (Own (<[key := v]> s), store)
  end.

Definition read_schema (store : gmap string schema) (ref : schema_ref) : schema :=
  match ref with
  | Shared ty => default ∅ (store !! ty)
  | Own s => s
  end.

Definition resolve (store : gmap string schema) (p : parameter_obj) : parameter :=
  {| p_name := po_name p; p_in := po_in p;
     p_schema := read_schema store (po_schema p);
     p_required := po_required p |}.

(** [endpoint_args[name]] *)
Definition lookup_sig (endpoint_args : list sig_param) (name : option string)
    : result sig_param :=
  match name with
  | Some n =>
      match list_find (fun p => sp_name p = n) endpoint_args with
      | Some (_, p) => Ok p
      | None => Raise (KeyError n)
      end
  | None => Raise (KeyError "None")
  end.

(** [names.remove(name)] *)
Fixpoint list_remove (name : option string) (names : list string)
    : result (list string) :=
  match names with
  | [] => Raise (ValueError "list.remove(x): x not in list")
  | n :: names' =>
      if bool_decide (name = Some n) then Ok names'
      else rest ← list_remove name names'; Ok (n :: rest)
  end.

(** The state of the first loop: the store of the shared schemas and
    the names of the handler's parameters not yet met. *)
Definition path_state : Type := gmap string schema * list string.

(** One round of the loop over the placeholders. *)
Definition path_parameter (endpoint_args : list sig_param) (arg : path_arg)
    (st : path_state) : result (parameter_obj * path_state) :=
  let '(store, names) := st in
  annotation ← lookup_sig endpoint_args (arg_name arg);
  names ← list_remove (arg_name arg) names;
  '(ref, store) ←
    match arg_type arg with
    | None => Ok (Own {["type" := VStr "string"]}, store)
    | Some ty =>
        match store !! ty with
        | None => Raise (KeyError ty)
        | Some _ =>
            if String.eqb ty "regex"
            then Ok (write_schema (Shared ty) "pattern"
                       (VStr ("^" +:+ Py.str_opt (arg_pattern arg) +:+ "$")) store)
            else Ok (Shared ty, store)
        end
    end;
  match sp_default annotation with
  | Some d =>
      let '(ref, store) := write_schema ref "default" d store in
      Ok ({| po_name := arg_name arg; po_in := "path"; po_schema := ref;
             po_required := false |}, (store, names))
  | None =>
      Ok ({| po_name := arg_name arg; po_in := "path"; po_schema := ref;
             po_required := true |}, (store, names))
  end.

Fixpoint path_parameters (endpoint_args : list sig_param) (args : list path_arg)
    (st : path_state) : result (list parameter_obj * path_state) :=
  match args with
  | [] => Ok ([], st)
  | arg :: args' =>
      '(p, st) ← path_parameter endpoint_args arg st;
      '(ps, st) ← path_parameters endpoint_args args' st;
      Ok (p :: ps, st)
  end.

(** The second loop: the parameters of the handler that no placeholder
    has named. *)
Definition query_parameter (arg : sig_param) : parameter_obj :=
  match sp_default arg with
  | Some d =>
      {| po_name := Some (sp_name arg); po_in := "query";
         po_schema := Own {["default" := d]}; po_required := false |}
  | None =>
      if sp_var_keyword arg
      then {| po_name := Some (sp_name arg); po_in := "query";
              po_schema := Own {["format" := VStr "dict"]}; po_required := false |}
      else {| po_name := Some (sp_name arg); po_in := "query";
              po_schema := Own {["format" := VStr "string"]}; po_required := true |}
  end.

Definition query_parameters (endpoint_args : list sig_param) (names : list string)
    : list parameter_obj :=
  query_parameter <$> filter (fun arg => sp_name arg ∈ names) endpoint_args.

(** [_get_parameters], for a handler whose signature is
    [endpoint_args]. *)
Definition _get_parameters (endpoint_args : list sig_param) (route : RouteEntry)
    : result (list parameter) :=
  args_in_path ← _get_path_args route;
  '(in_path, (store, names)) ←
    path_parameters endpoint_args args_in_path
      (argspath_schema, sp_name <$> endpoint_args);
  Ok (resolve store <$> (in_path ++ query_parameters endpoint_args names)).

(** A handler with two parameters, named [a] and [b], and a route with
    two inline patterns. *)
Definition two_patterns_route : RouteEntry :=
  Eval vm_compute in route_of "/<regex([a-z]+):a>/<regex([0-9]+):b>" "heyyyy".

Definition sig_a_b : list sig_param :=
  [{| sp_name := "a"; sp_default := None; sp_var_keyword := false |};
   {| sp_name := "b"; sp_default := None; sp_var_keyword := false |}].

(** *** What the loops of [_get_parameters] keep *)

(** A parameter of the handler without a default. *)
Definition no_default (a : sig_param) : bool :=
  match sp_default a with Some _ => false | None => true end.

(** The pattern that the schema of [regex] shows after a placeholder. *)
Definition pattern_after (shown : option pyval) (arg : path_arg) : option pyval :=
  if bool_decide (arg_type arg = Some "regex")
  then Some (VStr ("^" +:+ Py.str_opt (arg_pattern arg) +:+ "$"))
  else shown.

(** What a round of the first loop leaves. *)
Record path_round (endpoint_args : list sig_param) (arg : path_arg)
    (p : parameter_obj) (store : gmap string schema) (names : list string)
    (store' : gmap string schema) (names' : list string) : Prop := {
  round_named : po_name p = arg_name arg;
  round_in : po_in p = "path";
  round_annotation :
    exists a, a ∈ endpoint_args /\ arg_name arg = Some (sp_name a) /\
              po_required p = no_default a;
  round_names : Some <$> names ≡ₚ arg_name arg :: (Some <$> names');
  round_shared : forall ty, arg_type arg = Some ty ->
                   po_schema p = Shared ty /\ is_Some (store !! ty);
  round_domain : forall ty, is_Some (store' !! ty) <-> is_Some (store !! ty);
  round_pattern :
    default ∅ (store' !! "regex") !! "pattern" =
    pattern_after (default ∅ (store !! "regex") !! "pattern") arg
}.


(** What the first loop gives for a placeholder, in the store it was
    started with. *)
Definition path_entry (endpoint_args : list sig_param)
    (store : gmap string schema) (arg : path_arg) (p : parameter_obj) : Prop :=
  po_name p = arg_name arg /\ po_in p = "path" /\
  (exists a, a ∈ endpoint_args /\ arg_name arg = Some (sp_name a) /\
             po_required p = no_default a) /\
  (forall ty, arg_type arg = Some ty ->
     po_schema p = Shared ty /\ is_Some (store !! ty)).

(** The types that [argspath_schema] knows. *)
Definition argspath_types : list string :=
  ["default"; "string"; "str"; "regex"; "uuid"; "int"; "float"].

(** The placeholders of [two_patterns_route]. *)
Definition two_patterns_args : list path_arg :=
  [{| arg_type := Some "regex"; arg_pattern := Some "[a-z]+"; arg_name := Some "a" |};
   {| arg_type := Some "regex"; arg_pattern := Some "[0-9]+"; arg_name := Some "b" |}].

(** The signature of [def handler(a, b, limit=10, **kwargs)]. *)
Definition sig_a_b_limit_kwargs : list sig_param :=
  sig_a_b ++
  [{| sp_name := "limit"; sp_default := Some (VInt 10); sp_var_keyword := false |};
   {| sp_name := "kwargs"; sp_default := None; sp_var_keyword := true |}].

(** What is listed for [two_patterns_route] and a handler of [a] and
    [b]. *)
Definition listed_a : parameter :=
  {| p_name := Some "a"; p_in := "path";
     p_schema := <["pattern" := VStr "^[0-9]+$"]> {["type" := VStr "string"]};
     p_required := true |}.

Definition listed_b : parameter :=
  {| p_name := Some "b"; p_in := "path";
     p_schema := <["pattern" := VStr "^[0-9]+$"]> {["type" := VStr "string"]};
     p_required := true |}.

(** * Properties *)

(** ** Strings *)

Lemma app_nil_l (s : string) : "" +:+ s = s.
Proof. reflexivity. Qed.

Lemma app_cons (c : ascii) (s t : string) : String c s +:+ t = String c (s +:+ t).
Proof. reflexivity. Qed.

Lemma app_nil_r (s : string) : s +:+ "" = s.
Proof. induction s as [|c s IH]; [reflexivity|]. rewrite app_cons, IH. reflexivity. Qed.

Lemma app_assoc (s t u : string) : (s +:+ t) +:+ u = s +:+ (t +:+ u).
Proof.
  induction s as [|c s IH]; [reflexivity|].
  rewrite !app_cons, IH. reflexivity.
Qed.

Lemma length_app (s t : string) :
  String.length (s +:+ t) = String.length s + String.length t.
Proof.
  induction s as [|c s IH]; [reflexivity|].
  rewrite app_cons. simpl. rewrite IH. reflexivity.
Qed.

(** Appends brought to the form [c1 :: c2 :: ... (s +:+ ...)]. *)
Ltac norm_app := repeat (rewrite app_assoc || rewrite app_cons || rewrite app_nil_l).

Lemma eqb_false_iff (s t : string) : String.eqb s t = false <-> s <> t.
Proof. apply String.eqb_neq. Qed.

Lemma strip_prefix_app (p s : string) : Str.strip_prefix p (p +:+ s) = Some s.
Proof.
  induction p as [|c p IH]; [reflexivity|].
  rewrite app_cons. simpl. rewrite Ascii.eqb_refl. exact IH.
Qed.

(** ** The error monad *)

Lemma bind_Ok {A B} (c : result A) (k : A -> result B) (b : B) :
  c ≫= k = Ok b -> exists a, c = Ok a /\ k a = Ok b.
Proof. destruct c as [a|e]; [eauto|discriminate]. Qed.

(** ** The path normaliser *)

Section Gateway.

Implicit Types (event : gmap string jval) (p : ApigwPath).

Lemma init_fields event p :
  ApigwPath_init event = Ok p ->
  exists st pth res pm,
    _get_apigw_stage event = Ok st /\
    _get_request_path event = Ok pth /\
    as_subject (default (jstr "") (event !! "resource")) = Ok res /\
    (if negb (Py.truthy st) && jtruthy pth
     then pm' ← concat_path (Str.rstrip "/" (Re.sub proxy_pattern "" res)) pth;
          replace_in (default (jstr "") (event !! "path")) pm'
     else Ok "") = Ok pm /\
    p = {| version := default jnone (event !! "version");
           apigw_stage := st; path := pth;
           api_prefix := Str.rstrip "/" (Re.sub proxy_pattern "" res);
           path_mapping := pm |}.
Proof.
  unfold ApigwPath_init. intros H.
  destruct (_get_apigw_stage event) as [st|]; [|discriminate].
  destruct (_get_request_path event) as [pth|]; [|discriminate].
  destruct (as_subject _) as [res|]; [|discriminate].
  cbn [mbind result_bind] in H.
  apply bind_Ok in H as (pm & Hpm & [= <-]).
  exists st, pth, res, pm. repeat split; assumption.
Qed.

(** A detected stage leaves no path mapping. *)
Lemma stage_excludes_mapping event p :
  ApigwPath_init event = Ok p ->
  Py.truthy (apigw_stage p) = true -> path_mapping p = "".
Proof.
  intros H Hst. destruct (init_fields _ _ H) as (st & pth & res & pm & _ & _ & _ & Hpm & ->).
  cbn in Hst |- *. rewrite Hst in Hpm. cbn in Hpm. congruence.
Qed.

End Gateway.

(** C1. The mount prefix is a three-way branch over the fields of the
    path information of a normalised event: with a non-empty stage other
    than [$default] it is [/] + stage + api-prefix; otherwise, with a
    non-empty path mapping, it is path-mapping + api-prefix; otherwise it
    is the api-prefix alone.  In particular a [$default] stage adds
    nothing: the prefix of such an event is its api-prefix. *)
Theorem prefix_three_way (event : gmap string jval) (p : ApigwPath) :
  ApigwPath_init event = Ok p ->
  (forall stage, apigw_stage p = SStr stage -> stage <> "" -> stage <> "$default" ->
     prefix p = "/" +:+ stage +:+ api_prefix p) /\
  (forall stage, apigw_stage p = SStr stage -> stage = "" \/ stage = "$default" ->
     path_mapping p <> "" -> prefix p = path_mapping p +:+ api_prefix p) /\
  (forall stage, apigw_stage p = SStr stage -> stage = "" \/ stage = "$default" ->
     path_mapping p = "" -> prefix p = api_prefix p) /\
  (apigw_stage p = SStr "$default" -> prefix p = api_prefix p).
Proof.
  intros Hinit. unfold prefix. repeat split.
  - intros stage -> Hne Hdef. cbn [Py.truthy Py.str].
    apply eqb_false_iff in Hne. rewrite Hne. cbn [negb andb].
    rewrite bool_decide_eq_false_2 by congruence. reflexivity.
  - intros stage -> Hst Hpm. apply eqb_false_iff in Hpm. rewrite Hpm.
    destruct Hst as [->| ->]; reflexivity.
  - intros stage -> Hst ->. destruct Hst as [->| ->]; reflexivity.
  - intros Hst. rewrite (stage_excludes_mapping _ _ Hinit) by (rewrite Hst; reflexivity).
    rewrite Hst. reflexivity.
Qed.

Lemma prefix_three_way_witness :
  exists p, ApigwPath_init ev_default_stage = Ok p /\ prefix p = api_prefix p.
Proof.
  eexists. split; [vm_compute; reflexivity|].
  apply (prefix_three_way ev_default_stage); vm_compute; reflexivity.
Defined.

(** The wording of C2 with "first occurrence" fails: with a base path
    equal to the first segment of the logical path, both occurrences are
    removed. *)
Lemma path_mapping_first_occurrence_fails : ~ path_mapping_first_occurrence.
Proof.
  intros H.
  destruct (ApigwPath_init ev_repeated_segment) as [p|] eqn:Hp; [|discriminate Hp].
  specialize (H ev_repeated_segment p "/a/a" "/a" Hp).
  vm_compute in Hp. injection Hp as <-.
  discriminate H; first [reflexivity | discriminate].
Qed.

(** C2 (amended). With no detected stage and a resolved logical path,
    the path mapping is the raw path with every non-overlapping
    occurrence of api-prefix + logical-path removed, scanning from the
    left; with a detected stage the path mapping is empty. *)
Theorem path_mapping_all_occurrences (event : gmap string jval) (p : ApigwPath) :
  ApigwPath_init event = Ok p ->
  (forall raw lp,
     Py.truthy (apigw_stage p) = false ->
     path p = jstr lp -> lp <> "" ->
     event !! "path" = Some (jstr raw) ->
     path_mapping p = Str.replace raw (api_prefix p +:+ lp) "") /\
  (Py.truthy (apigw_stage p) = true -> path_mapping p = "").
Proof.
  intros Hinit. split; [|apply (stage_excludes_mapping _ _ Hinit)].
  intros raw lp Hst Hpath Hlp Hraw.
  destruct (init_fields _ _ Hinit) as (st & pth & res & pm & _ & _ & _ & Hpm & ->).
  cbn in Hst, Hpath |- *. subst pth. rewrite Hst, Hraw in Hpm.
  cbn in Hpm. apply eqb_false_iff in Hlp. rewrite Hlp in Hpm. cbn in Hpm.
  congruence.
Qed.

Lemma path_mapping_all_occurrences_witness :
  exists p, ApigwPath_init ev_base_path = Ok p /\ path_mapping p = "/prefix".
Proof.
  eexists. split; [vm_compute; reflexivity|].
  refine (eq_trans
    (proj1 (path_mapping_all_occurrences ev_base_path _ eq_refl)
       "/prefix/api/test/1234/pix" "/test/1234/pix" eq_refl eq_refl _ eq_refl) _).
  - discriminate.
  - vm_compute. reflexivity.
Defined.

(** ** The matcher *)

Section Matcher.

Import Re.

Lemma eqb_succ_false (n : nat) : Nat.eqb (S n) n = false.
Proof. apply Nat.eqb_neq. lia. Qed.

(** A greedy repetition of a one-character test is [greedy]. *)
Lemma rep_loop_one_char mr P lo hi k s :
  (forall pos s cs k, mr pos s cs k = one_char P pos s cs k) ->
  forall fuel cnt pos cs,
    String.length s < fuel ->
    rep_loop mr lo hi k fuel cnt pos s cs = greedy P lo hi k cnt pos s cs.
Proof.
  intros Hr.
  induction s as [|c s IH]; intros fuel cnt pos cs Hfuel;
    (destruct fuel as [|fuel]; [simpl in Hfuel; lia|]);
    cbn [rep_loop greedy]; rewrite Hr; cbn [one_char].
  - destruct (match hi with Some h => Nat.ltb cnt h | None => true end); reflexivity.
  - destruct (match hi with Some h => Nat.ltb cnt h | None => true end); [|reflexivity].
    cbn [andb]. destruct (P c); [|reflexivity].
    rewrite eqb_succ_false, andb_false_r.
    rewrite IH by (simpl in Hfuel; lia). reflexivity.
Qed.

Lemma take_app_length (a b : string) : Str.take (String.length a) (a +:+ b) = a.
Proof.
  induction a as [|c a IH]; [destruct b; reflexivity|].
  rewrite app_cons. simpl. rewrite IH. reflexivity.
Qed.

(** A run of characters that pass the test is consumed when the
    repetition succeeds behind it. *)
Lemma greedy_skip P lo k a :
  Str.all P a = true ->
  forall b cnt pos cs r,
    greedy P lo None k (cnt + String.length a) (pos + String.length a) b cs = Some r ->
    greedy P lo None k cnt pos (a +:+ b) cs = Some r.
Proof.
  induction a as [|c a IH]; intros Hall b cnt pos cs r H.
  - simpl in H. rewrite !Nat.add_0_r in H. exact H.
  - simpl in Hall. apply andb_true_iff in Hall as [Hc Ha].
    rewrite app_cons. cbn [greedy]. rewrite Hc. cbn [andb].
    rewrite (IH Ha b (S cnt) (S pos) cs r); [reflexivity|].
    simpl in H. rewrite <- !Nat.add_succ_comm in H. exact H.
Qed.

Lemma search_from_hit p pos s mt :
  match_at p pos s = Some mt -> search_from p pos s = Some mt.
Proof. intros H. destruct s; simpl; rewrite H; reflexivity. Qed.

(** *** [proxy_pattern] on a resource that ends in a greedy placeholder *)

Lemma proxy_match_here pos name :
  name <> "" -> Str.all not_newline name = true ->
  match_at proxy_pattern pos ("/{" +:+ name +:+ "+}") =
  Some {| m_start := pos; m_end := pos + String.length name + 4;
          m_text := "/{" +:+ name +:+ "+}";
          m_caps := [Some name]; m_names := [("name", 0)] |}.
Proof.
  intros Hne Hnl. unfold match_at.
  assert (m (p_re proxy_pattern) pos ("/{" +:+ name +:+ "+}")
            (replicate (p_groups proxy_pattern) None) (fun e _ cs => Some (e, cs))
          = Some (pos + String.length name + 4, [Some name])) as ->.
  { rewrite !app_cons, app_nil_l.
    unfold proxy_pattern. cbn [p_re p_groups replicate m one_char].
    cbn [Ascii.eqb Bool.eqb]. cbn [m].
    rewrite rep_loop_one_char with (P := not_newline) by (reflexivity || lia).
    apply greedy_skip; [exact Hnl|].
    destruct name as [|c name]; [congruence|].
    cbn [greedy String.length Nat.add Nat.leb one_char not_newline Ascii.eqb
         Bool.eqb newline negb andb or_else].
    replace (S (S (pos + S (String.length name))) - S (S pos))
      with (String.length (String c name)) by (simpl; lia).
    rewrite take_app_length. f_equal. f_equal. lia. }
  f_equal. f_equal.
  replace (pos + String.length name + 4 - pos)
    with (String.length ("/{" +:+ name +:+ "+}"))
    by (rewrite !length_app; simpl; lia).
  rewrite <- (app_nil_r ("/{" +:+ name +:+ "+}")) at 2.
  apply take_app_length.
Qed.

Lemma proxy_no_match_before pos c s :
  (Ascii.eqb c "/" = false \/
   exists d s', s = String d s' /\ Ascii.eqb d "{" = false) ->
  match_at proxy_pattern pos (String c s) = None.
Proof.
  intros H. unfold match_at, proxy_pattern. cbn [p_re m one_char].
  rewrite Ascii.eqb_sym.
  destruct H as [->|(d & s' & -> & Hd)]; [reflexivity|].
  destruct (Ascii.eqb c "/"); [|reflexivity].
  cbn [one_char]. rewrite Ascii.eqb_sym, Hd. reflexivity.
Qed.

Lemma proxy_search_from pre name :
  Str.mem "{" pre = false ->
  name <> "" -> Str.all not_newline name = true ->
  forall pos,
    search_from proxy_pattern pos (pre +:+ "/{" +:+ name +:+ "+}") =
    match_at proxy_pattern (pos + String.length pre) ("/{" +:+ name +:+ "+}").
Proof.
  intros Hpre Hne Hnl.
  induction pre as [|c pre IH]; intros pos.
  - rewrite app_nil_l. simpl String.length. rewrite Nat.add_0_r.
    rewrite proxy_match_here by assumption.
    apply search_from_hit, proxy_match_here; assumption.
  - simpl in Hpre. apply orb_false_iff in Hpre as [Hc Hpre'].
    rewrite app_cons. cbn [search_from].
    rewrite proxy_no_match_before.
    + rewrite IH by assumption. simpl String.length.
      f_equal. lia.
    + right. destruct pre as [|d pre].
      * rewrite app_nil_l. eexists _, _. split; [reflexivity|reflexivity].
      * rewrite app_cons. eexists _, _. split; [reflexivity|].
        simpl in Hpre'. apply orb_false_iff in Hpre' as [Hd _].
        rewrite Ascii.eqb_sym. exact Hd.
Qed.

(** The resource [pre/{name+}] is recognised, and [name] is the
    placeholder read. *)
Lemma proxy_search_shape pre name :
  Str.mem "{" pre = false ->
  name <> "" -> Str.all not_newline name = true ->
  exists mt,
    search proxy_pattern (pre +:+ "/{" +:+ name +:+ "+}") = Some mt /\
    group mt "name" = Some name.
Proof.
  intros Hpre Hne Hnl. unfold search.
  rewrite proxy_search_from, proxy_match_here by assumption.
  eexists. split; reflexivity.
Qed.

End Matcher.

(** C10. For an event whose resource ends in a greedy placeholder
    [/{name+}], the logical path is read from [pathParameters] without a
    test: when that key is absent the resolution raises a key-lookup
    error (and so does the construction of the path information, no
    missing-path answer being given), and when the key is a dict
    without [name] the logical path is the text [/None]. *)
Theorem greedy_resource_reads_path_parameters
    (event : gmap string jval) (pre name : string) :
  Str.mem "{" pre = false ->
  name <> "" -> Str.all not_newline name = true ->
  event !! "resource" = Some (jstr (pre +:+ "/{" +:+ name +:+ "+}")) ->
  (event !! "pathParameters" = None ->
     _get_request_path event = Raise (KeyError "pathParameters") /\
     forall st, _get_apigw_stage event = Ok st ->
       ApigwPath_init event = Raise (KeyError "pathParameters")) /\
  (forall d, event !! "pathParameters" = Some (JDict d) -> d !! name = None ->
     _get_request_path event = Ok (jstr "/None")).
Proof.
  intros Hpre Hne Hnl Hres.
  destruct (proxy_search_shape pre name Hpre Hne Hnl) as (mt & Hmt & Hname).
  assert (forall d, event !! "pathParameters" = d ->
            _get_request_path event =
            (params ← match d with Some v => Ok v | None => Raise (KeyError "pathParameters") end;
             params ← as_dict params;
             Ok (jstr ("/" +:+ Py.str (default SNone (params !! name)))))) as Hpath.
  { intros d Hd. unfold _get_request_path, getitem. rewrite Hres.
    change (as_subject (default (jstr "/") (Some (jstr (pre +:+ "/{" +:+ name +:+ "+}")))))
      with (Ok (pre +:+ "/{" +:+ name +:+ "+}")).
    cbn [mbind result_bind]. rewrite Hmt, Hname, Hd. reflexivity. }
  split.
  - intros Hd. rewrite (Hpath _ Hd). split; [reflexivity|].
    intros st Hst. unfold ApigwPath_init. rewrite Hst, (Hpath _ Hd). reflexivity.
  - intros d Hd Hlk. rewrite (Hpath _ Hd). cbn. rewrite Hlk. reflexivity.
Qed.

Lemma greedy_resource_reads_path_parameters_witness :
  ApigwPath_init ev_no_path_parameters = Raise (KeyError "pathParameters") /\
  _get_request_path ev_other_parameter = Ok (jstr "/None").
Proof.
  assert ("proxy" <> "") as Hne by discriminate.
  split.
  - exact (proj2 (proj1 (greedy_resource_reads_path_parameters
             ev_no_path_parameters "/api" "proxy" eq_refl Hne eq_refl eq_refl) eq_refl)
             (SStr "") eq_refl).
  - exact (proj2 (greedy_resource_reads_path_parameters
             ev_other_parameter "/api" "proxy" eq_refl Hne eq_refl eq_refl)
             {["other" := SStr "test/1234/pix"]} eq_refl eq_refl).
Defined.

(** ** The route table *)

Section RouteTable.

Implicit Types (routes : list RouteEntry) (route : RouteEntry).

Lemma url_matching_cons route routes url method :
  compiles route ->
  _url_matching (route :: routes) (jstr url) (jstr method) =
  if route_matches url method route then Ok (Some route)
  else _url_matching routes (jstr url) (jstr method).
Proof.
  intros [expr Hexpr]. unfold jstr. cbn [_url_matching].
  unfold re_compile, route_matches.
  rewrite Hexpr. cbn [mbind result_bind method_in].
  destruct (bool_decide (method ∈ methods route)); [|reflexivity].
  cbn [as_subject mbind result_bind andb].
  destruct (Re.match_ expr url) as [mt|].
  - rewrite bool_decide_eq_true_2 by eauto. reflexivity.
  - rewrite bool_decide_eq_false_2 by (intros [? ?]; discriminate). reflexivity.
Qed.

Lemma route_matches_compiles url method route :
  route_matches url method route = true -> compiles route.
Proof.
  unfold route_matches, compiles. intros H.
  apply andb_true_iff in H as [_ H].
  destruct (Re.compile (route_regex route)); [eauto|discriminate].
Qed.

Lemma url_matching_first routes1 route routes2 url method :
  Forall compiles routes1 ->
  Forall (fun r => route_matches url method r = false) routes1 ->
  route_matches url method route = true ->
  _url_matching (routes1 ++ route :: routes2) (jstr url) (jstr method) = Ok (Some route).
Proof.
  intros Hc Hn Hm. induction routes1 as [|r routes1 IH]; cbn [app].
  - rewrite url_matching_cons by (eapply route_matches_compiles; eauto).
    rewrite Hm. reflexivity.
  - inversion Hc; inversion Hn; subst.
    rewrite url_matching_cons by assumption.
    rewrite H5. apply IH; assumption.
Qed.

Lemma url_matching_none routes url method :
  Forall compiles routes ->
  Forall (fun r => route_matches url method r = false) routes ->
  _url_matching routes (jstr url) (jstr method) = Ok None.
Proof.
  intros Hc Hn. induction routes as [|r routes IH]; [reflexivity|].
  inversion Hc; inversion Hn; subst.
  rewrite url_matching_cons by assumption. rewrite H5. apply IH; assumption.
Qed.

Lemma url_matching_inv routes url method :
  forall res,
    _url_matching routes (jstr url) (jstr method) = Ok res ->
    match res with
    | Some route =>
        exists routes1 routes2,
          routes = routes1 ++ route :: routes2 /\
          route_matches url method route = true /\
          Forall (fun r => route_matches url method r = false) routes1
    | None => Forall (fun r => route_matches url method r = false) routes
    end.
Proof.
  induction routes as [|r routes IH]; intros res H.
  - injection H as <-. constructor.
  - assert (compiles r) as Hc.
    { cbn [_url_matching] in H. unfold re_compile, compiles in *.
      destruct (Re.compile (route_regex r)); [eauto|discriminate]. }
    rewrite url_matching_cons in H by assumption.
    destruct (route_matches url method r) eqn:Hm.
    + injection H as <-. exists [], routes. repeat split; [assumption|constructor].
    + specialize (IH _ H). destruct res as [route|].
      * destruct IH as (l1 & l2 & -> & Hr & Hl1).
        exists (r :: l1), l2. repeat split; [assumption|]. constructor; assumption.
      * constructor; assumption.
Qed.

End RouteTable.

(** ** What the matcher decides *)

Section Language.

Import Re.

Lemma or_else_Some {A} (x y : option A) :
  is_Some (or_else x y) <-> is_Some x \/ is_Some y.
Proof.
  destruct x as [v|]; cbn [or_else].
  - split; [left; eauto|intros _; eauto].
  - split; [right; assumption|intros [[? [=]]|H]; exact H].
Qed.

Lemma one_char_spec P pos s cs (k : cont) :
  is_Some (one_char P pos s cs k) <->
  exists c s', s = String c s' /\ P c = true /\ is_Some (k (S pos) s' cs).
Proof.
  unfold one_char. destruct s as [|c s'].
  - split; [intros [? [=]]|intros (c & s' & [=] & _)].
  - destruct (P c) eqn:HP.
    + split; [intros H; exists c, s'; auto|].
      intros (c' & s'' & [= <- <-] & _ & H). exact H.
    + split; [intros [? [=]]|].
      intros (c' & s'' & [= <- <-] & HP' & _). congruence.
Qed.

Lemma decides_insensitive L mr k pos s cs cs' :
  decides L mr -> insensitive k ->
  is_Some (mr pos s cs k) <-> is_Some (mr pos s cs' k).
Proof.
  intros Hd Hk. rewrite (Hd pos s cs k Hk), (Hd pos s cs' k Hk).
  split; intros (a & b & ? & ? & H); exists a, b; (split; [assumption|]);
    (split; [assumption|]); eapply Hk, H.
Qed.

Section Repetition.

Context (L : nat -> string -> string -> Prop)
        (mr : nat -> string -> caps -> cont -> option (nat * caps))
        (Hmr : decides L mr)
        (lo : nat) (hi : option nat) (k : cont) (Hk : insensitive k).

Lemma rep_loop_unfold fuel cnt pos s cs :
  rep_loop mr lo hi k fuel cnt pos s cs =
  or_else
    match fuel with
    | 0 => None
    | S fuel' =>
        if match hi with Some h => Nat.ltb cnt h | None => true end
        then mr pos s cs (after_round mr lo hi k fuel' cnt pos)
        else None
    end
    (if Nat.leb lo cnt then k pos s cs else None).
Proof. destruct fuel; reflexivity. Qed.

Lemma rep_loop_insensitive fuel :
  forall cnt pos s cs cs',
    is_Some (rep_loop mr lo hi k fuel cnt pos s cs) <->
    is_Some (rep_loop mr lo hi k fuel cnt pos s cs').
Proof.
  induction fuel as [|fuel IH]; intros cnt pos s cs cs';
    rewrite !rep_loop_unfold, !or_else_Some.
  - assert (is_Some (if Nat.leb lo cnt then k pos s cs else None) <->
            is_Some (if Nat.leb lo cnt then k pos s cs' else None)) as ->
      by (destruct (Nat.leb lo cnt); [apply Hk|reflexivity]).
    reflexivity.
  - assert (insensitive (after_round mr lo hi k fuel cnt pos)) as Hafter.
    { intros p t c c'. unfold after_round.
      destruct (Nat.leb lo cnt && Nat.eqb p pos); [reflexivity|apply IH]. }
    assert (is_Some (if Nat.leb lo cnt then k pos s cs else None) <->
            is_Some (if Nat.leb lo cnt then k pos s cs' else None)) as ->
      by (destruct (Nat.leb lo cnt); [apply Hk|reflexivity]).
    destruct (match hi with Some h => Nat.ltb cnt h | None => true end); [|reflexivity].
    rewrite (decides_insensitive L mr _ pos s cs cs' Hmr Hafter). reflexivity.
Qed.

Lemma after_round_insensitive fuel cnt pos : insensitive (after_round mr lo hi k fuel cnt pos).
Proof.
  intros p t c c'. unfold after_round.
  destruct (Nat.leb lo cnt && Nat.eqb p pos); [reflexivity|apply rep_loop_insensitive].
Qed.

(** A match of the loop is a number of rounds within the bounds. *)
Lemma rep_loop_sound fuel :
  forall cnt pos s cs,
    (forall h, hi = Some h -> cnt <= h) ->
    is_Some (rep_loop mr lo hi k fuel cnt pos s cs) ->
    exists n a b,
      s = a +:+ b /\ iter L n pos a b /\ lo <= cnt + n /\
      (forall h, hi = Some h -> cnt + n <= h) /\
      is_Some (k (pos + String.length a) b cs).
Proof.
  induction fuel as [|fuel IH]; intros cnt pos s cs Hcnt;
    rewrite rep_loop_unfold, or_else_Some.
  - intros [[? [=]]|H].
    destruct (Nat.leb lo cnt) eqn:Hlo; [|destruct H as [? [=]]].
    apply Nat.leb_le in Hlo. exists 0, "", s.
    rewrite app_nil_l, !Nat.add_0_r. cbn [iter]. auto.
  - intros [H|H].
    + destruct (match hi with Some h => Nat.ltb cnt h | None => true end) eqn:Hhi;
        [|destruct H as [? [=]]].
      apply (Hmr pos s cs _ (after_round_insensitive fuel cnt pos)) in H
        as (a1 & b1 & -> & Ha1 & H).
      unfold after_round in H.
      destruct (Nat.leb lo cnt && Nat.eqb _ pos); [destruct H as [? [=]]|].
      apply IH in H as (n & a2 & b & -> & Hiter & Hlo & Hh & Hkk).
      * exists (S n), (a1 +:+ a2), b. rewrite app_assoc. split; [reflexivity|].
        split; [cbn [iter]; exists a1, a2; auto|].
        split; [lia|]. split; [intros h Hh'; specialize (Hh h Hh'); lia|].
        rewrite length_app, Nat.add_assoc. exact Hkk.
      * intros h ->. apply Nat.ltb_lt in Hhi. lia.
    + destruct (Nat.leb lo cnt) eqn:Hlo; [|destruct H as [? [=]]].
      apply Nat.leb_le in Hlo. exists 0, "", s.
      rewrite app_nil_l, !Nat.add_0_r. cbn [iter]. auto.
Qed.

(** A number of rounds within the bounds is found by the loop, given
    fuel for the compulsory rounds and the characters of the text. *)
Lemma rep_loop_complete n :
  forall fuel cnt pos a b cs,
    iter L n pos a b -> lo <= cnt + n ->
    (forall h, hi = Some h -> cnt + n <= h) ->
    (lo - cnt) + String.length a <= fuel ->
    is_Some (k (pos + String.length a) b cs) ->
    is_Some (rep_loop mr lo hi k fuel cnt pos (a +:+ b) cs).
Proof.
  induction n as [|n IH]; intros fuel cnt pos a b cs Hiter Hlo Hhi Hfuel Hkk;
    rewrite rep_loop_unfold, or_else_Some.
  - cbn [iter] in Hiter. subst a. rewrite app_nil_l.
    cbn [String.length] in Hkk. rewrite Nat.add_0_r in Hkk.
    right. rewrite (proj2 (Nat.leb_le lo cnt)) by lia. exact Hkk.
  - cbn [iter] in Hiter. destruct Hiter as (a1 & a2 & -> & Ha1 & Hiter).
    rewrite length_app in Hfuel, Hkk. rewrite Nat.add_assoc in Hkk.
    destruct (Nat.leb lo cnt && Nat.eqb (pos + String.length a1) pos) eqn:Hskip.
    + (* a round that takes nothing, past the compulsory ones: leave it out *)
      apply andb_true_iff in Hskip as [Hle Heq].
      apply Nat.leb_le in Hle. apply Nat.eqb_eq in Heq.
      assert (String.length a1 = 0) as Hz by lia.
      destruct a1; [|discriminate Hz]. rewrite app_nil_l in *.
      cbn [String.length] in *. rewrite Nat.add_0_r in *.
      rewrite <- or_else_Some, <- rep_loop_unfold.
      apply IH; try assumption; try lia.
      intros h Hh. specialize (Hhi h Hh). lia.
    + left. destruct fuel as [|fuel].
      { exfalso. apply andb_false_iff in Hskip as [Hle|Hne].
        - apply Nat.leb_gt in Hle. lia.
        - apply Nat.eqb_neq in Hne. lia. }
      assert (match hi with Some h => Nat.ltb cnt h | None => true end = true) as ->.
      { destruct hi as [h|]; [|reflexivity]. apply Nat.ltb_lt.
        specialize (Hhi h eq_refl). lia. }
      apply (Hmr pos _ cs _ (after_round_insensitive fuel cnt pos)).
      exists a1, (a2 +:+ b). rewrite app_assoc. split; [reflexivity|].
      split; [exact Ha1|]. unfold after_round. rewrite Hskip.
      apply IH; try assumption; try lia.
      * intros h Hh. specialize (Hhi h Hh). lia.
      * apply andb_false_iff in Hskip as [Hle|Hne].
        -- apply Nat.leb_gt in Hle. lia.
        -- apply Nat.eqb_neq in Hne. lia.
Qed.

End Repetition.

(** The matcher finds a match exactly when the expression matches a
    text at the start of the subject after which the rest of the
    pattern goes through. *)
Lemma m_decides r : decides (lang r) (m r).
Proof.
  induction r as [|c| |neg items| | | |r1 IH1 r2 IH2|r1 IH1 r2 IH2|r1 IH1 lo hi|i r1 IH1];
    intros pos s cs k Hk; cbn [m lang].
  - split.
    + intros H. exists "", s. rewrite app_nil_l, Nat.add_0_r. auto.
    + intros (a & b & -> & -> & H). rewrite app_nil_l, Nat.add_0_r in *. exact H.
  - rewrite one_char_spec. split.
    + intros (c' & s' & -> & Hc & H). apply Ascii.eqb_eq in Hc as <-.
      exists (String c ""), s'. rewrite Nat.add_1_r. auto.
    + intros (a & b & -> & -> & H). exists c, b. rewrite Nat.add_1_r in H.
      rewrite Ascii.eqb_refl. auto.
  - rewrite one_char_spec. split.
    + intros (c' & s' & -> & Hc & H). apply negb_true_iff, Ascii.eqb_neq in Hc.
      exists (String c' ""), s'. rewrite Nat.add_1_r. eauto.
    + intros (a & b & -> & (c & -> & Hc) & H). exists c, b. rewrite Nat.add_1_r in H.
      apply Ascii.eqb_neq in Hc. rewrite Hc. auto.
  - rewrite one_char_spec. split.
    + intros (c' & s' & -> & Hc & H).
      exists (String c' ""), s'. rewrite Nat.add_1_r. eauto.
    + intros (a & b & -> & (c & -> & Hc) & H). exists c, b. rewrite Nat.add_1_r in H.
      auto.
  - rewrite one_char_spec. split.
    + intros (c' & s' & -> & Hc & H).
      exists (String c' ""), s'. rewrite Nat.add_1_r. eauto.
    + intros (a & b & -> & (c & -> & Hc) & H). exists c, b. rewrite Nat.add_1_r in H.
      auto.
  - destruct (Nat.eqb_spec pos 0) as [->|Hne].
    + split.
      * intros H. exists "", s. rewrite app_nil_l. auto.
      * intros (a & b & -> & [-> _] & H). rewrite app_nil_l in *. exact H.
    + split; [intros [? [=]]|]. intros (a & b & _ & [_ ?] & _). contradiction.
  - split.
    + intros H. exists "", s. rewrite app_nil_l, Nat.add_0_r.
      destruct s as [|c [|c' s']]; [auto| |destruct H as [? [=]]].
      destruct (Ascii.eqb_spec c newline) as [->|]; [auto|destruct H as [? [=]]].
    + intros (a & b & -> & [-> Hb] & H). rewrite app_nil_l, Nat.add_0_r in *.
      destruct Hb as [->| ->]; [exact H|]. rewrite Ascii.eqb_refl. exact H.
  - assert (insensitive (fun pos' s' cs' => m r2 pos' s' cs' k)) as Hk2.
    { intros p t c c'. apply (decides_insensitive (lang r2) (m r2) k); assumption. }
    rewrite (IH1 pos s cs _ Hk2). split.
    + intros (a1 & b1 & -> & Ha1 & H).
      apply (IH2 _ _ _ _ Hk) in H as (a2 & b & -> & Ha2 & H).
      exists (a1 +:+ a2), b. rewrite app_assoc. split; [reflexivity|].
      split; [exists a1, a2; auto|]. rewrite length_app, Nat.add_assoc. exact H.
    + intros (a & b & -> & (a1 & a2 & -> & Ha1 & Ha2) & H).
      exists a1, (a2 +:+ b). rewrite app_assoc. split; [reflexivity|].
      split; [exact Ha1|]. apply (IH2 _ _ _ _ Hk).
      exists a2, b. rewrite length_app, Nat.add_assoc in H. auto.
  - rewrite or_else_Some, (IH1 pos s cs k Hk), (IH2 pos s cs k Hk). split.
    + intros [(a & b & ? & ? & ?)|(a & b & ? & ? & ?)]; exists a, b; auto.
    + intros (a & b & ? & [?|?] & ?); [left|right]; exists a, b; auto.
  - split.
    + intros H. apply (rep_loop_sound (lang r1) (m r1) IH1 lo hi k Hk) in H
        as (n & a & b & -> & Hiter & Hlo & Hh & H); [|intros; lia].
      exists a, b. split; [reflexivity|]. split; [|exact H].
      exists n. auto.
    + intros (a & b & -> & (n & Hlo & Hh & Hiter) & H).
      apply (rep_loop_complete (lang r1) (m r1) IH1 lo hi k Hk n); try assumption.
      * rewrite length_app. lia.
  - assert (insensitive (fun pos' s' cs' =>
              k pos' s' (<[i := Some (Str.take (pos' - pos) s)]> cs'))) as Hk1
      by (intros p t c c'; apply Hk).
    rewrite (IH1 pos s cs _ Hk1). split.
    + intros (a & b & ? & ? & H). exists a, b. split; [assumption|].
      split; [assumption|]. eapply Hk, H.
    + intros (a & b & ? & ? & H). exists a, b. split; [assumption|].
      split; [assumption|]. eapply Hk, H.
Qed.

(** [expr.match(url)] answers a match exactly when the expression
    matches the start of the path. *)
Lemma match_matches_start expr url :
  is_Some (match_ expr url) <-> matches_start expr url.
Proof.
  unfold match_, match_at, matches_start.
  assert (insensitive (fun e (_ : string) cs => Some (e, cs))) as Hk
    by (intros p t c c'; split; eauto).
  pose proof (m_decides (p_re expr) 0 url (replicate (p_groups expr) None) _ Hk) as Hm.
  split.
  - intros H.
    assert (is_Some (m (p_re expr) 0 url (replicate (p_groups expr) None)
                       (fun e (_ : string) cs => Some (e, cs)))) as H'
      by (destruct (m (p_re expr) 0 url _ _) as [[e cs]|];
          [eauto|destruct H as [? [=]]]).
    apply Hm in H' as (a & b & ? & ? & _). exists a, b. auto.
  - intros (a & b & Hs & Hl).
    destruct (proj2 Hm) as [[e cs] E]; [exists a, b; eauto|].
    rewrite E. eauto.
Qed.

Lemma route_matches_accepts url method route :
  route_matches url method route = true <-> accepts url method route.
Proof.
  unfold route_matches, accepts. rewrite andb_true_iff, bool_decide_eq_true.
  destruct (Re.compile (route_regex route)) as [expr|].
  - rewrite bool_decide_eq_true, match_matches_start. split.
    + intros [? ?]. eauto.
    + intros [? (e & [= <-] & ?)]. auto.
  - split; [intros [_ [=]]|intros [_ (e & [=] & _)]].
Qed.

Lemma route_matches_rejects url method route :
  route_matches url method route = false <-> ~ accepts url method route.
Proof.
  rewrite <- route_matches_accepts. destruct (route_matches url method route).
  - split; [discriminate|intros H; contradiction H; reflexivity].
  - split; [discriminate|reflexivity].
Qed.

(** An expression that ends in [$] leaves nothing of the subject, or
    the line break that ends it. *)
Lemma ends_anchored_rest r :
  ends_anchored r -> forall pos a rest, lang r pos a rest -> at_end rest.
Proof.
  induction r; cbn [ends_anchored lang]; try contradiction.
  - intros _ pos a rest [_ H]. exact H.
  - intros H pos a rest (a1 & a2 & _ & _ & H2). eapply IHr2; eauto.
  - intros H pos a rest Hl. eapply IHr; eauto.
Qed.

End Language.

Lemma iter_set_all neg items n :
  forall pos a rest,
    iter (lang (Re.RSet neg items)) n pos a rest ->
    Str.all (Re.in_set neg items) a = true.
Proof.
  induction n as [|n IH]; intros pos a rest; cbn [iter].
  - intros ->. reflexivity.
  - intros (a1 & a2 & -> & (c & -> & Hc) & Hiter).
    cbn [lang] in *. rewrite app_cons, app_nil_l. cbn [Str.all].
    rewrite Hc. exact (IH _ _ _ Hiter).
Qed.

(** C3. Lookup is first-match-wins in registration order: it answers
    the earliest route whose method set holds the method and whose
    expression matches the start of the path, and nothing when there
    is no such route; a later route that matches too is never
    preferred.  A route whose expression matches the whole path is
    among those; and an expression that ends in [$] matches the path
    up to its end or up to a line break that ends it, so the match is
    not always of the whole path: the route of [/<int:num>] accepts
    [/12] followed by a line break, which its expression does not
    match as a whole. *)
Theorem url_matching_first_match (routes : list RouteEntry) (url method : string) :
  Forall compiles routes ->
  (forall route,
     _url_matching routes (jstr url) (jstr method) = Ok (Some route) <->
     exists routes1 routes2,
       routes = routes1 ++ route :: routes2 /\
       accepts url method route /\
       Forall (fun r => ~ accepts url method r) routes1) /\
  (_url_matching routes (jstr url) (jstr method) = Ok None <->
   Forall (fun r => ~ accepts url method r) routes) /\
  (forall routes1 first routes2 second routes3,
     routes = routes1 ++ first :: routes2 ++ second :: routes3 ->
     Forall (fun r => ~ accepts url method r) routes1 ->
     accepts url method first ->
     accepts url method second ->
     _url_matching routes (jstr url) (jstr method) = Ok (Some first)) /\
  (forall route expr,
     Re.compile (route_regex route) = Some expr ->
     (method ∈ methods route -> matches_fully expr url -> accepts url method route) /\
     (ends_anchored (Re.p_re expr) -> accepts url method route ->
      exists a rest, url = a +:+ rest /\ at_end rest /\ lang (Re.p_re expr) 0 a rest)) /\
  (accepts ("/12" +:+ line_break) "GET" int_route /\
   forall expr, Re.compile (route_regex int_route) = Some expr ->
     ends_anchored (Re.p_re expr) /\ ~ matches_fully expr ("/12" +:+ line_break)).
Proof.
  intros Hc.
  assert (forall l, Forall (fun r => ~ accepts url method r) l <->
                    Forall (fun r => route_matches url method r = false) l) as Hrej.
  { intros l. apply Forall_iff. intros r. symmetry. apply route_matches_rejects. }
  split; [|split; [|split; [|split]]].
  - intros route. split.
    + intros H. apply (url_matching_inv routes url method (Some route)) in H
        as (l1 & l2 & -> & Hm & Hn).
      exists l1, l2. split; [reflexivity|].
      split; [apply route_matches_accepts, Hm|apply Hrej, Hn].
    + intros (l1 & l2 & -> & Hm & Hn). apply url_matching_first.
      * apply Forall_app in Hc as [Hc _]. exact Hc.
      * apply Hrej, Hn.
      * apply route_matches_accepts, Hm.
  - split.
    + intros H. apply Hrej. apply (url_matching_inv routes url method None), H.
    + intros H. apply url_matching_none; [assumption|]. apply Hrej, H.
  - intros l1 r1 l2 r2 l3 -> Hn Hm1 _. apply url_matching_first.
    + apply Forall_app in Hc as [Hc _]. exact Hc.
    + apply Hrej, Hn.
    + apply route_matches_accepts, Hm1.
  - intros route expr Hexpr. split.
    + intros Hm Hfull. split; [exact Hm|]. exists expr. split; [exact Hexpr|].
      exists url, "". rewrite app_nil_r. auto.
    + intros Hend [_ (expr' & Hexpr' & a & rest & -> & Hl)].
      rewrite Hexpr in Hexpr'. injection Hexpr' as <-.
      exists a, rest. split; [reflexivity|]. split; [|exact Hl].
      exact (ends_anchored_rest _ Hend _ _ _ Hl).
  - split.
    + apply route_matches_accepts. vm_compute. reflexivity.
    + intros expr Hexpr. vm_compute in Hexpr. injection Hexpr as <-.
      split; [exact I|]. unfold matches_fully. cbn [Re.p_re lang].
      intros (a1 & a2 & E1 & [-> _] & b1 & b2 & -> & -> & c1 & c2 & -> & Hrep & [-> _]).
      destruct Hrep as (n & _ & _ & Hiter).
      apply iter_set_all in Hiter. rewrite app_nil_l, app_nil_r in E1.
      change ("/" +:+ c1) with (String "/" c1) in E1.
      injection E1 as <-. vm_compute in Hiter. discriminate Hiter.
Qed.

Lemma url_matching_first_match_witness :
  (exists first second,
     regex_routes = [first; second] /\
     accepts "/test/1234/pix" "GET" second /\
     _url_matching regex_routes (jstr "/test/1234/pix") (jstr "GET") = Ok (Some first)) /\
  _url_matching [int_route] (jstr ("/12" +:+ line_break)) (jstr "GET") = Ok (Some int_route).
Proof.
  split.
  - eexists _, _. split; [reflexivity|].
    split; [apply route_matches_accepts; vm_compute; reflexivity|].
    assert (Forall compiles regex_routes) as Hc.
    { repeat (constructor; [eexists; vm_compute; reflexivity|]). constructor. }
    refine (proj1 (proj2 (proj2 (url_matching_first_match regex_routes _ _ Hc)))
              [] _ [] _ [] eq_refl _ _ _).
    + constructor.
    + apply route_matches_accepts. vm_compute. reflexivity.
    + apply route_matches_accepts. vm_compute. reflexivity.
  - assert (Forall compiles [int_route]) as Hc.
    { constructor; [eexists; vm_compute; reflexivity|constructor]. }
    refine (proj2 (proj1 (url_matching_first_match [int_route] _ _ Hc) int_route) _).
    exists [], []. split; [reflexivity|].
    split; [apply route_matches_accepts; vm_compute; reflexivity|constructor].
Defined.

(** ** Registration *)

Section Registration.

Implicit Types (routes : list RouteEntry) (route : RouteEntry).






End Registration.





(** ** The value converter *)

Section Converter.

Lemma digit_not_space c : Re.is_digit c = true -> Py.is_space c = false.
Proof.
  unfold Re.is_digit, Py.is_space. intros H.
  apply andb_true_iff in H as [H1 H2].
  apply Nat.leb_le in H1, H2.
  repeat (apply orb_false_iff; split);
    try (apply andb_false_iff; ((left; apply Nat.leb_gt; lia) || (right; apply Nat.leb_gt; lia)));
    apply Nat.eqb_neq; lia.
Qed.

Lemma lstrip_digits s : Str.all Re.is_digit s = true -> Py.lstrip s = s.
Proof.
  destruct s as [|c s]; [reflexivity|]. simpl. intros H.
  apply andb_true_iff in H as [H _]. rewrite (digit_not_space _ H). reflexivity.
Qed.

Lemma rstrip_digits s : Str.all Re.is_digit s = true -> Py.rstrip s = s.
Proof.
  induction s as [|c s IH]; [reflexivity|]. simpl. intros H.
  apply andb_true_iff in H as [Hc Hs]. rewrite (IH Hs).
  destruct s; [|reflexivity]. rewrite (digit_not_space _ Hc). reflexivity.
Qed.

Lemma digitpart_go_digits s :
  Str.all Re.is_digit s = true ->
  forall acc n,
    Py.digitpart_go s acc n = (decimal_value s acc, n + String.length s, "").
Proof.
  induction s as [|c s IH]; intros H acc n.
  - simpl. rewrite Nat.add_0_r. reflexivity.
  - simpl in H. apply andb_true_iff in H as [Hc Hs].
    cbn [Py.digitpart_go decimal_value String.length]. rewrite Hc.
    rewrite (IH Hs). f_equal. f_equal. lia.
Qed.

(** [int()] reads a run of decimal digits as the number it writes, up
    to 4300 digits; a longer run is refused. *)
Lemma int_of_digits s :
  s <> "" -> Str.all Re.is_digit s = true ->
  Py.int (Some s) =
  if Nat.ltb Py.max_str_digits (String.length s)
  then Raise (Py.exceeds_limit (String.length s))
  else Ok (Z.of_N (decimal_value s 0)).
Proof.
  intros Hne Hd. unfold Py.int, Py.int_of_str, Py.strip.
  rewrite (lstrip_digits _ Hd), (rstrip_digits _ Hd).
  destruct s as [|c s]; [congruence|].
  assert (Py.sign (String c s) = (false, String c s)) as ->.
  { simpl in Hd. apply andb_true_iff in Hd as [Hc _].
    unfold Py.sign.
    destruct (Ascii.eqb_spec c "-") as [->|]; [discriminate Hc|].
    destruct (Ascii.eqb_spec c "+") as [->|]; [discriminate Hc|].
    destruct c as [[] [] [] [] [] [] [] []]; try reflexivity; congruence. }
  unfold Py.digitpart.
  pose proof Hd as Hd'. simpl in Hd'. apply andb_true_iff in Hd' as [Hc _]. rewrite Hc.
  rewrite (digitpart_go_digits _ Hd). rewrite Nat.add_0_l.
  destruct (Nat.ltb Py.max_str_digits (String.length (String c s))); reflexivity.
Qed.

Lemma converters_by_type value path_arg :
  _converters value path_arg =
  match descriptor_type path_arg with
  | Some ty =>
      if bool_decide (ty = Some "int") then VInt <$> Py.int value
      else if bool_decide (ty = Some "float") then VFloat <$> Py.float value
      else Ok (of_capture value)
  | None => Ok (of_capture value)
  end.
Proof.
  unfold _converters, descriptor_type.
  destruct (Re.match_ param_pattern path_arg) as [mt|]; [|reflexivity].
  cbn [fmap option_fmap option_map].
  repeat case_bool_decide; reflexivity.
Qed.

End Converter.

(** ** Argument extraction *)

Section Extraction.

Lemma lookup_foldl_insert_notin {K} `{Countable K} {V} (pairs : list (K * V)) :
  forall (d : gmap K V) k,
    k ∉ pairs.*1 ->
    foldl (fun d kv => <[kv.1 := kv.2]> d) d pairs !! k = d !! k.
Proof.
  induction pairs as [|[k0 v0] pairs IH]; intros d k Hk; [reflexivity|].
  cbn [foldl]. cbn in Hk. apply not_elem_of_cons in Hk as [Hne Hk].
  rewrite IH by assumption. apply lookup_insert_ne. intros E. apply Hne. symmetry. exact E.
Qed.

Lemma zip_fst_subset {A B} (l : list A) (l' : list B) x :
  x ∈ (zip_ l l').*1 -> x ∈ l.
Proof.
  revert l'. induction l as [|a l IH]; intros [|b l'] Hx; try (inversion Hx; fail).
  cbn in Hx. apply elem_of_cons in Hx as [->|Hx]; [left|right; eauto].
Qed.

Lemma foldl_insert_zip_lookup {K} `{Countable K} {V} (names : list K) :
  forall (vs : list V) (d : gmap K V) i n v,
    NoDup names -> names !! i = Some n -> vs !! i = Some v ->
    foldl (fun d kv => <[kv.1 := kv.2]> d) d (zip_ names vs) !! n = Some v.
Proof.
  induction names as [|n0 names IH]; intros vs d i n v Hnd Hn Hv; [destruct i; discriminate|].
  destruct vs as [|v0 vs]; [destruct i; discriminate|].
  apply NoDup_cons in Hnd as [Hnotin Hnd]. cbn [zip_ foldl].
  destruct i as [|i].
  - injection Hn as ->. injection Hv as ->.
    rewrite lookup_foldl_insert_notin.
    + apply lookup_insert_eq.
    + intros Hin. apply Hnotin. eapply zip_fst_subset. exact Hin.
  - eapply IH; eassumption.
Qed.

Lemma convert_args_aligned route_args us :
  forall i,
    (forall j u, us !! j = Some u ->
       exists arg, route_args !! (i + j) = Some arg /\ u <> Some arg) ->
    convert_args route_args i us =
    mapM_result (fun ua => _converters ua.1 ua.2) (zip_ us (drop i route_args)).
Proof.
  induction us as [|u us IH]; intros i Hall; [reflexivity|].
  destruct (Hall 0 u eq_refl) as (arg & Harg & Hne).
  rewrite Nat.add_0_r in Harg.
  cbn [convert_args]. rewrite Harg.
  rewrite bool_decide_eq_false_2 by assumption.
  rewrite (drop_S _ _ _ Harg). cbn [zip_ mapM_result fst snd].
  rewrite IH; [reflexivity|].
  intros j u' Hu'. destruct (Hall (S j) u' Hu') as (arg' & Harg' & Hne').
  exists arg'. split; [|assumption]. rewrite <- Harg'. f_equal. lia.
Qed.

Lemma matching_args_unfold route url expr mt names :
  Re.compile (route_regex route) = Some expr ->
  Re.match_ expr url = Some mt ->
  mapM_result name_of (route_args_of (r_path route)) = Ok names ->
  _get_matching_args route (jstr url) =
  (args ← convert_args (route_args_of (r_path route)) 0 (Re.groups mt);
   Ok (dict_of (zip_ names args))).
Proof.
  intros Hc Hm Hn. unfold _get_matching_args, re_compile, jstr.
  rewrite Hc. cbn [mbind result_bind as_subject]. rewrite Hm.
  cbn [groupdict_of mbind result_bind]. rewrite Hn. reflexivity.
Qed.

End Extraction.

(** The wording of C5 fails where a capture is skipped: the names are
    paired with the captures that remain, so the value of the second
    placeholder is bound to the name of the first. *)
Lemma extraction_as_specified_fails : ~ extraction_as_specified.
Proof.
  intros H.
  destruct (Re.compile (route_regex self_capture_route)) as [expr|] eqn:Hc;
    [|discriminate Hc].
  destruct (Re.match_ expr "/<regex(.+):x>/foo") as [mt|] eqn:Hm;
    [|vm_compute in Hc; injection Hc as <-; discriminate Hm].
  specialize (H self_capture_route "/<regex(.+):x>/foo" expr mt
                [Some "x"; Some "y"] Hc Hm eq_refl).
  vm_compute in Hc. injection Hc as <-.
  vm_compute in Hm. injection Hm as <-.
  apply (f_equal (fun c => match c with
                           | Ok d => d !! Some "x"
                           | Raise _ => None
                           end)) in H.
  vm_compute in H. discriminate H.
Qed.

(** The route of [test_routeRegexFailing]: three groups for two
    placeholders, and the extraction raises. *)
Example extraction_nested_group :
  _get_matching_args nested_group_route (jstr "/test/user1234/rugby") = Raise IndexError.
Proof. vm_compute. reflexivity. Qed.

(** C5 (amended). Argument extraction matches the path again, reads the
    placeholders of the template from left to right and converts every
    captured group with the descriptor at its position; when the
    expression has no more groups than the template has placeholders and
    no captured text equals its own placeholder text, the answer binds
    the name at every position to the converted capture at that position
    (a conversion that raises is propagated).  In particular
    [/test/<string:user>/<name>] on [/test/remote/pixel] yields exactly
    [{user: "remote", name: "pixel"}]. *)
Theorem matching_args_aligned (route : RouteEntry) (url : string)
    (expr : Re.pattern) (mt : Re.mtch) (names : list (option string)) :
  Re.compile (route_regex route) = Some expr ->
  Re.match_ expr url = Some mt ->
  mapM_result name_of (route_args_of (r_path route)) = Ok names ->
  length (Re.groups mt) <= length (route_args_of (r_path route)) ->
  (forall i u arg, Re.groups mt !! i = Some u ->
     route_args_of (r_path route) !! i = Some arg -> u <> Some arg) ->
  _get_matching_args route (jstr url) =
    (vs ← mapM_result (fun ua => _converters ua.1 ua.2)
            (zip_ (Re.groups mt) (route_args_of (r_path route)));
     Ok (dict_of (zip_ names vs))) /\
  (forall vs,
     mapM_result (fun ua => _converters ua.1 ua.2)
       (zip_ (Re.groups mt) (route_args_of (r_path route))) = Ok vs ->
     NoDup names ->
     exists d, _get_matching_args route (jstr url) = Ok d /\
       forall i n v, names !! i = Some n -> vs !! i = Some v -> d !! n = Some v) /\
  _get_matching_args scenario_route (jstr "/test/remote/pixel") =
    Ok (dict_of [(Some "user", VStr "remote"); (Some "name", VStr "pixel")]).
Proof.
  intros Hc Hm Hn Hlen Hskip.
  assert (_get_matching_args route (jstr url) =
          (vs ← mapM_result (fun ua => _converters ua.1 ua.2)
                  (zip_ (Re.groups mt) (route_args_of (r_path route)));
           Ok (dict_of (zip_ names vs)))) as Heq.
  { rewrite (matching_args_unfold _ _ _ _ _ Hc Hm Hn).
    rewrite convert_args_aligned; [rewrite drop_0; reflexivity|].
    intros j u Hu. cbn [Nat.add].
    destruct (route_args_of (r_path route) !! j) as [arg|] eqn:Harg.
    - exists arg. split; [reflexivity|]. eapply Hskip; eassumption.
    - apply lookup_ge_None in Harg. apply lookup_lt_Some in Hu. lia. }
  split; [exact Heq|]. split.
  - intros vs Hvs Hnd. rewrite Heq, Hvs. cbn [mbind result_bind].
    eexists. split; [reflexivity|].
    intros i n v Hi Hv. unfold dict_of. eapply foldl_insert_zip_lookup; eassumption.
  - vm_compute. reflexivity.
Qed.

Lemma matching_args_aligned_witness :
  exists d, _get_matching_args scenario_route (jstr "/test/remote/pixel") = Ok d /\
    d !! Some "user" = Some (VStr "remote") /\
    d !! Some "name" = Some (VStr "pixel").
Proof.
  destruct (Re.compile (route_regex scenario_route)) as [expr|] eqn:Hc;
    [|discriminate Hc].
  destruct (Re.match_ expr "/test/remote/pixel") as [mt|] eqn:Hm;
    [|vm_compute in Hc; injection Hc as <-; discriminate Hm].
  pose proof Hc as Hc'. vm_compute in Hc'. injection Hc' as <-.
  pose proof Hm as Hm'. vm_compute in Hm'. injection Hm' as <-.
  destruct (matching_args_aligned scenario_route "/test/remote/pixel" _ _
              [Some "user"; Some "name"] Hc Hm eq_refl) as (_ & Hall & _).
  - vm_compute. lia.
  - intros i u arg Hu Harg.
    destruct i as [|[|i]]; vm_compute in Hu, Harg; [| |discriminate Hu]; congruence.
  - destruct (Hall [VStr "remote"; VStr "pixel"] eq_refl) as (d & Hd & Hlookup).
    + apply (bool_decide_unpack _). vm_compute. exact I.
    + exists d. split; [exact Hd|]. split.
      * exact (Hlookup 0 _ _ eq_refl eq_refl).
      * exact (Hlookup 1 _ _ eq_refl eq_refl).
Defined.

(** ** The dispatcher *)

Section Dispatch.

Context (Message : Type)
        (response : Response -> option (RouteEntry * scalar) -> result Message)
        (json_dumps : string -> string -> string)
        (exn_str : exn -> string)
        (env_token : option string)
        (b64decode : jval -> result string)
        (repr_dict : gmap string scalar -> string).


(** What is left of [__call__] once argument extraction is reached. *)
Lemma call_at_extraction routes event headers request_path http_method route request_params :
  reaches_extraction env_token routes event headers request_path http_method
                     route request_params ->
  __call__ Message response json_dumps exn_str env_token b64decode repr_dict routes event =
  (function_kwargs ← _get_matching_args route (path request_path);
   function_kwargs ← with_body b64decode (<["headers" := JDict (lower_keys headers)]> event)
                       http_method
                       (update_with (delete "access_token" request_params) function_kwargs);
   response (guarded json_dumps exn_str (call_endpoint (endpoint route) function_kwargs))
            (Some (route, default (SStr "") (lower_keys headers !! "accept-encoding")))).
Proof.
  intros [Hh Hp Hr Hm Hroute Hq Htok]. unfold __call__.
  rewrite Hh. cbn [mbind result_bind]. rewrite Hp. cbn [mbind result_bind].
  rewrite Hr. unfold getitem.
  rewrite !lookup_insert_ne by discriminate. rewrite Hm. cbn [mbind result_bind].
  rewrite Hroute. cbn [mbind result_bind].
  rewrite Hq. cbn [mbind result_bind].
  rewrite Htok. reflexivity.
Qed.

End Dispatch.

(** The wording of C8 fails: on [/1a2] the route [/<float:num>] matches,
    [float("1a2")] raises, and the call raises with it. *)
Lemma conversion_failure_answered_fails : ~ conversion_failure_answered.
Proof.
  intros H.
  destruct (H Response (fun r _ => Ok r) (fun _ v => v) (fun _ => "") None
              (fun _ => Ok "") (fun _ => "")
              [float_route] ev_float_letter ∅ float_letter_path (jstr "GET")
              float_route ∅
              (ValueError "could not convert string to float")) as [msg Hmsg].
  - intros r o. exists r. reflexivity.
  - constructor; vm_compute; reflexivity.
  - vm_compute. reflexivity.
  - vm_compute in Hmsg. discriminate Hmsg.
Qed.

(** C8 (amended). A failure of a value conversion is not caught by the
    dispatcher: when a dispatch reaches argument extraction and the
    extraction raises, [__call__] raises the same exception, whatever
    the response builder is, and no response is built. *)
Theorem conversion_failure_propagates
    (Message : Type)
    (response : Response -> option (RouteEntry * scalar) -> result Message)
    (json_dumps : string -> string -> string) (exn_str : exn -> string)
    (env_token : option string) (b64decode : jval -> result string)
    (repr_dict : gmap string scalar -> string)
    (routes : list RouteEntry) (event : gmap string jval)
    (headers : gmap string scalar) (request_path : ApigwPath) (http_method : jval)
    (route : RouteEntry) (request_params : gmap string scalar) :
  reaches_extraction env_token routes event headers request_path http_method
                     route request_params ->
  forall e, _get_matching_args route (path request_path) = Raise e ->
    __call__ Message response json_dumps exn_str env_token b64decode repr_dict
             routes event = Raise e.
Proof.
  intros Hreach e He. rewrite (call_at_extraction _ _ _ _ _ _ _ _ _ _ _ _ _ _ Hreach).
  rewrite He. reflexivity.
Qed.

Lemma conversion_failure_propagates_witness :
  __call__ Response (fun r _ => Ok r) (fun _ v => v) (fun _ => "") None
           (fun _ => Ok "") (fun _ => "") [float_route] ev_float_letter
  = Raise (ValueError "could not convert string to float").
Proof.
  refine (conversion_failure_propagates Response (fun r _ => Ok r) (fun _ v => v)
            (fun _ => "") None (fun _ => Ok "") (fun _ => "")
            [float_route] ev_float_letter ∅ float_letter_path (jstr "GET")
            float_route ∅ _ _ _).
  - constructor; vm_compute; reflexivity.
  - vm_compute. reflexivity.
Defined.

(** ** Scanning a template *)

Section Scanning.

Import Re.

Lemma m_lit l tail pos s cs k :
  m (lit_re l tail) pos s cs k =
  match Str.strip_prefix l s with
  | Some s' => m tail (pos + String.length l) s' cs k
  | None => None
  end.
Proof.
  revert pos s. induction l as [|c l IH]; intros pos s.
  - simpl. rewrite Nat.add_0_r. reflexivity.
  - destruct s as [|b s]; [reflexivity|].
    cbn [lit_re m one_char Str.strip_prefix String.length].
    destruct (Ascii.eqb c b); [|reflexivity].
    rewrite IH. rewrite <- Nat.add_succ_comm. reflexivity.
Qed.

(** A text that is not a prefix of [w] is not a prefix of [w] followed
    by a character it does not hold. *)
Lemma strip_prefix_none_ext l w c rest :
  Str.strip_prefix l w = None -> Str.mem c l = false ->
  Str.strip_prefix l (w +:+ String c rest) = None.
Proof.
  revert w. induction l as [|a l IH]; intros w H Hc; [discriminate|].
  simpl in Hc. apply orb_false_iff in Hc as [Hac Hc].
  destruct w as [|b w].
  - rewrite app_nil_l. simpl. rewrite Hac. reflexivity.
  - rewrite app_cons. simpl in H |- *.
    destruct (Ascii.eqb a b); [|reflexivity]. apply IH; assumption.
Qed.

Lemma strip_prefix_head_ne l c s :
  match l with String a _ => Ascii.eqb a c = false | "" => False end ->
  Str.strip_prefix l (String c s) = None.
Proof. destruct l as [|a l]; [contradiction|]. simpl. intros ->. reflexivity. Qed.

Lemma strip_prefix_cons_same a l s :
  Str.strip_prefix (String a l) (String a s) = Str.strip_prefix l s.
Proof. simpl. rewrite Ascii.eqb_refl. reflexivity. Qed.

Lemma all_cons P c s : Str.all P (String c s) = P c && Str.all P s.
Proof. reflexivity. Qed.

Lemma all_app P a b : Str.all P (a +:+ b) = Str.all P a && Str.all P b.
Proof.
  induction a as [|c a IH]; [reflexivity|].
  rewrite app_cons. simpl. rewrite IH, andb_assoc. reflexivity.
Qed.

Lemma all_impl (P Q : ascii -> bool) s :
  (forall c, P c = true -> Q c = true) -> Str.all P s = true -> Str.all Q s = true.
Proof.
  intros HPQ. induction s as [|c s IH]; [reflexivity|]. simpl. intros H.
  apply andb_true_iff in H as [Hc Hs]. rewrite (HPQ _ Hc), (IH Hs). reflexivity.
Qed.

(** The repetition fails when the rest of the pattern fails at the end
    of the run and at every point of the run. *)
Lemma greedy_none P lo hi k a b :
  (forall cnt pos cs, greedy P lo hi k cnt pos b cs = None) ->
  (forall n, n < String.length a ->
     forall pos cs, k pos (Str.drop n (a +:+ b)) cs = None) ->
  forall cnt pos cs, greedy P lo hi k cnt pos (a +:+ b) cs = None.
Proof.
  induction a as [|c a IH]; intros Hb Hk cnt pos cs.
  - rewrite app_nil_l. apply Hb.
  - rewrite app_cons. cbn [greedy].
    rewrite IH; [| exact Hb | intros n Hn; apply (Hk (S n)); simpl; lia].
    assert (k pos (String c (a +:+ b)) cs = None) as ->
      by (apply (Hk 0); simpl; lia).
    destruct (_ && _); destruct (Nat.leb lo cnt); reflexivity.
Qed.

(** An optional item: the item once, with something consumed, else
    nothing. *)
Lemma rep_loop_optional mr k fuel pos s cs :
  rep_loop mr 0 (Some 1) k (S (S fuel)) 0 pos s cs =
  or_else (mr pos s cs (fun pos' s' cs' =>
             if Nat.eqb pos' pos then None else k pos' s' cs'))
          (k pos s cs).
Proof. reflexivity. Qed.

Lemma regex_param_re :
  p_re regex_param =
  RGroup 0 (lit_re "<regex" (RSeq (RRep (RSet true [IChar ">"]) 0 None) (RChr ">"))).
Proof. reflexivity. Qed.

(** [regex_param] at a position: it reads [<regex], then up to the next
    [>]. *)
Lemma regex_param_miss pos s :
  Str.strip_prefix "<regex" s = None -> match_at regex_param pos s = None.
Proof.
  intros H. unfold match_at. rewrite regex_param_re. cbn [m].
  rewrite m_lit, H. reflexivity.
Qed.

Lemma regex_param_hit pos b rest :
  Str.all not_gt b = true ->
  match_at regex_param pos ("<regex" +:+ b +:+ String ">" rest) =
  Some {| m_start := pos; m_end := pos + String.length ("<regex" +:+ b +:+ ">");
          m_text := "<regex" +:+ b +:+ ">";
          m_caps := [Some ("<regex" +:+ b +:+ ">")]; m_names := [] |}.
Proof.
  intros Hb. unfold match_at. rewrite regex_param_re. cbn [m].
  rewrite m_lit, strip_prefix_app. cbn [m].
  rewrite rep_loop_one_char with (P := not_gt) by (reflexivity || lia).
  assert (forall s, "<regex" +:+ b +:+ String ">" s = ("<regex" +:+ b +:+ ">") +:+ s) as Hassoc.
  { intros s. rewrite !app_assoc. reflexivity. }
  erewrite greedy_skip; [| exact Hb |].
  2:{ cbn [greedy not_gt Ascii.eqb Bool.eqb negb andb or_else Nat.leb m one_char].
      reflexivity. }
  cbn [p_groups regex_param replicate]. f_equal.
  assert (S (pos + String.length "<regex" + String.length b) - pos
          = String.length ("<regex" +:+ b +:+ ">")) as Hlen.
  { rewrite !length_app. simpl. lia. }
  rewrite Hlen, (Hassoc rest), take_app_length.
  f_equal. rewrite !length_app. simpl. lia.
Qed.

(** *** The scan of [finditer] *)

Lemma finditer_go_skip p a :
  forall pos rest,
    finditer_go p pos (a +:+ rest) (String.length a) =
    finditer_go p (pos + String.length a) rest 0.
Proof.
  induction a as [|c a IH]; intros pos rest.
  - rewrite app_nil_l. simpl. rewrite Nat.add_0_r. reflexivity.
  - rewrite app_cons. cbn [String.length finditer_go]. rewrite IH.
    f_equal. lia.
Qed.

Lemma finditer_go_miss p pos c s :
  match_at p pos (String c s) = None ->
  finditer_go p pos (String c s) 0 = finditer_go p (S pos) s 0.
Proof. intros H. cbn [finditer_go]. rewrite H. reflexivity. Qed.

Lemma finditer_go_hit p pos c s mt :
  match_at p pos (String c s) = Some mt ->
  finditer_go p pos (String c s) 0 =
  mt :: finditer_go p (S pos) s (pred (m_end mt - pos)).
Proof. intros H. cbn [finditer_go]. rewrite H. reflexivity. Qed.

Lemma word_char_plain c :
  word_char c = true ->
  not_lt c = true /\ not_gt c = true /\ not_newline c = true /\
  Ascii.eqb c ":" = false /\ Ascii.eqb c ")" = false /\ Ascii.eqb c "(" = false.
Proof.
  destruct c as [[] [] [] [] [] [] [] []]; vm_compute; intros H;
    try discriminate H; repeat split.
Qed.

Lemma word_all (P : ascii -> bool) w :
  (forall c, word_char c = true -> P c = true) ->
  Str.all word_char w = true -> Str.all P w = true.
Proof. apply all_impl. Qed.

Lemma word_not_lt w : Str.all word_char w = true -> Str.all not_lt w = true.
Proof. apply word_all. intros c H. apply (word_char_plain c H). Qed.

Lemma word_not_gt w : Str.all word_char w = true -> Str.all not_gt w = true.
Proof. apply word_all. intros c H. apply (word_char_plain c H). Qed.

(** Text without [<] holds no inline-pattern placeholder. *)
Lemma finditer_no_lt text :
  Str.all not_lt text = true ->
  forall pos rest,
    finditer_go regex_param pos (text +:+ rest) 0 =
    finditer_go regex_param (pos + String.length text) rest 0.
Proof.
  induction text as [|c text IH]; intros H pos rest.
  - rewrite app_nil_l. simpl. rewrite Nat.add_0_r. reflexivity.
  - simpl in H. apply andb_true_iff in H as [Hc Ht].
    rewrite app_cons, finditer_go_miss.
    + rewrite (IH Ht). simpl. f_equal. lia.
    + apply regex_param_miss. apply strip_prefix_head_ne.
      unfold not_lt in Hc. apply negb_true_iff in Hc.
      rewrite Ascii.eqb_sym. exact Hc.
Qed.

Lemma no_angle_not_lt text : Str.all no_angle text = true -> Str.all not_lt text = true.
Proof.
  apply all_impl. intros c H. unfold no_angle in H.
  apply andb_true_iff in H as [H _]. exact H.
Qed.

Lemma no_angle_not_gt text : Str.all no_angle text = true -> Str.all not_gt text = true.
Proof.
  apply all_impl. intros c H.
  destruct c as [[] [] [] [] [] [] [] []]; vm_compute in H |- *; congruence.
Qed.

Lemma all_not_lt_tag w c tail :
  Str.all not_lt w = true -> not_lt c = true -> Str.all not_lt tail = true ->
  Str.all not_lt (w +:+ String c tail) = true.
Proof. intros Hw Hc Ht. rewrite all_app. simpl. rewrite Hw, Hc, Ht. reflexivity. Qed.

(** A placeholder that does not begin with [<regex] is passed over. *)
Lemma finditer_plain_tag w c tail pos rest :
  Str.strip_prefix "regex" w = None -> Str.mem c "regex" = false ->
  Str.all not_lt (w +:+ String c tail) = true ->
  finditer_go regex_param pos (("<" +:+ w +:+ String c tail) +:+ rest) 0 =
  finditer_go regex_param (pos + String.length ("<" +:+ w +:+ String c tail)) rest 0.
Proof.
  intros Hw Hc Hall. norm_app. rewrite finditer_go_miss.
  - rewrite <- app_cons, <- app_assoc, (finditer_no_lt _ Hall).
    f_equal. rewrite !length_app. simpl. rewrite length_app. simpl. lia.
  - apply regex_param_miss.
    change "<regex" with (String "<" "regex"). rewrite strip_prefix_cons_same.
    apply strip_prefix_none_ext; assumption.
Qed.

Lemma render_regex_shape p n :
  render1 (TRegex p n) = "<regex" +:+ ("(" +:+ p +:+ "):" +:+ n) +:+ ">".
Proof. unfold render1. norm_app. reflexivity. Qed.

Lemma regex_body_not_gt p n :
  Str.all not_gt p = true -> Str.all word_char n = true ->
  Str.all not_gt ("(" +:+ p +:+ "):" +:+ n) = true.
Proof.
  intros Hp Hn. norm_app. cbn [Str.all]. rewrite all_app. cbn [Str.all].
  rewrite Hp, (word_not_gt _ Hn). reflexivity.
Qed.

(** An inline-pattern placeholder is found whole. *)
Lemma finditer_regex_tag p n pos rest :
  Str.all not_gt p = true -> Str.all word_char n = true ->
  (fun mt => default "" (mjoin (m_caps mt !! 0))) <$>
    finditer_go regex_param pos (render1 (TRegex p n) +:+ rest) 0 =
  render1 (TRegex p n) ::
  ((fun mt => default "" (mjoin (m_caps mt !! 0))) <$>
    finditer_go regex_param (pos + String.length (render1 (TRegex p n))) rest 0).
Proof.
  intros Hp Hn.
  pose proof (regex_param_hit pos _ rest (regex_body_not_gt p n Hp Hn)) as Hhit.
  rewrite render_regex_shape.
  set (b := "(" +:+ p +:+ "):" +:+ n) in *.
  assert (("<regex" +:+ b +:+ ">") +:+ rest = "<regex" +:+ b +:+ String ">" rest) as Hshape
    by (norm_app; reflexivity).
  rewrite Hshape.
  assert (exists tail, "<regex" +:+ b +:+ String ">" rest = String "<" (tail +:+ rest) /\
            "<regex" +:+ b +:+ ">" = String "<" tail) as (tail & E1 & E2).
  { exists ("regex" +:+ b +:+ ">"). split; norm_app; reflexivity. }
  rewrite E1 in Hhit |- *. rewrite (finditer_go_hit _ _ _ _ _ Hhit).
  rewrite fmap_cons. cbn [m_caps m_end].
  apply (f_equal2 cons); [reflexivity|].
  rewrite E2. simpl String.length.
  replace (pred (pos + S (String.length tail) - pos)) with (String.length tail) by lia.
  rewrite finditer_go_skip. do 2 f_equal. lia.
Qed.

Lemma finditer_end pos : finditer_go regex_param pos "" 0 = [].
Proof. cbn [finditer_go]. rewrite regex_param_miss by reflexivity. reflexivity. Qed.

(** The inline-pattern placeholders found in a template are those of
    its segments, in order. *)
Lemma findall_segments toks :
  Forall wf_token toks ->
  forall pos,
    (fun mt => default "" (mjoin (m_caps mt !! 0))) <$>
      finditer_go regex_param pos (render toks) 0 = regex_texts toks.
Proof.
  induction 1 as [|t toks [Hwf Hpre] _ IH]; intros pos; cbn [render regex_texts].
  - rewrite finditer_end. reflexivity.
  - destruct t as [text|[ty|] name|p n]; cbn [wf_tag no_regex_prefix] in Hwf, Hpre.
    + cbn [render1]. rewrite (finditer_no_lt _ (no_angle_not_lt _ Hwf)). apply IH.
    + destruct Hwf as [[_ Hty] [_ Hname]].
      change (render1 (TParam (Some ty) name)) with ("<" +:+ ty +:+ String ":" (name +:+ ">")).
      rewrite finditer_plain_tag; [apply IH|assumption|reflexivity|].
      apply all_not_lt_tag; [apply word_not_lt; assumption|reflexivity|].
      rewrite all_app, (word_not_lt _ Hname). reflexivity.
    + destruct Hwf as [_ Hname].
      change (render1 (TParam None name)) with ("<" +:+ name +:+ String ">" "").
      rewrite finditer_plain_tag; [apply IH|assumption|reflexivity|].
      apply all_not_lt_tag; [apply word_not_lt; assumption|reflexivity|reflexivity].
    + destruct Hwf as (_ & Hgt & _ & _ & [_ Hname]).
      rewrite finditer_regex_tag by assumption. f_equal. apply IH.
Qed.

(** *** [regex_pattern] on an inline-pattern placeholder *)

Lemma one_char_fail_all P s :
  Str.all (fun c => negb (P c)) s = true ->
  forall n pos cs k, one_char P pos (Str.drop n s) cs k = None.
Proof.
  induction s as [|c s IH]; intros H n pos cs k.
  - destruct n; reflexivity.
  - simpl in H. apply andb_true_iff in H as [Hc Hs].
    destruct n as [|n]; cbn [Str.drop one_char].
    + apply negb_true_iff in Hc. rewrite Hc. reflexivity.
    + apply IH. exact Hs.
Qed.

Lemma drop_all (s : string) : Str.drop (String.length s) s = "".
Proof. induction s; [reflexivity|assumption]. Qed.

Lemma greedy_none_all P lo hi k s :
  (forall n pos cs, k pos (Str.drop n s) cs = None) ->
  forall cnt pos cs, greedy P lo hi k cnt pos s cs = None.
Proof.
  intros Hk cnt pos cs. rewrite <- (app_nil_r s).
  apply greedy_none.
  - intros cnt' pos' cs'. cbn [greedy or_else].
    specialize (Hk (String.length s) pos' cs').
    rewrite drop_all in Hk. rewrite Hk. destruct (Nat.leb lo cnt'); reflexivity.
  - intros n _ pos' cs'. rewrite app_nil_r. apply Hk.
Qed.

Lemma greedy_cons P lo k cnt pos c s cs :
  greedy P lo None k cnt pos (String c s) cs =
  or_else (if P c then greedy P lo None k (S cnt) (S pos) s cs else None)
          (if Nat.leb lo cnt then k pos (String c s) cs else None).
Proof. reflexivity. Qed.

Lemma regex_pattern_match p n :
  p <> "" -> Str.all not_newline p = true -> is_word n ->
  exists e c0 c1,
    m (p_re regex_pattern) 0 (render1 (TRegex p n)) [None; None; None]
      (fun e _ cs => Some (e, cs)) = Some (e, [c0; c1; Some n]).
Proof.
  intros Hp Hnl [Hn Hw].
  destruct p as [|c p]; [congruence|]. destruct n as [|c' n]; [congruence|].
  unfold render1. norm_app.
  unfold regex_pattern. cbn [p_re m one_char Nat.eqb].
  cbn [Ascii.eqb Bool.eqb]. cbn [m one_char].
  rewrite rep_loop_one_char with (P := not_newline) by (reflexivity || lia).
  do 3 eexists. rewrite <- app_cons. apply greedy_skip; [exact Hnl|].
  rewrite greedy_cons.
  change (not_newline ")") with true. cbn iota.
  rewrite greedy_none_all.
  2:{ intros i pos cs.
      apply (one_char_fail_all _ (String ":" (String c' (n +:+ ">")))).
      rewrite <- app_cons, all_cons, all_app.
      rewrite (all_impl word_char _ (String c' n)); [reflexivity| |exact Hw].
      intros a Ha. rewrite Ascii.eqb_sym.
      destruct (word_char_plain a Ha) as (_ & _ & _ & _ & -> & _). reflexivity. }
  cbn [or_else String.length Nat.add Nat.leb one_char Ascii.eqb Bool.eqb].
  rewrite rep_loop_one_char with (P := word_char) by (reflexivity || (simpl; lia)).
  rewrite <- app_cons.
  erewrite greedy_skip; [| exact Hw |].
  2:{ cbn [greedy]. change (word_char ">") with false.
      cbn [andb or_else String.length Nat.add Nat.leb one_char Ascii.eqb Bool.eqb].
      reflexivity. }
  cbn [insert list_insert]. do 4 f_equal.
  match goal with
  | |- context [Str.take (?a - ?b) _] =>
      replace (a - b) with (String.length (String c' n)) by (simpl; lia)
  end.
  rewrite take_app_length. reflexivity.
Qed.

(** The name read from an inline-pattern placeholder is its name. *)
Lemma regex_pattern_search p n :
  p <> "" -> Str.all not_newline p = true -> is_word n ->
  exists mt,
    search regex_pattern (render1 (TRegex p n)) = Some mt /\
    group mt "name" = Some n.
Proof.
  intros Hp Hnl Hn.
  destruct (regex_pattern_match p n Hp Hnl Hn) as (e & c0 & c1 & Hm).
  eexists. split.
  - apply search_from_hit. unfold match_at.
    change (replicate (p_groups regex_pattern) None) with [@None string; None; None].
    rewrite Hm. reflexivity.
  - reflexivity.
Qed.

(** *** The scan of [str.replace] *)

Lemma replace_go_skip old new a :
  forall rest,
    Str.replace_go old new (a +:+ rest) (String.length a) = Str.replace_go old new rest 0.
Proof.
  induction a as [|c a IH]; intros rest; [reflexivity|].
  rewrite app_cons. cbn [String.length Str.replace_go]. apply IH.
Qed.

Lemma replace_go_miss old new c s :
  Str.strip_prefix old (String c s) = None ->
  Str.replace_go old new (String c s) 0 = String c (Str.replace_go old new s 0).
Proof. intros H. cbn [Str.replace_go]. rewrite H. reflexivity. Qed.

Lemma replace_go_hit o old new c s r :
  Str.strip_prefix (String o old) (String c s) = Some r ->
  Str.replace_go (String o old) new (String c s) 0 =
  new +:+ Str.replace_go (String o old) new s (String.length old).
Proof. intros H. cbn [Str.replace_go]. rewrite H. reflexivity. Qed.

(** Text without [<] holds no occurrence of a text that begins with
    [<]. *)
Lemma replace_no_lt old new text :
  Str.all not_lt text = true ->
  forall rest,
    Str.replace_go (String "<" old) new (text +:+ rest) 0 =
    text +:+ Str.replace_go (String "<" old) new rest 0.
Proof.
  induction text as [|c text IH]; intros H rest; [reflexivity|].
  simpl in H. apply andb_true_iff in H as [Hc Ht].
  rewrite !app_cons, replace_go_miss, (IH Ht); [reflexivity|].
  apply strip_prefix_head_ne. unfold not_lt in Hc. apply negb_true_iff in Hc.
  rewrite Ascii.eqb_sym. exact Hc.
Qed.

Lemma strip_prefix_app_none l l' s :
  Str.strip_prefix l s = None -> Str.strip_prefix (l +:+ l') s = None.
Proof.
  revert s. induction l as [|a l IH]; intros s H; [discriminate|].
  rewrite app_cons. destruct s as [|b s]; [reflexivity|]. simpl in H |- *.
  destruct (Ascii.eqb a b); [apply IH; exact H|reflexivity].
Qed.

(** Text that does not hold [<regex], before a character that is not in
    it, holds no occurrence of a text that begins with [<regex]. *)
Lemma replace_clean old new text c :
  Str.contains "<regex" text = false -> Str.mem c "<regex" = false ->
  forall rest,
    Str.replace_go ("<regex" +:+ old) new (text +:+ String c rest) 0 =
    text +:+ Str.replace_go ("<regex" +:+ old) new (String c rest) 0.
Proof.
  intros Hclean Hc. remember ("<regex" +:+ old) as O eqn:HO.
  induction text as [|a text IH]; intros rest; [reflexivity|].
  cbn [Str.contains] in Hclean.
  destruct (Str.strip_prefix "<regex" (String a text)) eqn:E; [discriminate Hclean|].
  rewrite !app_cons, replace_go_miss, (IH Hclean); [reflexivity|].
  subst O. apply strip_prefix_app_none. rewrite <- app_cons.
  apply strip_prefix_none_ext; assumption.
Qed.

(** Two texts that end at their first [>], one a prefix of the other
    followed by anything, are the same text. *)
Lemma not_gt_eqb c : not_gt c = negb (Ascii.eqb c ">").
Proof. destruct c as [[] [] [] [] [] [] [] []]; reflexivity. Qed.

Lemma prefix_gt_unique a :
  forall b rest r,
    Str.all not_gt a = true -> Str.all not_gt b = true ->
    Str.strip_prefix (a +:+ ">") (b +:+ String ">" rest) = Some r -> a = b.
Proof.
  induction a as [|x a IH]; intros b rest r Ha Hb H.
  - destruct b as [|y b]; [reflexivity|]. exfalso.
    rewrite all_cons, not_gt_eqb in Hb. apply andb_true_iff in Hb as [Hy _].
    rewrite app_nil_l, app_cons in H. cbn [Str.strip_prefix] in H.
    rewrite Ascii.eqb_sym in H. destruct (Ascii.eqb y ">"); discriminate.
  - rewrite all_cons, not_gt_eqb in Ha. apply andb_true_iff in Ha as [Hx Ha].
    rewrite app_cons in H. destruct b as [|y b].
    + exfalso. rewrite app_nil_l in H. cbn [Str.strip_prefix] in H.
      destruct (Ascii.eqb x ">"); discriminate.
    + rewrite all_cons in Hb. apply andb_true_iff in Hb as [Hy Hb].
      rewrite app_cons in H. cbn [Str.strip_prefix] in H.
      destruct (Ascii.eqb_spec x y) as [->|]; [|discriminate H].
      f_equal. eapply IH; eassumption.
Qed.

Lemma word_split_unique w1 :
  forall w2 c1 c2 r1 r2,
    Str.all word_char w1 = true -> Str.all word_char w2 = true ->
    word_char c1 = false -> word_char c2 = false ->
    w1 +:+ String c1 r1 = w2 +:+ String c2 r2 -> c1 = c2.
Proof.
  induction w1 as [|x w1 IH]; intros w2 c1 c2 r1 r2 H1 H2 Hc1 Hc2 E.
  - destruct w2 as [|y w2].
    + rewrite !app_nil_l in E. congruence.
    + rewrite app_nil_l, app_cons in E. injection E as -> _.
      rewrite all_cons, Hc1 in H2. discriminate H2.
  - rewrite app_cons in E. rewrite all_cons in H1. apply andb_true_iff in H1 as [Hx H1].
    destruct w2 as [|y w2].
    + rewrite app_nil_l in E. injection E as -> _. congruence.
    + rewrite app_cons in E. injection E as -> E.
      rewrite all_cons in H2. apply andb_true_iff in H2 as [_ H2].
      eapply IH; eassumption.
Qed.

Lemma regex_tag_forms p n :
  render1 (TRegex p n) = String "<" ("regex(" +:+ p +:+ "):" +:+ n +:+ ">") /\
  render1 (TRegex p n) = "<regex" +:+ ("(" +:+ p +:+ "):" +:+ n +:+ ">") /\
  render1 (TRegex p n) = ("<regex(" +:+ p +:+ "):" +:+ n) +:+ ">".
Proof. unfold render1. repeat split; norm_app; reflexivity. Qed.

Lemma regex_tag_not_gt p n :
  Str.all not_gt p = true -> Str.all word_char n = true ->
  Str.all not_gt ("<regex(" +:+ p +:+ "):" +:+ n) = true.
Proof.
  intros Hp Hn. rewrite !all_app, Hp, (word_not_gt _ Hn). reflexivity.
Qed.

(** At the start of a placeholder other than the one looked for, the
    text looked for does not begin. *)
Lemma regex_tag_miss p n b rest :
  Str.all not_gt p = true -> Str.all word_char n = true ->
  Str.all not_gt b = true ->
  b +:+ ">" <> render1 (TRegex p n) ->
  Str.strip_prefix (render1 (TRegex p n)) ((b +:+ ">") +:+ rest) = None.
Proof.
  intros Hp Hn Hb Hne.
  destruct (Str.strip_prefix _ _) as [r|] eqn:E; [exfalso|reflexivity].
  destruct (regex_tag_forms p n) as (_ & _ & F3). rewrite F3 in E, Hne.
  replace ((b +:+ ">") +:+ rest) with (b +:+ String ">" rest) in E
    by (norm_app; reflexivity).
  apply prefix_gt_unique in E; [|apply regex_tag_not_gt; assumption|assumption].
  apply Hne. rewrite E. reflexivity.
Qed.

Lemma param_typed_ne p n ty name :
  Str.all word_char ty = true ->
  ("<" +:+ ty +:+ ":" +:+ name) +:+ ">" <> render1 (TRegex p n).
Proof.
  intros Hty E. unfold render1 in E. revert E. norm_app. intros E.
  injection E as E.
  change (String "r" (String "e" (String "g" (String "e" (String "x" (String "(" (p +:+ String ")" (String ":" (n +:+ ">"))))))))) with ("regex" +:+ String "(" (p +:+ String ")" (String ":" (n +:+ ">")))) in E.
  apply word_split_unique in E; [discriminate E|assumption|reflexivity..].
Qed.

Lemma param_bare_ne p n name :
  Str.all word_char name = true ->
  ("<" +:+ name) +:+ ">" <> render1 (TRegex p n).
Proof.
  intros Hn E. unfold render1 in E. revert E. norm_app. intros E.
  injection E as E.
  change (String "r" (String "e" (String "g" (String "e" (String "x" (String "(" (p +:+ String ")" (String ":" (n +:+ ">"))))))))) with ("regex" +:+ String "(" (p +:+ String ")" (String ":" (n +:+ ">")))) in E.
  apply word_split_unique in E; [discriminate E|assumption|reflexivity..].
Qed.

(** One segment under the replacement of the placeholder text
    [render1 (TRegex p n)] by [new]. *)
Lemma replace_segment p n new t rest :
  wf_tag (TRegex p n) -> wf_tag t ->
  Str.replace_go (render1 (TRegex p n)) new (render1 t +:+ rest) 0 =
  match t with
  | TRegex _ _ =>
      if bool_decide (render1 t = render1 (TRegex p n)) then new else render1 t
  | _ => render1 t
  end +:+ Str.replace_go (render1 (TRegex p n)) new rest 0.
Proof.
  intros (Hp & Hgt & Hnl & Hclean & [_ Hn]) Hwf.
  destruct (regex_tag_forms p n) as (F1 & F2 & F3).
  assert (forall b rest, Str.all not_gt b = true -> b +:+ ">" <> render1 (TRegex p n) ->
            Str.strip_prefix (render1 (TRegex p n)) ((b +:+ ">") +:+ rest) = None) as Hmiss
    by (intros; apply regex_tag_miss; assumption).
  assert (forall p' n', render1 (TRegex p' n') <> render1 (TRegex p n) ->
            ("<regex(" +:+ p' +:+ "):" +:+ n') +:+ ">" <> render1 (TRegex p n)) as Hne3
    by (intros p' n' H; rewrite <- (proj2 (proj2 (regex_tag_forms p' n'))); exact H).
  pose proof (param_typed_ne p n) as Hne1. pose proof (param_bare_ne p n) as Hne2.
  remember (render1 (TRegex p n)) as O eqn:HO.
  destruct t as [text|[ty|] name|p' n']; cbn [wf_tag] in Hwf.
  - cbn [render1]. rewrite F1. apply replace_no_lt, no_angle_not_lt, Hwf.
  - destruct Hwf as [[_ Hty] [_ Hname]].
    assert (render1 (TParam (Some ty) name) = ("<" +:+ ty +:+ ":" +:+ name) +:+ ">") as E
      by (unfold render1; norm_app; reflexivity).
    assert (render1 (TParam (Some ty) name) +:+ rest
            = String "<" ((ty +:+ ":" +:+ name +:+ ">") +:+ rest)) as E'
      by (unfold render1; norm_app; reflexivity).
    rewrite E'. rewrite replace_go_miss.
    + rewrite F1, replace_no_lt; [rewrite <- F1; unfold render1; norm_app; reflexivity|].
      rewrite !all_app, (word_not_lt _ Hty), (word_not_lt _ Hname). reflexivity.
    + rewrite <- E', E. apply Hmiss.
      * rewrite !all_app, (word_not_gt _ Hty), (word_not_gt _ Hname). reflexivity.
      * apply Hne1. exact Hty.
  - destruct Hwf as [_ Hname].
    assert (render1 (TParam None name) = ("<" +:+ name) +:+ ">") as E
      by (unfold render1; norm_app; reflexivity).
    assert (render1 (TParam None name) +:+ rest
            = String "<" ((name +:+ ">") +:+ rest)) as E'
      by (unfold render1; norm_app; reflexivity).
    rewrite E'. rewrite replace_go_miss.
    + rewrite F1, replace_no_lt; [rewrite <- F1; unfold render1; norm_app; reflexivity|].
      rewrite !all_app, (word_not_lt _ Hname). reflexivity.
    + rewrite <- E', E. apply Hmiss.
      * rewrite !all_app, (word_not_gt _ Hname). reflexivity.
      * apply Hne2. exact Hname.
  - destruct Hwf as (Hp' & Hgt' & Hnl' & Hclean' & [_ Hn']).
    case_bool_decide as Heq.
    + rewrite Heq. rewrite F1.
      rewrite (app_cons "<" _ rest).
      erewrite replace_go_hit by (rewrite <- (app_cons "<" _ rest); apply strip_prefix_app).
      rewrite replace_go_skip. reflexivity.
    + destruct (regex_tag_forms p' n') as (G1 & G2 & G3).
      rewrite G1 at 1. rewrite (app_cons "<" _ rest), replace_go_miss.
      * assert (("regex(" +:+ p' +:+ "):" +:+ n' +:+ ">") +:+ rest
                = "regex(" +:+ (p' +:+ String ")" ((":" +:+ n' +:+ ">") +:+ rest))) as ->
          by (norm_app; reflexivity).
        rewrite F1, replace_no_lt by reflexivity. rewrite <- F1.
        rewrite F2, replace_clean by (assumption || reflexivity). rewrite <- F2.
        rewrite <- (app_cons ")" (":" +:+ n' +:+ ">") rest).
        rewrite F1, replace_no_lt; [rewrite <- F1; rewrite G1; norm_app; reflexivity|].
        rewrite all_cons, !all_app, (word_not_lt _ Hn'). reflexivity.
      * rewrite <- (app_cons "<" _ rest), <- G1, G3. apply Hmiss.
        -- apply regex_tag_not_gt; assumption.
        -- apply Hne3. exact Heq.
Qed.

(** Two inline-pattern placeholders with the same text have the same
    name. *)
Lemma regex_tag_name p n p' n' :
  wf_tag (TRegex p n) -> wf_tag (TRegex p' n') ->
  render1 (TRegex p' n') = render1 (TRegex p n) -> n' = n.
Proof.
  intros (Hp & _ & Hnl & _ & Hn) (Hp' & _ & Hnl' & _ & Hn') E.
  destruct (regex_pattern_search p n Hp Hnl Hn) as (mt & Hmt & Hname).
  destruct (regex_pattern_search p' n' Hp' Hnl' Hn') as (mt' & Hmt' & Hname').
  rewrite E, Hmt in Hmt'. injection Hmt' as <-. congruence.
Qed.

(** The normalisation pass for one placeholder text. *)
Lemma replace_segments p n toks :
  wf_tag (TRegex p n) -> Forall wf_tag toks ->
  Str.replace (render toks) (render1 (TRegex p n)) ("<regex:" +:+ n +:+ ">") =
  render (map (normal_in [render1 (TRegex p n)]) toks).
Proof.
  intros Hpn Hall. unfold Str.replace.
  induction Hall as [|t toks Ht _ IH]; cbn [render map].
  - destruct (regex_tag_forms p n) as (-> & _). reflexivity.
  - rewrite (replace_segment p n _ t _ Hpn Ht), IH. f_equal.
    destruct t as [text|ty name|p' n']; try reflexivity.
    cbn [normal_in]. case_bool_decide as E1; case_bool_decide as E2.
    + rewrite (regex_tag_name p n p' n' Hpn Ht E1). cbn [normal render1].
      norm_app. reflexivity.
    + exfalso. apply E2. rewrite E1. left.
    + exfalso. apply E1. apply list_elem_of_singleton in E2. exact E2.
    + reflexivity.
Qed.

Lemma normal_in_wf l t : wf_tag t -> wf_tag (normal_in l t).
Proof.
  destruct t as [text|ty name|p n]; try (intros H; exact H).
  intros H. pose proof H as (_ & _ & _ & _ & Hn). cbn [normal_in]. case_bool_decide.
  - cbn [normal wf_tag]. split; [|exact Hn]. split; [discriminate|reflexivity].
  - exact H.
Qed.

Lemma normal_in_cons x l t :
  normal_in l (normal_in [x] t) = normal_in (x :: l) t.
Proof.
  destruct t as [text|ty name|p n]; try reflexivity.
  cbn [normal_in].
  destruct (bool_decide (render1 (TRegex p n) ∈ [x])) eqn:E1.
  - apply bool_decide_eq_true in E1. apply list_elem_of_singleton in E1.
    rewrite (bool_decide_eq_true_2 (render1 (TRegex p n) ∈ x :: l)) by (rewrite E1; left).
    reflexivity.
  - apply bool_decide_eq_false in E1. cbn [normal_in].
    rewrite (bool_decide_ext (render1 (TRegex p n) ∈ l) (render1 (TRegex p n) ∈ x :: l));
      [reflexivity|].
    split; [intros H; right; exact H|].
    intros H. apply elem_of_cons in H as [H|H]; [|exact H].
    exfalso. apply E1. rewrite H. left.
Qed.

Lemma normal_in_nil t : normal_in [] t = t.
Proof.
  destruct t as [text|ty name|p n]; reflexivity.
Qed.

(** The loop over the inline-pattern placeholders brings every
    placeholder whose text is in the list to its intermediate form. *)
Lemma fold_normalize texts :
  forall cur,
    Forall wf_tag cur ->
    Forall (fun x => exists p n, x = render1 (TRegex p n) /\ wf_tag (TRegex p n)) texts ->
    foldl (regex_step "name" (fun name => "<regex:" +:+ name +:+ ">"))
          (Ok (render cur)) texts =
    Ok (render (map (normal_in texts) cur)).
Proof.
  induction texts as [|x texts IH]; intros cur Hcur Htexts.
  - cbn [foldl]. do 2 f_equal. induction cur as [|t cur IHc]; [reflexivity|].
    cbn [map]. rewrite normal_in_nil. f_equal. apply IHc.
    inversion Hcur; assumption.
  - apply Forall_cons in Htexts as [(p & n & -> & Hpn) Htexts].
    cbn [foldl]. unfold regex_step at 2. cbn [mbind result_bind].
    pose proof Hpn as (Hp & _ & Hnl & _ & Hn).
    destruct (regex_pattern_search p n Hp Hnl Hn) as (mt & -> & Hname).
    cbn [groupdict_of mbind result_bind]. rewrite Hname. cbn [Py.str_opt].
    rewrite (replace_segments p n cur Hpn Hcur).
    rewrite IH; [| |exact Htexts].
    + rewrite map_map. do 2 f_equal. apply map_ext. intros t. apply normal_in_cons.
    + apply Forall_map. eapply Forall_impl; [exact Hcur|].
      intros t Ht. apply normal_in_wf. exact Ht.
Qed.

Lemma regex_texts_wf toks :
  Forall wf_tag toks ->
  Forall (fun x => exists p n, x = render1 (TRegex p n) /\ wf_tag (TRegex p n))
         (regex_texts toks).
Proof.
  induction 1 as [|t toks Ht _ IH]; [constructor|].
  destruct t as [text|ty name|p n]; cbn [regex_texts]; try exact IH.
  constructor; [eauto|exact IH].
Qed.

Lemma normal_in_all l toks :
  (forall p n, TRegex p n ∈ toks -> render1 (TRegex p n) ∈ l) ->
  map (normal_in l) toks = map normal toks.
Proof.
  induction toks as [|t toks IH]; intros H; [reflexivity|].
  cbn [map]. rewrite IH by (intros p n Hin; apply H; right; exact Hin).
  f_equal. destruct t as [text|ty name|p n]; try reflexivity.
  cbn [normal_in]. rewrite bool_decide_eq_true_2; [reflexivity|]. apply H. left.
Qed.

Lemma regex_texts_complete toks p n :
  TRegex p n ∈ toks -> render1 (TRegex p n) ∈ regex_texts toks.
Proof.
  induction toks as [|t toks IH]; intros H; [inversion H|].
  apply elem_of_cons in H as [<-|H].
  - left.
  - destruct t as [text|ty name|p' n']; cbn [regex_texts]; try (apply IH; exact H).
    right. apply IH. exact H.
Qed.

(** *** The rewriting of the brackets *)

Lemma open_typed pos ty rest :
  ty <> "" -> Str.all word_char ty = true ->
  exists mt, match_at open_param pos (String "<" (ty +:+ String ":" rest)) = Some mt /\
    m_end mt = S pos + String.length ty + 1.
Proof.
  intros Hne Hty. unfold match_at, open_param.
  destruct ty as [|c ty]; [congruence|].
  cbn [p_re p_groups replicate m one_char]. 
  change (Ascii.eqb "<" "<") with true. cbn iota.
  rewrite app_cons. cbn [String.length Nat.add].
  rewrite rep_loop_optional. cbn [m].
  rewrite rep_loop_one_char with (P := word_char) by (reflexivity || (simpl; lia)).
  rewrite <- app_cons.
  erewrite greedy_skip; [| exact Hty |].
  2:{ rewrite greedy_cons. change (word_char ":") with false. cbn iota.
      cbn [or_else String.length Nat.add Nat.leb one_char].
      change (Ascii.eqb ":" ":") with true. cbn iota.
      rewrite (proj2 (Nat.eqb_neq _ _)) by lia.
      reflexivity. }
  cbn [or_else]. eexists. split; [reflexivity|]. cbn [m_end]. simpl. lia.
Qed.

Lemma one_char_fail_prefix P a b :
  Str.all (fun c => negb (P c)) a = true ->
  forall n, n < String.length a ->
    forall pos cs k, one_char P pos (Str.drop n (a +:+ b)) cs k = None.
Proof.
  induction a as [|c a IH]; intros H n Hn pos cs k; [simpl in Hn; lia|].
  rewrite all_cons in H. apply andb_true_iff in H as [Hc Ha].
  rewrite app_cons. destruct n as [|n]; cbn [Str.drop one_char].
  - apply negb_true_iff in Hc. rewrite Hc. reflexivity.
  - apply IH; [exact Ha|simpl in Hn; lia].
Qed.

Lemma open_bare pos name rest :
  name <> "" -> Str.all word_char name = true ->
  exists mt, match_at open_param pos (String "<" (name +:+ String ">" rest)) = Some mt /\
    m_end mt = S pos.
Proof.
  intros Hne Hn. unfold match_at, open_param.
  destruct name as [|c name]; [congruence|].
  cbn [p_re p_groups replicate m one_char]. 
  change (Ascii.eqb "<" "<") with true. cbn iota.
  rewrite app_cons. cbn [String.length Nat.add].
  rewrite rep_loop_optional. cbn [m].
  rewrite rep_loop_one_char with (P := word_char) by (reflexivity || (simpl; lia)).
  rewrite <- app_cons.
  rewrite greedy_none.
  - cbn [or_else]. eexists. split; reflexivity.
  - intros cnt pos' cs. rewrite greedy_cons. change (word_char ">") with false.
    cbn iota. cbn [or_else one_char]. change (Ascii.eqb ":" ">") with false.
    cbn iota. destruct (Nat.leb 1 cnt); reflexivity.
  - intros n Hlt pos' cs. cbv beta.
    apply (one_char_fail_prefix (Ascii.eqb ":") (String c name)); [|exact Hlt].
    eapply all_impl; [|exact Hn]. intros a Ha. rewrite Ascii.eqb_sym.
    destruct (word_char_plain a Ha) as (_ & _ & _ & -> & _). reflexivity.
Qed.

Lemma open_miss pos s :
  match s with String c _ => Ascii.eqb c "<" = false | "" => True end ->
  match_at open_param pos s = None.
Proof.
  intros H. unfold match_at, open_param.
  destruct s as [|c s]; [reflexivity|].
  cbn [p_re m one_char]. rewrite Ascii.eqb_sym, H. reflexivity.
Qed.

Lemma sub_go_skip p repl a :
  forall pos rest,
    sub_go p repl pos (a +:+ rest) (String.length a) =
    sub_go p repl (pos + String.length a) rest 0.
Proof.
  induction a as [|c a IH]; intros pos rest.
  - rewrite app_nil_l. simpl. rewrite Nat.add_0_r. reflexivity.
  - rewrite app_cons. cbn [String.length sub_go]. rewrite IH. f_equal. lia.
Qed.

Lemma sub_go_miss p repl pos c s :
  match_at p pos (String c s) = None ->
  sub_go p repl pos (String c s) 0 = String c (sub_go p repl (S pos) s 0).
Proof. intros H. cbn [sub_go]. rewrite H. reflexivity. Qed.

Lemma sub_go_hit p repl pos c s mt :
  match_at p pos (String c s) = Some mt -> m_end mt <> pos ->
  sub_go p repl pos (String c s) 0 =
  repl +:+ sub_go p repl (S pos) s (pred (m_end mt - pos)).
Proof.
  intros H Hne. cbn [sub_go]. rewrite H.
  rewrite (proj2 (Nat.eqb_neq _ _) Hne). reflexivity.
Qed.

Lemma sub_open_no_lt text :
  Str.all not_lt text = true ->
  forall pos rest,
    sub_go open_param "{" pos (text +:+ rest) 0 =
    text +:+ sub_go open_param "{" (pos + String.length text) rest 0.
Proof.
  induction text as [|c text IH]; intros H pos rest.
  - rewrite !app_nil_l. simpl. rewrite Nat.add_0_r. reflexivity.
  - rewrite all_cons in H. apply andb_true_iff in H as [Hc Ht].
    rewrite !app_cons, sub_go_miss.
    + rewrite (IH Ht). cbn [String.length].
      replace (S pos + String.length text) with (pos + S (String.length text)) by lia.
      reflexivity.
    + apply open_miss. unfold not_lt in Hc. apply negb_true_iff in Hc. exact Hc.
Qed.

(** One segment under the rewriting of the opening brackets. *)
Lemma sub_open_segment t pos rest :
  simple t ->
  exists pos',
    sub_go open_param "{" pos (render1 t +:+ rest) 0 =
    opened1 t +:+ sub_go open_param "{" pos' rest 0.
Proof.
  destruct t as [text|[ty|] name|p n]; cbn [simple wf_tag]; intros Hwf.
  - eexists. cbn [render1 opened1].
    rewrite (sub_open_no_lt _ (no_angle_not_lt _ Hwf)). reflexivity.
  - destruct Hwf as [[Hne Hty] [_ Hname]].
    assert (render1 (TParam (Some ty) name) +:+ rest
            = String "<" (ty +:+ String ":" ((name +:+ ">") +:+ rest))) as ->
      by (unfold render1; norm_app; reflexivity).
    destruct (open_typed pos ty ((name +:+ ">") +:+ rest) Hne Hty) as (mt & Hmt & Hend).
    rewrite (sub_go_hit _ _ _ _ _ _ Hmt) by lia.
    rewrite Hend.
    replace (pred (S pos + String.length ty + 1 - pos))
      with (String.length (ty +:+ ":")) by (rewrite length_app; simpl; lia).
    replace (ty +:+ String ":" ((name +:+ ">") +:+ rest))
      with ((ty +:+ ":") +:+ ((name +:+ ">") +:+ rest)) by (norm_app; reflexivity).
    rewrite sub_go_skip, sub_open_no_lt.
    + eexists. cbn [opened1]. norm_app. reflexivity.
    + rewrite all_app, (word_not_lt _ Hname). reflexivity.
  - destruct Hwf as [Hne Hname].
    assert (render1 (TParam None name) +:+ rest
            = String "<" (name +:+ String ">" rest)) as ->
      by (unfold render1; norm_app; reflexivity).
    destruct (open_bare pos name rest Hne Hname) as (mt & Hmt & Hend).
    rewrite (sub_go_hit _ _ _ _ _ _ Hmt) by lia.
    rewrite Hend.
    replace (pred (S pos - pos)) with 0 by lia.
    replace (name +:+ String ">" rest) with ((name +:+ ">") +:+ rest)
      by (norm_app; reflexivity).
    rewrite sub_open_no_lt.
    + eexists. cbn [opened1]. norm_app. reflexivity.
    + rewrite all_app, (word_not_lt _ Hname). reflexivity.
  - contradiction.
Qed.

Lemma sub_open_segments toks :
  Forall simple toks ->
  forall pos, sub_go open_param "{" pos (render toks) 0 = opened toks.
Proof.
  induction 1 as [|t toks Ht _ IH]; intros pos; cbn [render opened].
  - cbn [sub_go]. rewrite open_miss by exact I. reflexivity.
  - destruct (sub_open_segment t pos (render toks) Ht) as [pos' ->].
    rewrite IH. reflexivity.
Qed.

(** The rewriting of the closing brackets, on any text. *)
Lemma sub_close s :
  forall pos, sub_go close_param "}" pos s 0 = map_chars close_char s.
Proof.
  induction s as [|c s IH]; intros pos; [reflexivity|].
  cbn [sub_go map_chars]. unfold match_at, close_param, close_char.
  cbn [p_re p_groups replicate m one_char].
  rewrite Ascii.eqb_sym. destruct (Ascii.eqb c ">").
  - cbn [m_end]. rewrite eqb_succ_false.
    replace (pred (S pos - pos)) with 0 by lia.
    rewrite IH. reflexivity.
  - rewrite IH. reflexivity.
Qed.

Lemma map_chars_app f a b : map_chars f (a +:+ b) = map_chars f a +:+ map_chars f b.
Proof.
  induction a as [|c a IH]; [reflexivity|].
  rewrite app_cons. cbn [map_chars]. rewrite IH. reflexivity.
Qed.

Lemma close_not_gt s : Str.all not_gt s = true -> map_chars close_char s = s.
Proof.
  induction s as [|c s IH]; [reflexivity|]. intros H.
  rewrite all_cons, not_gt_eqb in H. apply andb_true_iff in H as [Hc Hs].
  cbn [map_chars]. unfold close_char at 1. apply negb_true_iff in Hc. rewrite Hc.
  rewrite (IH Hs). reflexivity.
Qed.

Lemma close_opened toks :
  Forall simple toks -> map_chars close_char (opened toks) = doc toks.
Proof.
  induction 1 as [|t toks Ht _ IH]; [reflexivity|].
  cbn [opened doc]. rewrite map_chars_app, IH. f_equal.
  destruct t as [text|ty name|p n]; cbn [simple wf_tag] in Ht.
  - apply close_not_gt, no_angle_not_gt, Ht.
  - cbn [opened1 doc1].
    assert (Str.all word_char name = true) as Hname
      by (destruct ty; [destruct Ht as [_ [_ H]]|destruct Ht as [_ H]]; exact H).
    rewrite !map_chars_app, (close_not_gt _ (word_not_gt _ Hname)). reflexivity.
  - contradiction.
Qed.

Lemma normal_simple toks : Forall wf_tag toks -> Forall simple (map normal toks).
Proof.
  intros H. apply Forall_map. eapply Forall_impl; [exact H|].
  intros t Ht. destruct t as [text|ty name|p n]; try exact Ht.
  destruct Ht as (_ & _ & _ & _ & Hn). cbn [normal simple wf_tag].
  split; [|exact Hn]. split; [discriminate|reflexivity].
Qed.

Lemma doc_normal toks : doc (map normal toks) = doc toks.
Proof.
  induction toks as [|t toks IH]; [reflexivity|].
  cbn [map doc]. rewrite IH. destruct t; reflexivity.
Qed.

End Scanning.

(** ** The placeholders read by the converter *)

Section Placeholders.

Import Re.

Lemma take_sub_length (a b : string) n k :
  n - k = String.length a -> Str.take (n - k) (a +:+ b) = a.
Proof. intros ->. apply take_app_length. Qed.

(** A continuation that fails on every word character fails at every point
    of a word. *)
Lemma word_fail_prefix (k : cont) a b :
  (forall c s pos cs, word_char c = true -> k pos (String c s) cs = None) ->
  Str.all word_char a = true ->
  forall n, n < String.length a ->
    forall pos cs, k pos (Str.drop n (a +:+ b)) cs = None.
Proof.
  intros Hk. induction a as [|c a IH]; intros H n Hn pos cs; [simpl in Hn; lia|].
  rewrite all_cons in H. apply andb_true_iff in H as [Hc Ha].
  rewrite app_cons. destruct n as [|n]; cbn [Str.drop].
  - apply Hk, Hc.
  - apply IH; [exact Ha|simpl in Hn; lia].
Qed.

Lemma param_match_typed ty name :
  is_word ty -> is_word name ->
  exists e c0,
    m (p_re param_pattern) 0 ("<" +:+ ty +:+ ":" +:+ name +:+ ">")
      [None; None; None; None; None] (fun e _ cs => Some (e, cs))
    = Some (e, [c0; Some ty; None; None; Some name]).
Proof.
  intros [Hty Hwty] [Hn Hwn].
  destruct ty as [|t0 ty]; [congruence|]. destruct name as [|n0 name]; [congruence|].
  norm_app. unfold param_pattern. cbn [p_re m one_char Nat.eqb].
  change (Ascii.eqb "<" "<") with true. cbn iota.
  cbn [String.length Nat.add]. rewrite rep_loop_optional. cbn [m].
  rewrite rep_loop_one_char with (P := word_char) by (reflexivity || (simpl; lia)).
  rewrite <- (app_cons t0 ty).
  do 2 eexists.
  erewrite greedy_skip; [| exact Hwty |].
  2:{ rewrite greedy_cons. change (word_char ":") with false. cbn iota.
      cbn [or_else String.length Nat.add Nat.leb].
      rewrite rep_loop_optional. cbn [m one_char].
      change (Ascii.eqb "(" ":") with false. cbn iota. cbn [or_else].
      change (Ascii.eqb ":" ":") with true. cbn iota.
      rewrite (proj2 (Nat.eqb_neq _ _)) by lia.
      rewrite rep_loop_one_char with (P := word_char) by (reflexivity || (simpl; lia)).
      rewrite <- (app_cons n0 name).
      erewrite greedy_skip; [| exact Hwn |].
      2:{ rewrite greedy_cons. change (word_char ">") with false. cbn iota.
          cbn [or_else String.length Nat.add Nat.leb one_char].
          change (Ascii.eqb ">" ">") with true. cbn iota. reflexivity. }
      reflexivity. }
  cbn [or_else insert list_insert].
  rewrite (take_sub_length (String n0 name)) by (simpl; lia).
  rewrite (take_sub_length (String t0 ty) _ (S (S (String.length ty))) 1) by (simpl; lia).
  reflexivity.
Qed.

Lemma param_match_bare name :
  is_word name ->
  exists e,
    m (p_re param_pattern) 0 ("<" +:+ name +:+ ">")
      [None; None; None; None; None] (fun e _ cs => Some (e, cs))
    = Some (e, [None; None; None; None; Some name]).
Proof.
  intros [Hn Hwn].
  destruct name as [|n0 name]; [congruence|].
  norm_app. unfold param_pattern. cbn [p_re m one_char Nat.eqb].
  change (Ascii.eqb "<" "<") with true. cbn iota.
  cbn [String.length Nat.add]. rewrite rep_loop_optional. cbn [m].
  rewrite rep_loop_one_char with (P := word_char) by (reflexivity || (simpl; lia)).
  rewrite rep_loop_one_char with (P := word_char) by (reflexivity || (simpl; lia)).
  rewrite <- (app_cons n0 name).
  eexists.
  rewrite greedy_none.
  - cbn [or_else].
    erewrite greedy_skip; [| exact Hwn |].
    2:{ rewrite greedy_cons. change (word_char ">") with false. cbn iota.
        cbn [or_else String.length Nat.add Nat.leb one_char].
        change (Ascii.eqb ">" ">") with true. cbn iota. reflexivity. }
    cbn [insert list_insert].
    rewrite (take_sub_length (String n0 name)) by (simpl; lia).
    reflexivity.
  - intros cnt pos cs. rewrite greedy_cons. change (word_char ">") with false.
    cbn iota. cbn [or_else String.length Nat.add]. rewrite rep_loop_optional.
    cbn [m one_char]. change (Ascii.eqb "(" ">") with false.
    change (Ascii.eqb ":" ">") with false. cbn iota. cbn [or_else].
    destruct (Nat.leb 1 cnt); reflexivity.
  - intros n Hlt pos cs.
    apply (word_fail_prefix
             (fun pos s cs => rep_loop _ 0 (Some 1) _ (S (0 + String.length s)) 0 pos s cs));
      [|exact Hwn|exact Hlt].
    intros c s pos' cs' Hc. cbn [String.length Nat.add]. rewrite rep_loop_optional.
    cbn [m one_char]. rewrite !(Ascii.eqb_sym _ c).
    destruct (word_char_plain c Hc) as (_ & _ & _ & -> & _ & ->). reflexivity.
Qed.

Lemma param_match_regex p name :
  p <> "" -> Str.all not_newline p = true -> is_word name ->
  exists e c0 c2,
    m (p_re param_pattern) 0 ("<regex(" +:+ p +:+ "):" +:+ name +:+ ">")
      [None; None; None; None; None] (fun e _ cs => Some (e, cs))
    = Some (e, [c0; Some "regex"; c2; Some p; Some name]).
Proof.
  intros Hp Hnl [Hn Hwn].
  destruct p as [|p0 p]; [congruence|]. destruct name as [|n0 name]; [congruence|].
  norm_app. unfold param_pattern. cbn [p_re m one_char Nat.eqb].
  change (Ascii.eqb "<" "<") with true. cbn iota.
  cbn [String.length Nat.add]. rewrite rep_loop_optional. cbn [m].
  rewrite rep_loop_one_char with (P := word_char) by (reflexivity || (simpl; lia)).
  do 3 eexists.
  match goal with
  | |- context [String "r" (String "e" (String "g" (String "e" (String "x" ?rest))))] =>
      change (String "r" (String "e" (String "g" (String "e" (String "x" rest)))))
        with ("regex" +:+ rest)
  end.
  erewrite greedy_skip; [| reflexivity |].
  2:{ rewrite greedy_cons. change (word_char "(") with false. cbn iota.
      cbn [or_else String.length Nat.add Nat.leb].
      rewrite rep_loop_optional. cbn [m one_char].
      change (Ascii.eqb "(" "(") with true. cbn iota.
      rewrite rep_loop_one_char with (P := not_newline) by (reflexivity || (simpl; lia)).
      rewrite <- (app_cons p0 p).
      erewrite greedy_skip; [| exact Hnl |].
      2:{ rewrite greedy_cons. change (not_newline ")") with true. cbn iota.
          rewrite greedy_none_all.
          2:{ intros i pos cs.
              apply (one_char_fail_all _ (String ":" (String n0 (name +:+ ">")))).
              rewrite <- app_cons, all_cons, all_app.
              rewrite (all_impl word_char _ (String n0 name)); [reflexivity| |exact Hwn].
              intros a Ha. rewrite Ascii.eqb_sym.
              destruct (word_char_plain a Ha) as (_ & _ & _ & _ & -> & _). reflexivity. }
          cbn [or_else String.length Nat.add Nat.leb one_char].
          change (Ascii.eqb ")" ")") with true. cbn iota.
          rewrite (proj2 (Nat.eqb_neq _ _)) by lia.
          change (Ascii.eqb ":" ":") with true. cbn iota.
          rewrite (proj2 (Nat.eqb_neq _ _)) by lia.
          rewrite rep_loop_one_char with (P := word_char) by (reflexivity || (simpl; lia)).
          rewrite <- (app_cons n0 name).
          erewrite greedy_skip; [| exact Hwn |].
          2:{ rewrite greedy_cons. change (word_char ">") with false. cbn iota.
              cbn [or_else String.length Nat.add Nat.leb one_char].
              change (Ascii.eqb ">" ">") with true. cbn iota. reflexivity. }
          reflexivity. }
      cbn [or_else]. reflexivity. }
  cbn [or_else insert list_insert].
  rewrite (take_sub_length (String n0 name)) by (simpl; lia).
  rewrite (take_sub_length (String p0 p)) by (simpl; lia).
  reflexivity.
Qed.

(** The type and the name read from a placeholder by [param_pattern]. *)
Lemma descriptor_typed ty name :
  is_word ty -> is_word name ->
  descriptor_type ("<" +:+ ty +:+ ":" +:+ name +:+ ">") = Some (Some ty) /\
  name_of ("<" +:+ ty +:+ ":" +:+ name +:+ ">") = Ok (Some name).
Proof.
  intros Hty Hn. destruct (param_match_typed ty name Hty Hn) as (e & c0 & H).
  unfold descriptor_type, name_of, match_, match_at.
  change (replicate (p_groups param_pattern) None) with [@None string; None; None; None; None].
  rewrite H. split; reflexivity.
Qed.

Lemma descriptor_bare name :
  is_word name ->
  descriptor_type ("<" +:+ name +:+ ">") = Some None /\
  name_of ("<" +:+ name +:+ ">") = Ok (Some name).
Proof.
  intros Hn. destruct (param_match_bare name Hn) as (e & H).
  unfold descriptor_type, name_of, match_, match_at.
  change (replicate (p_groups param_pattern) None) with [@None string; None; None; None; None].
  rewrite H. split; reflexivity.
Qed.

Lemma descriptor_regex p name :
  p <> "" -> Str.all not_newline p = true -> is_word name ->
  descriptor_type (render1 (TRegex p name)) = Some (Some "regex") /\
  name_of (render1 (TRegex p name)) = Ok (Some name).
Proof.
  intros Hp Hnl Hn. destruct (param_match_regex p name Hp Hnl Hn) as (e & c0 & c2 & H).
  unfold descriptor_type, name_of, match_, match_at, render1.
  change (replicate (p_groups param_pattern) None) with [@None string; None; None; None; None].
  rewrite H. split; reflexivity.
Qed.
End Placeholders.

(** ** What [int()] and [float()] answer *)

Section Doubles.

Local Open Scope Z_scope.

Lemma round_half_even_spec n d :
  0 < d -> 0 <= n ->
  n / d <= Py.round_half_even n d <= n / d + 1 /\
  2 * Z.abs (n - Py.round_half_even n d * d) <= d /\
  (2 * Z.abs (n - Py.round_half_even n d * d) = d ->
   Z.even (Py.round_half_even n d) = true).
Proof.
  intros Hd Hn. unfold Py.round_half_even.
  pose proof (Z.div_mod n d ltac:(lia)) as E.
  pose proof (Z.mod_pos_bound n d Hd) as Hr.
  set (q := n / d) in *. set (r := n mod d) in *.
  destruct (Z.ltb_spec (2 * r) d) as [H1|H1]; [repeat split; lia|].
  destruct (Z.ltb_spec d (2 * r)) as [H2|H2]; [repeat split; lia|].
  destruct (Z.even q) eqn:Ev; [repeat split; try lia; intros _; exact Ev|].
  repeat split; try lia. intros _.
  change (q + 1) with (Z.succ q). rewrite Z.even_succ, <- Z.negb_even, Ev. reflexivity.
Qed.

(** [binary64] answers the nearest double. *)
Lemma binary64_nearest neg mt e10 :
  nearest_double neg (Py.in_steps mt e10).1 (Py.in_steps mt e10).2
                 (Py.binary64 neg mt e10).
Proof.
  unfold Py.binary64, Py.in_steps. cbn [fst snd].
  set (n := Z.of_N mt * 10 ^ Z.max e10 0 * 2 ^ 1074).
  set (d := 10 ^ Z.max (- e10) 0).
  assert (0 < d) as Hd by (apply Z.pow_pos_nonneg; lia).
  assert (0 <= n) as Hn.
  { subst n. apply Z.mul_nonneg_nonneg; [|apply Z.pow_nonneg; lia].
    apply Z.mul_nonneg_nonneg; [lia|apply Z.pow_nonneg; lia]. }
  set (T := n / d). assert (0 <= T) as HT by (apply Z.div_pos; lia).
  assert (d * T <= n) as HdT by (apply Z.mul_div_le; lia).
  set (ex := Z.max (Z.log2 T - 52) 0). assert (0 <= ex) as Hex by lia.
  set (P := 2 ^ ex). assert (0 < P) as HP by (apply Z.pow_pos_nonneg; lia).
  set (D := d * P). assert (0 < D) as HD by (apply Z.mul_pos_pos; assumption).
  destruct (round_half_even_spec n D HD Hn) as (Hq & Herr & Htie).
  set (m0 := Py.round_half_even n D) in *.
  assert (n / D = T / P) as Hdiv by (symmetry; apply Z.div_div; lia).
  rewrite Hdiv in Hq.
  set (B := 2 ^ 52).
  assert (0 < B) as HB by (apply Z.pow_pos_nonneg; lia).
  assert (2 ^ 53 = 2 * B) as E53 by reflexivity.
  assert (2 ^ 54 = 4 * B) as E54 by reflexivity.
  assert ((ex = 0 /\ T / P < 2 * B) \/ (0 < ex /\ B <= T / P < 2 * B /\ B * P <= T))
    as Hrange.
  { destruct (Z.le_gt_cases (Z.log2 T - 52) 0) as [Hl|Hl].
    - left. assert (ex = 0) as E0 by lia. split; [exact E0|].
      subst P. rewrite E0. change (2 ^ 0) with 1. rewrite Z.div_1_r.
      destruct (Z.eq_dec T 0) as [->|HT0]; [lia|].
      pose proof (Z.log2_spec T ltac:(lia)) as [_ Hs].
      pose proof (Z.pow_le_mono_r 2 (Z.succ (Z.log2 T)) 53 ltac:(lia) ltac:(lia)) as Hm.
      lia.
    - right. assert (ex = Z.log2 T - 52) as E0 by lia.
      assert (0 < T) as HT0.
      { destruct (Z.eq_dec T 0) as [E|]; [|lia]. rewrite E in Hl. cbn in Hl. lia. }
      pose proof (Z.log2_spec T HT0) as [Hlo Hhi].
      assert (2 ^ Z.log2 T = B * P) as EL.
      { subst B P. rewrite <- Z.pow_add_r by lia. f_equal. lia. }
      assert (2 ^ Z.succ (Z.log2 T) = 2 * B * P) as EH.
      { rewrite Z.pow_succ_r by apply Z.log2_nonneg. rewrite EL. lia. }
      split; [lia|]. split; [split|lia].
      + apply Z.div_le_lower_bound; lia.
      + apply Z.div_lt_upper_bound; lia. }
  assert (2 ^ (ex + 1) = 2 * P) as EP1.
  { subst P. rewrite Z.pow_add_r by lia. change (2 ^ 1) with 2. lia. }
  destruct (Z.eqb_spec m0 (2 ^ 53)) as [Em|Em].
  - destruct (Z.ltb_spec 2045 (ex + 1)) as [Hov|Hov]; cbn [nearest_double].
    + split; [reflexivity|].
      assert (2 ^ 2045 <= P) as HP' by (apply Z.pow_le_mono_r; lia).
      assert (2 ^ 2045 * d <= P * d) as HPd by (apply Z.mul_le_mono_nonneg_r; lia).
      rewrite E54. subst D. rewrite Em, E53 in Herr.
      set (X := 2 ^ 2045) in *. nia.
    + rewrite Z2N.id by lia. fold B.
      replace (ex + 1 - 1074 + 1074) with (ex + 1) by lia. rewrite EP1.
      split; [reflexivity|]. split; [lia|]. split; [lia|]. split; [left; lia|].
      rewrite Em, E53 in Herr. subst D. split; [nia|]. intros Habs. exfalso. nia.
  - destruct (Z.ltb_spec 2045 ex) as [Hov|Hov]; cbn [nearest_double].
    + split; [reflexivity|].
      destruct Hrange as [[E0 _]|(_ & _ & HBP)]; [lia|].
      assert (2 ^ 2046 <= P) as HP' by (apply Z.pow_le_mono_r; lia).
      assert (2 ^ 2046 = 2 * 2 ^ 2045) as E46 by reflexivity.
      rewrite E54. set (X := 2 ^ 2045) in *. nia.
    + assert (0 <= T / P) as HTP by (apply Z.div_pos; lia).
      rewrite Z2N.id by lia.
      replace (ex - 1074 + 1074) with ex by lia. fold P. fold D.
      split; [reflexivity|]. split; [lia|]. split; [lia|].
      split; [destruct Hrange as [[E0 _]|(_ & [Hlo _] & _)]; [right|left]; lia|].
      split; [exact Herr|exact Htie].
Qed.

End Doubles.

Section FloatCaptures.

Lemma decimal_value_app a b acc :
  decimal_value (a +:+ b) acc = decimal_value b (decimal_value a acc).
Proof.
  revert acc. induction a as [|c a IH]; intros acc; [reflexivity|].
  rewrite app_cons. cbn [decimal_value]. apply IH.
Qed.

(** A run of digits is read up to what ends it. *)
Lemma digitpart_go_run a rest :
  Str.all Re.is_digit a = true ->
  match rest with
  | "" => True
  | String c _ => Re.is_digit c = false /\ c <> "_"%char
  end ->
  forall acc n,
    Py.digitpart_go (a +:+ rest) acc n = (decimal_value a acc, n + String.length a, rest).
Proof.
  intros Ha Hrest. induction a as [|c a IH]; intros acc n.
  - rewrite app_nil_l. cbn [decimal_value String.length]. rewrite Nat.add_0_r.
    destruct rest as [|c r]; [reflexivity|]. destruct Hrest as [Hd Hu].
    cbn [Py.digitpart_go]. rewrite Hd. apply Ascii.eqb_neq in Hu. rewrite Hu. reflexivity.
  - simpl in Ha. apply andb_true_iff in Ha as [Hc Ha].
    rewrite app_cons. cbn [Py.digitpart_go decimal_value String.length]. rewrite Hc.
    rewrite (IH Ha). f_equal. f_equal. lia.
Qed.

(** An underscore between two digits is passed over. *)
Lemma digitpart_go_underscore a b :
  Str.all Re.is_digit a = true -> a <> "" ->
  Str.all Re.is_digit b = true -> b <> "" ->
  forall acc n,
    Py.digitpart_go (a +:+ String "_" b) acc n =
    (decimal_value (a +:+ b) acc, n + String.length a + String.length b, "").
Proof.
  intros Ha Hne Hb Hbne. induction a as [|c a IH]; [congruence|]. intros acc n.
  simpl in Ha. apply andb_true_iff in Ha as [Hc Ha].
  rewrite !app_cons. cbn [Py.digitpart_go decimal_value String.length]. rewrite Hc.
  destruct a as [|c' a].
  - rewrite !app_nil_l. destruct b as [|d b]; [congruence|].
    pose proof Hb as Hb'. simpl in Hb'. apply andb_true_iff in Hb' as [Hd Hb'].
    cbn [Py.digitpart_go Re.is_digit]. 
    change (Re.is_digit "_") with false. cbn [Ascii.eqb Bool.eqb]. rewrite Hd.
    rewrite (digitpart_go_digits _ Hb'). cbn [decimal_value String.length].
    f_equal. f_equal. lia.
  - rewrite IH by (assumption || discriminate). f_equal. f_equal. lia.
Qed.

Lemma digit_not_capital c : Re.is_digit c = true -> Py.is_capital c = false.
Proof.
  unfold Re.is_digit, Py.is_capital, Re.is_upper. intros H.
  apply andb_true_iff in H as [H1 H2]. apply Nat.leb_le in H1, H2.
  apply orb_false_iff. split.
  - apply andb_false_iff. left. apply Nat.leb_gt. lia.
  - apply andb_false_iff. left. apply andb_false_iff. left. apply Nat.leb_gt. lia.
Qed.

Lemma digitpart_digit c s acc :
  Re.is_digit c = true ->
  Py.digitpart (String c s) acc = Some (Py.digitpart_go (String c s) acc 0).
Proof. intros H. unfold Py.digitpart. rewrite H. reflexivity. Qed.

Lemma digitpart_other c s acc :
  Re.is_digit c = false -> Py.digitpart (String c s) acc = None.
Proof. intros H. unfold Py.digitpart. rewrite H. reflexivity. Qed.

Lemma rstrip_app_digits x b :
  Str.all Re.is_digit b = true -> b <> "" -> Py.rstrip (x +:+ b) = x +:+ b.
Proof.
  intros Hb Hne. induction x as [|c x IH].
  - rewrite app_nil_l. apply rstrip_digits, Hb.
  - rewrite app_cons. cbn [Py.rstrip]. rewrite IH.
    destruct (x +:+ b) eqn:E; [|reflexivity].
    destruct x; [rewrite app_nil_l in E; congruence|discriminate E].
Qed.

(** The sign of a text that goes on with a digit. *)
Lemma sign_of_text neg c s :
  Re.is_digit c = true ->
  Py.sign (sign_prefix neg +:+ String c s) = (is_minus neg, String c s).
Proof.
  intros Hc. destruct neg as [[]|]; [reflexivity|reflexivity|].
  cbn [sign_prefix]. rewrite app_nil_l. unfold Py.sign, is_minus. cbn [default from_option id].
  destruct (Ascii.eqb_spec c "-") as [->|]; [discriminate Hc|].
  destruct (Ascii.eqb_spec c "+") as [->|]; [discriminate Hc|].
  destruct c as [[] [] [] [] [] [] [] []]; try reflexivity; congruence.
Qed.

Lemma lstrip_sign_prefix neg c s :
  Re.is_digit c = true ->
  Py.lstrip (sign_prefix neg +:+ String c s) = sign_prefix neg +:+ String c s.
Proof.
  intros Hc. destruct neg as [[]|]; [reflexivity|reflexivity|].
  cbn [sign_prefix]. rewrite app_nil_l. cbn [Py.lstrip].
  rewrite (digit_not_space _ Hc). reflexivity.
Qed.

(** What [decimal] reads in a text that starts with a digit. *)
Lemma decimal_digit c s :
  Re.is_digit c = true ->
  Py.decimal (String c s) =
  ('(ip, _, s1) ← Py.digitpart (String c s) 0;
   match s1 with
   | String "." s2 =>
       match Py.digitpart s2 ip with
       | Some (mt, nfrac, s3) =>
           e ← Py.exponent s3; Some (mt, (e - Z.of_nat nfrac)%Z)
       | None => e ← Py.exponent s2; Some (ip, e)
       end
   | _ => e ← Py.exponent s1; Some (ip, e)
   end).
Proof.
  intros Hc. destruct (Ascii.eqb_spec c ".") as [->|Hne]; [discriminate Hc|].
  unfold Py.decimal.
  destruct c as [[] [] [] [] [] [] [] []]; try reflexivity; congruence.
Qed.

(** What follows the digits [a] in [a], [c], [b]. *)
Lemma decimal_capture a c b :
  Str.all Re.is_digit a = true -> a <> "" ->
  Str.all Re.is_digit b = true -> b <> "" ->
  Py.decimal (a +:+ String c b) = float_capture a c b.
Proof.
  intros Ha Hane Hb Hbne. unfold float_capture.
  destruct a as [|a0 a'] eqn:Ea; [congruence|]. rewrite <- Ea in *.
  assert (Re.is_digit a0 = true) as Ha0
    by (rewrite Ea in Ha; simpl in Ha; apply andb_true_iff in Ha as [H _]; exact H).
  destruct b as [|b0 b'] eqn:Eb; [congruence|]. rewrite <- Eb in *.
  assert (Re.is_digit b0 = true) as Hb0
    by (rewrite Eb in Hb; simpl in Hb; apply andb_true_iff in Hb as [H _]; exact H).
  assert (a +:+ String c b = String a0 (a' +:+ String c b)) as Es
    by (rewrite Ea, app_cons; reflexivity).
  rewrite Es, (decimal_digit _ _ Ha0), <- Es.
  rewrite Es, (digitpart_digit _ _ _ Ha0), <- Es.
  destruct (Re.is_digit c) eqn:Hc.
  - (* the digits go on *)
    assert (Ascii.eqb c "." = false) as Hdot
      by (apply Ascii.eqb_neq; intros ->; discriminate Hc).
    rewrite Hdot.
    assert (Str.all Re.is_digit (a +:+ String c b) = true) as Hall.
    { rewrite all_app. cbn [Str.all]. rewrite Ha, Hc, Hb. reflexivity. }
    rewrite <- (app_nil_r (a +:+ String c b)) at 1.
    rewrite (digitpart_go_run _ "" Hall I). cbn [mbind option_bind Py.exponent].
    reflexivity.
  - destruct (Ascii.eqb_spec c "_") as [->|Hu].
    + cbn [Ascii.eqb Bool.eqb].
      rewrite (digitpart_go_underscore a b Ha Hane Hb Hbne).
      cbn [mbind option_bind Py.exponent]. reflexivity.
    + rewrite (digitpart_go_run a (String c b) Ha (conj Hc Hu)).
      cbn [mbind option_bind].
      destruct (Ascii.eqb_spec c ".") as [->|Hdot].
      * rewrite Eb at 1. rewrite (digitpart_digit _ _ _ Hb0), <- Eb.
        rewrite <- (app_nil_r b) at 1.
        rewrite (digitpart_go_run b "" Hb I). cbn [Py.exponent mbind option_bind].
        rewrite decimal_value_app. rewrite Nat.add_0_l.
        replace (0 - Z.of_nat (String.length b))%Z
          with (- Z.of_nat (String.length b))%Z by lia.
        reflexivity.
      * assert (match String c b with
                | String "." s2 =>
                    match Py.digitpart s2 (decimal_value a 0) with
                    | Some (mt, nfrac, s3) =>
                        e ← Py.exponent s3; Some (mt, (e - Z.of_nat nfrac)%Z)
                    | None => e ← Py.exponent s2; Some (decimal_value a 0, e)
                    end
                | _ => e ← Py.exponent (String c b); Some (decimal_value a 0, e)
                end = (e ← Py.exponent (String c b); Some (decimal_value a 0, e))) as ->.
        { destruct c as [[] [] [] [] [] [] [] []]; try reflexivity; congruence. }
        unfold Py.exponent.
        destruct (Ascii.eqb c "e" || Ascii.eqb c "E"); [|reflexivity].
        rewrite Eb at 1.
        assert (Py.sign (String b0 b') = (false, String b0 b')) as ->
          by (apply (sign_of_text None b0 b' Hb0)).
        rewrite (digitpart_digit _ _ _ Hb0), <- Eb.
        rewrite <- (app_nil_r b) at 1.
        rewrite (digitpart_go_run b "" Hb I). reflexivity.
Qed.

(** [float()] on a capture of the class of [<float:..>]. *)
Lemma float_of_capture neg a c b :
  Str.all Re.is_digit a = true -> a <> "" ->
  Str.all Re.is_digit b = true -> b <> "" ->
  Py.float (Some (sign_prefix neg +:+ a +:+ String c b)) =
  match float_capture a c b with
  | Some (mt, e10) => Ok (Py.binary64 (is_minus neg) mt e10)
  | None => Raise (ValueError "could not convert string to float")
  end.
Proof.
  intros Ha Hane Hb Hbne. unfold Py.float, Py.float_of_str, Py.strip.
  destruct a as [|a0 a'] eqn:Ea; [congruence|]. rewrite <- Ea in *.
  assert (Re.is_digit a0 = true) as Ha0
    by (rewrite Ea in Ha; simpl in Ha; apply andb_true_iff in Ha as [H _]; exact H).
  assert (a +:+ String c b = String a0 (a' +:+ String c b)) as Es
    by (rewrite Ea, app_cons; reflexivity).
  rewrite Es, lstrip_sign_prefix by exact Ha0. rewrite <- Es.
  assert (sign_prefix neg +:+ a +:+ String c b
          = (sign_prefix neg +:+ a +:+ String c "") +:+ b) as Er.
  { rewrite !app_assoc. rewrite app_cons, app_nil_l. reflexivity. }
  rewrite Er, rstrip_app_digits, <- Er by assumption.
  rewrite Es, sign_of_text by exact Ha0.
  cbn [Py.lower]. rewrite (digit_not_capital _ Ha0).
  rewrite !bool_decide_eq_false_2
    by (intros E; injection E as E _; subst a0; discriminate Ha0).
  cbn [orb]. rewrite <- Es, decimal_capture by assumption.
  destruct (float_capture a c b) as [[mt e]|]; reflexivity.
Qed.

End FloatCaptures.

(** C7. The value converter parses captures of type [int] with [int()]
    and captures of type [float] with [float()]; captures of any other
    type, [string], [uuid], [default] and [regex] among them, and of no
    type come back unchanged; and when the placeholder text cannot be
    resolved the capture comes back unchanged, nothing is raised.
    [int()] reads a run of digits, which is what the class of
    [<int:..>] captures, as the number it writes, up to 4300 digits, and
    refuses a longer run.  [float()] reads a capture of the class of
    [<float:..>], a sign or none, digits, one character and digits, as
    [float_capture] says: it answers the double nearest to the decimal
    read, the even one of two equally near and the infinite one past the
    largest double, and raises when the character between the digits is
    none that a number may hold.  The type is the one written in the
    placeholder: [<ty:name>] has type [ty], [<name>] has none,
    [<regex(p):name>] has type [regex]. *)
Theorem converters_by_descriptor (value : option string) (path_arg : string) :
  (descriptor_type path_arg = Some (Some "int") ->
   _converters value path_arg = VInt <$> Py.int value) /\
  (descriptor_type path_arg = Some (Some "float") ->
   _converters value path_arg = VFloat <$> Py.float value) /\
  (forall ty, descriptor_type path_arg = Some ty ->
     ty <> Some "int" -> ty <> Some "float" ->
     _converters value path_arg = Ok (of_capture value)) /\
  (descriptor_type path_arg = None ->
   _converters value path_arg = Ok (of_capture value)) /\
  (forall digits, value = Some digits -> digits <> "" ->
     Str.all Re.is_digit digits = true ->
     descriptor_type path_arg = Some (Some "int") ->
     _converters value path_arg =
     if Nat.ltb 4300 (String.length digits)
     then Raise (Py.exceeds_limit (String.length digits))
     else Ok (VInt (Z.of_N (decimal_value digits 0)))) /\
  (forall neg a c b, value = Some (sign_prefix neg +:+ a +:+ String c b) ->
     Str.all Re.is_digit a = true -> a <> "" ->
     Str.all Re.is_digit b = true -> b <> "" ->
     descriptor_type path_arg = Some (Some "float") ->
     match float_capture a c b with
     | Some (mt, e10) =>
         exists f, _converters value path_arg = Ok (VFloat f) /\
                   nearest_double (is_minus neg)
                                  (Z.of_N mt * 10 ^ Z.max e10 0 * 2 ^ 1074)
                                  (10 ^ Z.max (- e10) 0) f
     | None =>
         _converters value path_arg = Raise (ValueError "could not convert string to float")
     end) /\
  (forall ty name, is_word ty -> is_word name ->
     descriptor_type ("<" +:+ ty +:+ ":" +:+ name +:+ ">") = Some (Some ty)) /\
  (forall name, is_word name ->
     descriptor_type ("<" +:+ name +:+ ">") = Some None) /\
  (forall p name, p <> "" -> Str.all not_newline p = true -> is_word name ->
     descriptor_type ("<regex(" +:+ p +:+ "):" +:+ name +:+ ">") = Some (Some "regex")) /\
  descriptor_type "invalid_pattern" = None.
Proof.
  rewrite converters_by_type.
  split; [|split; [|split; [|split; [|split; [|split; [|split; [|split; [|split]]]]]]]].
  - intros ->. reflexivity.
  - intros ->. reflexivity.
  - intros ty -> Hi Hf. rewrite !bool_decide_eq_false_2 by assumption. reflexivity.
  - intros ->. reflexivity.
  - intros digits -> Hne Hd ->.
    rewrite bool_decide_eq_true_2 by reflexivity.
    rewrite (int_of_digits _ Hne Hd).
    change Py.max_str_digits with 4300.
    destruct (Nat.ltb 4300 (String.length digits)); reflexivity.
  - intros neg a c b -> Ha Hane Hb Hbne ->.
    rewrite bool_decide_eq_false_2 by discriminate.
    rewrite bool_decide_eq_true_2 by reflexivity.
    rewrite (float_of_capture neg a c b Ha Hane Hb Hbne).
    destruct (float_capture a c b) as [[mt e10]|]; [|reflexivity].
    eexists. split; [reflexivity|]. exact (binary64_nearest (is_minus neg) mt e10).
  - intros ty name Hty Hn. apply descriptor_typed; assumption.
  - intros name Hn. apply descriptor_bare; assumption.
  - intros p name Hp Hnl Hn. apply (descriptor_regex p name); assumption.
  - vm_compute. reflexivity.
Qed.

Lemma converters_by_descriptor_witness :
  _converters (Some "123") "<int:v>" = Ok (VInt 123) /\
  (exists f, _converters (Some "-0.1") "<float:v>" = Ok (VFloat f) /\
             nearest_double true (1 * 10 ^ 0 * 2 ^ 1074) (10 ^ 1) f) /\
  _converters (Some "1a2") "<float:v>" = Raise (ValueError "could not convert string to float") /\
  _converters (Some "123") "<default:v>" = Ok (VStr "123") /\
  _converters (Some "123") "<v>" = Ok (VStr "123") /\
  _converters (Some "123") "invalid_pattern" = Ok (VStr "123") /\
  descriptor_type "<uuid:v>" = Some (Some "uuid") /\
  descriptor_type "<v>" = Some None /\
  descriptor_type "<regex([a-z]+):v>" = Some (Some "regex").
Proof.
  assert ("123" <> "") as Hne by discriminate.
  assert ("0" <> "") as H0 by discriminate.
  assert ("1" <> "") as H1 by discriminate.
  assert ("2" <> "") as H2 by discriminate.
  assert (is_word "v") as Hv by (split; [discriminate|reflexivity]).
  assert (is_word "uuid") as Hu by (split; [discriminate|reflexivity]).
  assert ("[a-z]+" <> "") as Hp by discriminate.
  pose proof (converters_by_descriptor (Some "123") "<int:v>")
    as (_ & _ & _ & _ & Hint & _ & Hty & Hbare & Hre & _).
  pose proof (converters_by_descriptor (Some "-0.1") "<float:v>")
    as (_ & _ & _ & _ & _ & Hfloat & _).
  pose proof (converters_by_descriptor (Some "1a2") "<float:v>")
    as (_ & _ & _ & _ & _ & Hbadfloat & _).
  pose proof (converters_by_descriptor (Some "123") "<default:v>") as (_ & _ & Hdef & _).
  pose proof (converters_by_descriptor (Some "123") "<v>") as (_ & _ & Hnone & _).
  pose proof (converters_by_descriptor (Some "123") "invalid_pattern") as (_ & _ & _ & Hbad & _).
  split; [|split; [|split; [|split; [|split; [|split; [|split; [|split]]]]]]].
  - exact (Hint "123" eq_refl Hne eq_refl eq_refl).
  - exact (Hfloat (Some true) "0" "."%char "1" eq_refl eq_refl H0 eq_refl H1 eq_refl).
  - exact (Hbadfloat None "1" "a"%char "2" eq_refl eq_refl H1 eq_refl H2 eq_refl).
  - refine (Hdef (Some "default") eq_refl _ _); discriminate.
  - refine (Hnone None eq_refl _ _); discriminate.
  - exact (Hbad eq_refl).
  - exact (Hty "uuid" "v" Hu Hv).
  - exact (Hbare "v" Hv).
  - exact (Hre "[a-z]+" "v" Hp eq_refl Hv).
Defined.

(** ** The documentation path *)

(** The wording of C9 fails for an inline pattern that holds [>]: the
    placeholder is cut at that character and the rest is not read as a
    placeholder. *)
Lemma openapi_as_specified_fails : ~ openapi_as_specified.
Proof.
  intros H. specialize (H [TLit "/"; TRegex "a>b" "x"]).
  assert (_path_to_openapi (render [TLit "/"; TRegex "a>b" "x"]) = Raise AttributeError)
    as E by (vm_compute; reflexivity).
  rewrite E in H. discriminate H.
  repeat constructor; discriminate.
Qed.

(** A placeholder without type whose name begins with [regex] is taken
    for an inline pattern by the documentation pass, not by the
    compilation of the match expression. *)
Example openapi_regex_named :
  _path_to_openapi "/<regexfoo>" = Raise AttributeError /\
  _path_to_regex "/<regexfoo>" = Ok "^/([a-zA-Z0-9_]+)$".
Proof. split; vm_compute; reflexivity. Qed.

(** C9 (amended). For every template made of literal text without
    angle brackets, placeholders [<name>] and [<type:name>] whose name
    and type are words that do not begin with [regex], and placeholders
    [<regex(pattern):name>] whose pattern holds no [>], no line break
    and no text [<regex] (colons and [<] are allowed), the documentation
    path is the template with every placeholder rewritten to [{name}]
    and every other character unchanged; the inline-pattern
    placeholders are first brought to [<regex:name>]. *)
Theorem path_to_openapi_segments (toks : list segment) :
  Forall wf_token toks ->
  foldl (regex_step "name" (fun name => "<regex:" +:+ name +:+ ">"))
        (Ok (render toks)) (Re.findall1 regex_param (render toks))
    = Ok (render (map normal toks)) /\
  _path_to_openapi (render toks) = Ok (doc toks).
Proof.
  intros Hwf.
  assert (Forall wf_tag toks) as Htag
    by (eapply Forall_impl; [exact Hwf|]; intros t [Ht _]; exact Ht).
  assert (foldl (regex_step "name" (fun name => "<regex:" +:+ name +:+ ">"))
                (Ok (render toks)) (Re.findall1 regex_param (render toks))
          = Ok (render (map normal toks))) as Hfold.
  { unfold Re.findall1, Re.finditer. rewrite (findall_segments toks Hwf).
    rewrite (fold_normalize _ toks Htag (regex_texts_wf toks Htag)).
    rewrite normal_in_all by (intros p n; apply regex_texts_complete).
    reflexivity. }
  split; [exact Hfold|].
  unfold _path_to_openapi. rewrite Hfold. cbn [mbind result_bind].
  unfold Re.sub. rewrite (sub_open_segments _ (normal_simple toks Htag)).
  rewrite sub_close, (close_opened _ (normal_simple toks Htag)), doc_normal.
  reflexivity.
Qed.

Lemma path_to_openapi_segments_witness :
  _path_to_openapi "/<string:num>/<test>-<regex([0-1]{4}):var>" = Ok "/{num}/{test}-{var}" /\
  _path_to_openapi "/<regex(a<b:c):x>" = Ok "/{x}".
Proof.
  split.
  - refine (proj2 (path_to_openapi_segments
             [TLit "/"; TParam (Some "string") "num"; TLit "/"; TParam None "test";
              TLit "-"; TRegex "[0-1]{4}" "var"] _)).
    repeat constructor; discriminate.
  - refine (proj2 (path_to_openapi_segments [TLit "/"; TRegex "a<b:c" "x"] _)).
    repeat constructor; discriminate.
Defined.

(** ** Typed placeholders in the match expression *)

Section TypedPlaceholders.

Import Re.

(** What a successful greedy repetition has done: a run [a] within the
    bounds, and the rest of the pattern on what follows. *)
Lemma greedy_sound P lo hi (k : cont) s :
  forall cnt pos cs,
    is_Some (greedy P lo hi k cnt pos s cs) ->
    exists a b, s = a +:+ b /\ Str.all P a = true /\ lo <= cnt + String.length a /\
      match hi with Some h => a = "" \/ cnt + String.length a <= h | None => True end /\
      is_Some (k (pos + String.length a) b cs).
Proof.
  induction s as [|c s IH]; intros cnt pos cs H.
  - cbn [greedy or_else] in H. destruct (Nat.leb_spec lo cnt); [|destruct H; discriminate].
    exists "", "". cbn [String.length]. rewrite !Nat.add_0_r.
    repeat split; [lia|destruct hi; auto|exact H].
  - cbn [greedy] in H.
    destruct (match hi with Some h => Nat.ltb cnt h | None => true end && P c) eqn:Hc;
      [destruct (greedy P lo hi k (S cnt) (S pos) s cs) as [r'|] eqn:E|].
    + destruct (IH (S cnt) (S pos) cs) as (a & b & -> & Ha & Hlo & Hhi & Hk);
        [rewrite E; eauto|].
      apply andb_true_iff in Hc as [Hh Hc].
      exists (String c a), b. rewrite app_cons. cbn [Str.all String.length].
      rewrite Hc, Ha. replace (pos + S (String.length a)) with (S pos + String.length a) by lia.
      repeat split; [lia| |exact Hk].
      destruct hi as [h|]; [|exact I]. right. apply Nat.ltb_lt in Hh.
      destruct Hhi as [->|Hhi]; cbn [String.length] in *; lia.
    + cbn [or_else] in H. destruct (Nat.leb_spec lo cnt); [|destruct H; discriminate].
      exists "", (String c s). cbn [String.length]. rewrite !Nat.add_0_r.
      repeat split; [lia|destruct hi; auto|exact H].
    + cbn [or_else] in H. destruct (Nat.leb_spec lo cnt); [|destruct H; discriminate].
      exists "", (String c s). cbn [String.length]. rewrite !Nat.add_0_r.
      repeat split; [lia|destruct hi; auto|exact H].
Qed.

Lemma or_else_is_Some {A} (a b : option A) : is_Some b -> is_Some (or_else a b).
Proof. destruct a; cbn; eauto. Qed.

(** A greedy repetition succeeds when the rest of the pattern succeeds
    behind some run within the bounds. *)
Lemma greedy_complete P lo hi (k : cont) a :
  forall b cnt pos cs,
    Str.all P a = true -> lo <= cnt + String.length a ->
    match hi with Some h => cnt + String.length a <= h | None => True end ->
    is_Some (k (pos + String.length a) b cs) ->
    is_Some (greedy P lo hi k cnt pos (a +:+ b) cs).
Proof.
  induction a as [|c a IH]; intros b cnt pos cs Ha Hlo Hhi Hk.
  - rewrite app_nil_l. cbn [String.length] in *. rewrite Nat.add_0_r in *.
    apply Nat.leb_le in Hlo.
    destruct b as [|c b]; cbn [greedy]; apply or_else_is_Some; rewrite Hlo; exact Hk.
  - rewrite app_cons. rewrite all_cons in Ha. apply andb_true_iff in Ha as [Hc Ha].
    cbn [greedy String.length] in *. rewrite Hc.
    assert (match hi with Some h => Nat.ltb cnt h | None => true end = true) as ->.
    { destruct hi as [h|]; [|reflexivity]. apply Nat.ltb_lt. lia. }
    cbn [andb].
    destruct (IH b (S cnt) (S pos) cs Ha) as (r' & ->); [lia| | |cbn [or_else]; eauto].
    + destruct hi; [lia|exact I].
    + replace (S pos + String.length a) with (pos + S (String.length a)) by lia. exact Hk.
Qed.

Lemma one_char_sound P pos s cs (k : cont) :
  is_Some (one_char P pos s cs k) ->
  exists c s', s = String c s' /\ P c = true /\ is_Some (k (S pos) s' cs).
Proof.
  destruct s as [|c s]; cbn [one_char]; [intros [? H]; discriminate H|].
  destruct (P c) eqn:Hc; [eauto 6|intros [? H]; discriminate H].
Qed.

Lemma match_at_is_Some p pos s :
  is_Some (match_at p pos s) <->
  is_Some (m (p_re p) pos s (replicate (p_groups p) None) (fun e _ cs => Some (e, cs))).
Proof.
  unfold match_at. split.
  - intros [mt H]. destruct (m _ _ _ _ _) as [r|]; [eauto|discriminate H].
  - intros [[e cs] ->]. eauto.
Qed.

(** The end of the expression: [$] and then the answer. *)
Lemma eol_at_end {A} (r : A) s :
  is_Some match s with
          | "" => Some r
          | String c "" => if Ascii.eqb c newline then Some r else None
          | String c (String _ _) => None
          end <-> at_end s.
Proof.
  unfold at_end, line_break. split.
  - intros [x H]. destruct s as [|c [|c' s]]; [left; reflexivity| |discriminate H].
    destruct (Ascii.eqb_spec c newline) as [->|]; [right; reflexivity|discriminate H].
  - intros [->| ->]; [eauto|]. rewrite Ascii.eqb_refl. eauto.
Qed.

Lemma route_matches_unfold url route expr :
  Re.compile (route_regex route) = Some expr ->
  "GET" ∈ methods route ->
  route_matches url "GET" route = true <->
  is_Some (m (p_re expr) 0 url (replicate (p_groups expr) None) (fun e _ cs => Some (e, cs))).
Proof.
  intros Hc Hm. unfold route_matches. rewrite Hc.
  rewrite bool_decide_eq_true_2 by exact Hm. cbn [andb].
  rewrite bool_decide_eq_true. apply match_at_is_Some.
Qed.

Lemma int_regex_re :
  Re.compile (route_regex int_route) =
  Some {| p_re := RSeq RBol (RSeq (RChr "/")
                    (RSeq (RGroup 0 (RRep (RSet false [IRange "0" "9"]) 1 None)) REol));
          p_groups := 1; p_names := [] |}.
Proof. vm_compute. reflexivity. Qed.

Lemma int_class : matches_class int_text int_route.
Proof.
  intros s.
  rewrite (route_matches_unfold _ _ _ int_regex_re)
    by (apply (bool_decide_unpack _); vm_compute; exact I).
  cbn [p_re p_groups replicate]. rewrite app_cons, app_nil_l.
  cbn [m one_char Nat.eqb]. change (Ascii.eqb "/" "/") with true. cbn iota.
  rewrite rep_loop_one_char with (P := digit_char) by (reflexivity || lia).
  split.
  - intros H. apply greedy_sound in H as (a & b & -> & Ha & Hlo & _ & Hk).
    exists a, b. split; [reflexivity|]. split.
    + split; [intros ->; simpl in Hlo; lia|exact Ha].
    + apply eol_at_end in Hk. exact Hk.
  - intros (t & rest & -> & [Hne Ht] & Hend).
    apply greedy_complete; [exact Ht| |exact I|].
    + destruct t; [congruence|simpl; lia].
    + apply eol_at_end. exact Hend.
Qed.
Lemma float_regex_re :
  Re.compile (route_regex float_route) =
  Some {| p_re := RSeq RBol (RSeq (RChr "/")
                    (RSeq (RGroup 0
                             (RSeq (RRep (RSet false [IChar "+"; IChar "-"]) 0 (Some 1))
                                (RSeq (RRep (RSet false [IRange "0" "9"]) 1 None)
                                   (RSeq RAny (RRep (RSet false [IRange "0" "9"]) 1 None)))))
                          REol));
          p_groups := 1; p_names := [] |}.
Proof. vm_compute. reflexivity. Qed.

Lemma sign_text sg :
  Str.all sign_char sg = true -> String.length sg <= 1 ->
  sg = "" \/ sg = "+" \/ sg = "-".
Proof.
  destruct sg as [|c [|c' sg]]; [auto| |simpl; lia]. intros H _.
  rewrite all_cons, andb_true_r in H. right.
  destruct c as [[] [] [] [] [] [] [] []]; try discriminate H; auto.
Qed.

Lemma float_class : matches_class float_text float_route.
Proof.
  intros s.
  rewrite (route_matches_unfold _ _ _ float_regex_re)
    by (apply (bool_decide_unpack _); vm_compute; exact I).
  cbn [p_re p_groups replicate]. rewrite app_cons, app_nil_l.
  cbn [m one_char Nat.eqb]. change (Ascii.eqb "/" "/") with true. cbn iota.
  rewrite rep_loop_one_char with (P := sign_char) by (reflexivity || lia).
  split.
  - intros H. apply greedy_sound in H as (sg & b & -> & Hsg & _ & Hhi & H).
    rewrite rep_loop_one_char with (P := digit_char) in H by (reflexivity || lia).
    apply greedy_sound in H as (d1 & b1 & -> & Hd1 & Hlo1 & _ & H).
    apply one_char_sound in H as (c & b2 & -> & Hc & H).
    rewrite rep_loop_one_char with (P := digit_char) in H by (reflexivity || lia).
    apply greedy_sound in H as (d2 & rest & -> & Hd2 & Hlo2 & _ & H).
    apply eol_at_end in H.
    exists (sg +:+ d1 +:+ String c d2), rest. split; [norm_app; reflexivity|].
    split; [|exact H].
    exists sg, d1, c, d2. split; [reflexivity|]. split.
    { apply sign_text; [exact Hsg|]. destruct Hhi as [->|Hhi]; cbn [String.length Nat.add] in *; lia. }
    repeat split; try assumption.
    + intros ->. simpl in Hlo1. lia.
    + intros ->. simpl in Hlo2. lia.
  - intros (t & rest & -> & (sg & d1 & c & d2 & -> & Hsg & [Hne1 Hd1] & Hc & [Hne2 Hd2]) & Hend).
    norm_app. apply greedy_complete.
    + destruct Hsg as [->|[->| ->]]; reflexivity.
    + lia.
    + destruct Hsg as [->|[->| ->]]; simpl; lia.
    + rewrite rep_loop_one_char with (P := digit_char) by (reflexivity || lia).
      apply greedy_complete; [exact Hd1| |exact I|].
      * destruct d1; [congruence|simpl; lia].
      * cbn [one_char]. change (negb (Ascii.eqb c newline)) with (not_newline c). rewrite Hc.
        rewrite rep_loop_one_char with (P := digit_char) by (reflexivity || lia).
        apply greedy_complete; [exact Hd2| |exact I|].
        -- destruct d2; [congruence|simpl; lia].
        -- apply eol_at_end. exact Hend.
Qed.
Lemma uuid_regex_re :
  let hex := RSet false [IRange "0" "9"; IRange "a" "f"] in
  Re.compile (route_regex uuid_route) =
  Some {| p_re := RSeq RBol (RSeq (RChr "/")
                    (RSeq (RGroup 0
                             (RSeq (RRep hex 8 (Some 8)) (RSeq (RChr "-")
                             (RSeq (RRep hex 4 (Some 4)) (RSeq (RChr "-")
                             (RSeq (RRep hex 4 (Some 4)) (RSeq (RChr "-")
                             (RSeq (RRep hex 4 (Some 4)) (RSeq (RChr "-")
                                (RRep hex 12 (Some 12)))))))))))
                          REol));
          p_groups := 1; p_names := [] |}.
Proof. vm_compute. reflexivity. Qed.

(** A counted repetition has read a run of that length. *)
Lemma counted_sound P n (k : cont) pos s cs :
  0 < n ->
  is_Some (greedy P n (Some n) k 0 pos s cs) ->
  exists a b, s = a +:+ b /\ String.length a = n /\ Str.all P a = true /\
    is_Some (k (pos + n) b cs).
Proof.
  intros Hn H. apply greedy_sound in H as (a & b & -> & Ha & Hlo & Hhi & H).
  assert (String.length a = n) as Hlen
    by (destruct Hhi as [->|Hhi]; cbn [String.length Nat.add] in *; lia).
  exists a, b. rewrite Hlen in H. auto.
Qed.

Lemma counted_complete P n (k : cont) pos a b cs :
  String.length a = n -> Str.all P a = true ->
  is_Some (k (pos + n) b cs) ->
  is_Some (greedy P n (Some n) k 0 pos (a +:+ b) cs).
Proof.
  intros Hlen Ha H. apply greedy_complete; [exact Ha|lia|lia|].
  rewrite Hlen. exact H.
Qed.

Lemma dash_sound pos s cs (k : cont) :
  is_Some (one_char (Ascii.eqb "-") pos s cs k) ->
  exists s', s = String "-" s' /\ is_Some (k (S pos) s' cs).
Proof.
  intros H. apply one_char_sound in H as (c & s' & -> & Hc & H).
  apply Ascii.eqb_eq in Hc as <-. eauto.
Qed.

Lemma uuid_class : matches_class uuid_text uuid_route.
Proof.
  intros s.
  rewrite (route_matches_unfold _ _ _ uuid_regex_re)
    by (apply (bool_decide_unpack _); vm_compute; exact I).
  cbn [p_re p_groups replicate]. rewrite app_cons, app_nil_l.
  cbn [m one_char Nat.eqb]. change (Ascii.eqb "/" "/") with true. cbn iota.
  rewrite rep_loop_one_char with (P := hex_char) by (reflexivity || lia).
  split.
  - intros H.
    apply counted_sound in H as (h1 & b & -> & L1 & H1 & H); [|lia].
    apply dash_sound in H as (b' & -> & H).
    rewrite rep_loop_one_char with (P := hex_char) in H by (reflexivity || lia).
    apply counted_sound in H as (h2 & b & -> & L2 & H2 & H); [|lia].
    apply dash_sound in H as (b' & -> & H).
    rewrite rep_loop_one_char with (P := hex_char) in H by (reflexivity || lia).
    apply counted_sound in H as (h3 & b & -> & L3 & H3 & H); [|lia].
    apply dash_sound in H as (b' & -> & H).
    rewrite rep_loop_one_char with (P := hex_char) in H by (reflexivity || lia).
    apply counted_sound in H as (h4 & b & -> & L4 & H4 & H); [|lia].
    apply dash_sound in H as (b' & -> & H).
    rewrite rep_loop_one_char with (P := hex_char) in H by (reflexivity || lia).
    apply counted_sound in H as (h5 & rest & -> & L5 & H5 & H); [|lia].
    apply eol_at_end in H.
    exists (h1 +:+ "-" +:+ h2 +:+ "-" +:+ h3 +:+ "-" +:+ h4 +:+ "-" +:+ h5), rest.
    split; [norm_app; reflexivity|]. split; [|exact H].
    exists h1, h2, h3, h4, h5. unfold hex_run. auto 12.
  - intros (t & rest & -> &
            (h1 & h2 & h3 & h4 & h5 & -> & [L1 H1] & [L2 H2] & [L3 H3] & [L4 H4] & [L5 H5])
            & Hend).
    norm_app.
    apply counted_complete; [exact L1|exact H1|]. cbn [one_char Ascii.eqb Bool.eqb].
    rewrite rep_loop_one_char with (P := hex_char) by (reflexivity || lia).
    apply counted_complete; [exact L2|exact H2|]. cbn [one_char Ascii.eqb Bool.eqb].
    rewrite rep_loop_one_char with (P := hex_char) by (reflexivity || lia).
    apply counted_complete; [exact L3|exact H3|]. cbn [one_char Ascii.eqb Bool.eqb].
    rewrite rep_loop_one_char with (P := hex_char) by (reflexivity || lia).
    apply counted_complete; [exact L4|exact H4|]. cbn [one_char Ascii.eqb Bool.eqb].
    rewrite rep_loop_one_char with (P := hex_char) by (reflexivity || lia).
    apply counted_complete; [exact L5|exact H5|].
    apply eol_at_end. exact Hend.
Qed.
End TypedPlaceholders.

(** C6. The expression written for a typed placeholder matches the
    texts of its class and nothing else but such a text before one line
    break: for [int] a run of digits; for [float] an optional sign,
    digits, one character that is no line break, digits; for [uuid] five
    runs of hexadecimal digits between dashes.  The line break is the
    failing input: the expression of [/<int:num>] ends in [$], which
    also matches before a line break that ends the path, so the segment
    [12] followed by a line break, which is not a run of digits, finds
    the route and the handler receives [12].  (On a [float] placeholder
    the segment [1a2] is of the class, is matched, and is rejected by
    the conversion.) *)
Theorem typed_placeholders_trailing_line_break :
  matches_class int_text int_route /\
  matches_class float_text float_route /\
  matches_class uuid_text uuid_route /\
  route_regex int_route = "^/([0-9]+)$" /\
  Str.all digit_char ("12" +:+ line_break) = false /\
  _url_matching [int_route] (jstr ("/12" +:+ line_break)) (jstr "GET") = Ok (Some int_route) /\
  _get_matching_args int_route (jstr ("/12" +:+ line_break))
    = Ok (dict_of [(Some "num", VInt 12)]) /\
  route_matches "/1a2" "GET" float_route = true /\
  _get_matching_args float_route (jstr "/1a2")
    = Raise (ValueError "could not convert string to float").
Proof.
  split; [exact int_class|]. split; [exact float_class|]. split; [exact uuid_class|].
  repeat split; vm_compute; reflexivity.
Qed.

(** ** The assertions of the repository's tests

    The embedding evaluated on the inputs of [tests/]: every assertion
    of the tests on the functions modelled here holds of the model. *)

Example test_value_converters :
  _converters (Some "123") "<string:v>" = Ok (VStr "123") /\
  _converters (Some "123") "<int:v>" = Ok (VInt 123) /\
  _converters (Some "123") "<float:v>" = Ok (VFloat (FBin false (123 * 2 ^ 46) (-46))) /\
  _converters (Some "f5c21e12-8317-11e9-bf96-2e2ca3acb545") "<uuid:v>"
    = Ok (VStr "f5c21e12-8317-11e9-bf96-2e2ca3acb545") /\
  _converters (Some "123") "<v>" = Ok (VStr "123").
Proof. repeat split; vm_compute; reflexivity. Qed.

Example test_path_to_regex_convert :
  _path_to_regex
    "/jqtrde/<a>/<string:path>/<int:num>/<float:fl>/<uuid:id>/<regex([A-Z0-9]{5}):var>/<regex([a-z]{1}):othervar>"
  = Ok "^/jqtrde/([a-zA-Z0-9_]+)/([a-zA-Z0-9_]+)/([0-9]+)/([+-]?[0-9]+.[0-9]+)/([0-9a-f]{8}-[0-9a-f]{4}-[0-9a-f]{4}-[0-9a-f]{4}-[0-9a-f]{12})/([A-Z0-9]{5})/([a-z]{1})$".
Proof. vm_compute. reflexivity. Qed.

Example test_path_to_openapi_converters :
  _path_to_openapi "/<string:num>/<test>-<regex([0-1]{4}):var>" = Ok "/{num}/{test}-{var}".
Proof. vm_compute. reflexivity. Qed.

Example test_converters_no_match :
  _converters (Some "123") "invalid_pattern" = Ok (VStr "123").
Proof. vm_compute. reflexivity. Qed.

Example test_routing_edge_cases :
  _path_to_regex "/user/<regex([0-9a-f]{32}):token>/data"
    = Ok "^/user/([0-9a-f]{32})/data$" /\
  _path_to_openapi "/user/<regex([0-9a-f]{32}):token>/data" = Ok "/user/{token}/data".
Proof. split; vm_compute; reflexivity. Qed.

Example test_patterns_regex_usage :
  length (Re.finditer params_expr "/user/<name>/post/<int:id>") = 2 /\
  (fun mt => Re.group mt "name") <$> Re.search proxy_pattern "/{proxy+}"
    = Some (Some "proxy") /\
  (fun mt => (Re.group mt "type", Re.group mt "name"))
    <$> Re.match_ param_pattern "<string:username>"
    = Some (Some "string", Some "username") /\
  (fun mt => (Re.group mt "type", Re.group mt "pattern"))
    <$> Re.match_ regex_pattern "<regex([0-9]+):id>"
    = Some (Some "regex", Some "[0-9]+").
Proof. repeat split; vm_compute; reflexivity. Qed.

Example test_get_apigw_stage :
  _get_apigw_stage
    (mk_event [("headers", mk_dict [("host", SStr "example.com")]);
               ("requestContext", mk_dict [("stage", SStr "production")])])
    = Ok (SStr "") /\
  _get_apigw_stage
    (mk_event [("headers", mk_dict [("x-forwarded-host",
                                     SStr "api.execute-api.us-east-1.amazonaws.com")]);
               ("requestContext", mk_dict [("stage", SStr "production")])])
    = Ok (SStr "production").
Proof. split; vm_compute; reflexivity. Qed.

Example test_get_request_path :
  _get_request_path
    (mk_event [("resource", jstr "/static/path"); ("path", jstr "/static/path")])
    = Ok (jstr "/static/path") /\
  _get_request_path
    (mk_event [("resource", jstr "{proxy+}");
               ("pathParameters", mk_dict [("proxy", SStr "test/path")]);
               ("path", jstr "/test/path")])
    = Ok (jstr "/test/path").
Proof. split; vm_compute; reflexivity. Qed.

Example test_api_gateway_path_variations :
  version <$> ApigwPath_init
    (mk_event [("version", jstr "2.0"); ("path", jstr "/test"); ("headers", mk_dict [])])
    = Ok (jstr "2.0") /\
  version <$> ApigwPath_init
    (mk_event [("path", jstr "/test"); ("headers", mk_dict [])])
    = Ok jnone.
Proof. split; vm_compute; reflexivity. Qed.

(** [testApigwPath]: the fields and the prefix for its eight events. *)
Example testApigwPath :
  let fields p := (path p, apigw_stage p, api_prefix p, path_mapping p, prefix p) in
  fields <$> ApigwPath_init
    (mk_event [("path", jstr "/test/1234/pix"); ("headers", mk_dict [])])
    = Ok (jstr "/test/1234/pix", SStr "", "", "", "") /\
  fields <$> ApigwPath_init
    (mk_event [("resource", jstr "/"); ("path", jstr "/test/1234/pix");
               ("headers", mk_dict [])])
    = Ok (jstr "/test/1234/pix", SStr "", "", "", "") /\
  fields <$> ApigwPath_init
    (mk_event [("resource", jstr "/{proxy+}");
               ("pathParameters", mk_dict [("proxy", SStr "test/1234/pix")]);
               ("path", jstr "/test/1234/pix"); ("headers", mk_dict [])])
    = Ok (jstr "/test/1234/pix", SStr "", "", "", "") /\
  fields <$> ApigwPath_init
    (mk_event [("resource", jstr "/api/{proxy+}");
               ("pathParameters", mk_dict [("proxy", SStr "test/1234/pix")]);
               ("path", jstr "/api/test/1234/pix"); ("headers", mk_dict [])])
    = Ok (jstr "/test/1234/pix", SStr "", "/api", "", "/api") /\
  fields <$> ApigwPath_init ev_base_path
    = Ok (jstr "/test/1234/pix", SStr "", "/api", "/prefix", "/prefix/api") /\
  fields <$> ApigwPath_init
    (mk_event [("resource", jstr "/api/{proxy+}");
               ("pathParameters", mk_dict [("proxy", SStr "test/1234/pix")]);
               ("path", jstr "/prefix/api/test/1234/pix");
               ("headers", mk_dict [("host", managed_host)]);
               ("requestContext", mk_dict [("stage", SStr "production")])])
    = Ok (jstr "/test/1234/pix", SStr "production", "/api", "", "/production/api") /\
  fields <$> ApigwPath_init
    (mk_event [("version", jstr "1.0"); ("resource", jstr "/{proxy+}");
               ("pathParameters", mk_dict [("proxy", SStr "test/1234/pix")]);
               ("path", jstr "test/1234/pix");
               ("headers", mk_dict [("host", managed_host)]);
               ("requestContext", mk_dict [("stage", SStr "$default")])])
    = Ok (jstr "/test/1234/pix", SStr "$default", "", "", "") /\
  fields <$> ApigwPath_init
    (mk_event [("version", jstr "1.0"); ("resource", jstr "/{proxy+}");
               ("pathParameters", mk_dict [("proxy", SStr "test/1234/pix")]);
               ("path", jstr "test/1234/pix");
               ("headers", mk_dict [("host", managed_host)]);
               ("requestContext", mk_dict [("stage", SStr "production")])])
    = Ok (jstr "/test/1234/pix", SStr "production", "", "", "/production").
Proof. repeat split; vm_compute; reflexivity. Qed.

(** * Further properties

    Properties of the functions that the statements above leave out. *)

(** ** Substrings *)

Lemma strip_prefix_inv (p s r : string) : Str.strip_prefix p s = Some r -> s = p +:+ r.
Proof.
  revert s. induction p as [|a p IH]; intros s H.
  - simpl in H. injection H as ->. reflexivity.
  - destruct s as [|b s]; [discriminate H|]. simpl in H.
    destruct (Ascii.eqb_spec a b) as [->|]; [|discriminate H].
    rewrite app_cons, (IH _ H). reflexivity.
Qed.

Lemma contains_occurs (sub s : string) : Str.contains sub s = true <-> occurs sub s.
Proof.
  split.
  - induction s as [|c s IH]; cbn [Str.contains].
    + destruct (Str.strip_prefix sub "") as [r|] eqn:E; [|discriminate].
      intros _. exists "", r. apply strip_prefix_inv in E. exact E.
    + destruct (Str.strip_prefix sub (String c s)) as [r|] eqn:E.
      * intros _. exists "", r. apply strip_prefix_inv in E. exact E.
      * intros H. destruct (IH H) as (pre & post & ->).
        exists (String c pre), post. reflexivity.
  - intros (pre & post & ->). induction pre as [|c pre IH].
    + rewrite app_nil_l. destruct (sub +:+ post) eqn:E; cbn [Str.contains];
        rewrite <- E, strip_prefix_app; reflexivity.
    + rewrite app_cons. cbn [Str.contains].
      destruct (Str.strip_prefix sub _); [reflexivity|exact IH].
Qed.

(** ** Stage detection *)

(** X1. [_get_apigw_stage] reads the forwarded host when there is one,
    else the host.  When that text holds both [.execute-api.] and
    [.amazonaws.com], somewhere and in any order, the answer is the
    stage of the request context (empty when it has none) and an event
    without request context raises [KeyError]; for any other host the
    answer is empty and the request context is not read. *)
Theorem apigw_stage_by_host (event : gmap string jval) (headers : gmap string scalar)
    (h : string) :
  as_dict (default (JDict ∅) (event !! "headers")) = Ok headers ->
  host_header headers = SStr h ->
  (managed h -> _get_apigw_stage event = context_stage event) /\
  (managed h -> event !! "requestContext" = None ->
     _get_apigw_stage event = Raise (KeyError "requestContext")) /\
  (~ managed h -> _get_apigw_stage event = Ok (SStr "")).
Proof.
  intros Hh Hhost. unfold _get_apigw_stage. rewrite Hh. cbn [mbind result_bind].
  fold (host_header headers). rewrite Hhost. cbn [contains_in mbind result_bind].
  assert (forall b : bool, (if b then Ok (Str.contains ".amazonaws.com" h) else Ok false)
                           = Ok (b && Str.contains ".amazonaws.com" h)) as E
    by (intros []; reflexivity).
  rewrite E. cbn [mbind result_bind].
  assert (Str.contains ".execute-api." h && Str.contains ".amazonaws.com" h = true
          <-> managed h) as Hm.
  { rewrite andb_true_iff, !contains_occurs. reflexivity. }
  split; [|split].
  - intros M. rewrite (proj2 Hm M). reflexivity.
  - intros M Hc. rewrite (proj2 Hm M). unfold getitem. rewrite Hc. reflexivity.
  - intros M. destruct (_ && _); [|reflexivity]. exfalso. apply M, Hm. reflexivity.
Qed.

Lemma apigw_stage_by_host_witness :
  _get_apigw_stage
    (mk_event [("headers", mk_dict [("host", managed_host);
                                    ("x-forwarded-host", SStr "example.com")]);
               ("requestContext", mk_dict [("stage", SStr "production")])])
    = Ok (SStr "") /\
  _get_apigw_stage (mk_event [("headers", mk_dict [("host", managed_host)])])
    = Raise (KeyError "requestContext").
Proof.
  split.
  - refine (proj2 (proj2 (apigw_stage_by_host
              (mk_event [("headers", mk_dict [("host", managed_host);
                                              ("x-forwarded-host", SStr "example.com")]);
                         ("requestContext", mk_dict [("stage", SStr "production")])])
              _ "example.com" eq_refl eq_refl)) _).
    intros [H _]. apply contains_occurs in H. discriminate H.
  - refine (proj1 (proj2 (apigw_stage_by_host
              (mk_event [("headers", mk_dict [("host", managed_host)])])
              _ _ eq_refl eq_refl)) _ eq_refl).
    split; apply contains_occurs; reflexivity.
Defined.

(** ** The path information *)

Lemma rstrip_last chars s t c :
  Str.rstrip chars s = t +:+ String c "" -> Str.mem c chars = false.
Proof.
  revert t. induction s as [|a s IH]; intros t H.
  - destruct t; discriminate H.
  - cbn [Str.rstrip] in H. destruct (Str.rstrip chars s) as [|b r] eqn:E.
    + destruct (Str.mem a chars) eqn:Ha; [destruct t; discriminate H|].
      destruct t as [|x [|y t]]; try discriminate H. injection H as <-. exact Ha.
    + destruct t as [|x t]; [discriminate H|]. injection H as _ H.
      apply (IH t). exact H.
Qed.

Lemma replace_whole (o : ascii) (old' new : string) :
  Str.replace_go (String o old') new (String o old') 0 = new.
Proof.
  rewrite (replace_go_hit o old' new o old' "")
    by (rewrite <- (app_nil_r (String o old')) at 2; apply strip_prefix_app).
  rewrite <- (app_nil_r old') at 2. rewrite replace_go_skip. cbn. apply app_nil_r.
Qed.

(** The text [old] at the end of [m +:+ old], and nowhere before, is the
    only occurrence removed. *)
Lemma replace_only_suffix (old m : string) :
  old <> "" ->
  (forall i, i < String.length m ->
     Str.strip_prefix old (Str.drop i (m +:+ old)) = None) ->
  Str.replace (m +:+ old) old "" = m.
Proof.
  intros Hne. unfold Str.replace. induction m as [|c m IH]; intros H.
  - rewrite app_nil_l. destruct old as [|o old']; [congruence|]. apply replace_whole.
  - rewrite app_cons, replace_go_miss by (apply (H 0); simpl; lia).
    rewrite IH; [reflexivity|]. intros i Hi. apply (H (S i)). simpl. lia.
Qed.

(** X2. The api-prefix of a path information never ends in a slash. *)
Theorem api_prefix_no_trailing_slash (event : gmap string jval) (p : ApigwPath) :
  ApigwPath_init event = Ok p ->
  forall t, api_prefix p <> t +:+ "/".
Proof.
  intros H t E.
  destruct (init_fields _ _ H) as (st & pth & res & pm & _ & _ & _ & _ & ->).
  cbn [api_prefix] in E. apply rstrip_last in E. discriminate E.
Qed.

Lemma api_prefix_no_trailing_slash_witness :
  exists p, ApigwPath_init ev_base_path = Ok p /\ api_prefix p <> "/api" +:+ "/".
Proof.
  exists {| version := jnone; apigw_stage := SStr ""; path := jstr "/test/1234/pix";
            api_prefix := "/api"; path_mapping := "/prefix" |}.
  split; [vm_compute; reflexivity|].
  apply (api_prefix_no_trailing_slash ev_base_path). vm_compute. reflexivity.
Defined.

(** X3. Without a stage, when the raw path of the event is some text
    followed by api-prefix + logical path, and api-prefix + logical path
    occurs nowhere earlier in it, that text is the path mapping and
    prefix + logical path gives the raw path back. *)
Theorem prefix_restores_raw_path (event : gmap string jval) (p : ApigwPath)
    (m lp : string) :
  ApigwPath_init event = Ok p ->
  Py.truthy (apigw_stage p) = false ->
  path p = jstr lp -> lp <> "" ->
  event !! "path" = Some (jstr (m +:+ api_prefix p +:+ lp)) ->
  (forall i, i < String.length m ->
     Str.strip_prefix (api_prefix p +:+ lp)
       (Str.drop i (m +:+ api_prefix p +:+ lp)) = None) ->
  path_mapping p = m /\ prefix p +:+ lp = m +:+ api_prefix p +:+ lp.
Proof.
  intros Hinit Hst Hpath Hlp Hraw Hocc.
  assert (path_mapping p = m) as Hm.
  { destruct (init_fields _ _ Hinit) as (st & pth & res & pm & _ & _ & _ & Hpm & ->).
    cbn in Hst, Hpath, Hraw, Hocc |- *. subst pth. rewrite Hst, Hraw in Hpm.
    cbn in Hpm. apply eqb_false_iff in Hlp. rewrite Hlp in Hpm. cbn in Hpm.
    injection Hpm as <-. apply replace_only_suffix; [|exact Hocc].
    apply eqb_false_iff in Hlp. destruct (Str.rstrip _ _); [exact Hlp|discriminate]. }
  split; [exact Hm|]. unfold prefix. rewrite Hm.
  assert (Py.truthy (apigw_stage p) && negb (bool_decide (apigw_stage p = SStr "$default"))
          = false) as -> by (rewrite Hst; reflexivity).
  destruct m; [reflexivity|]. cbn [String.eqb negb]. apply app_assoc.
Qed.

Lemma prefix_restores_raw_path_witness :
  exists p, ApigwPath_init ev_base_path = Ok p /\
    path_mapping p = "/prefix" /\
    prefix p +:+ "/test/1234/pix" = "/prefix/api/test/1234/pix".
Proof.
  eexists. split; [vm_compute; reflexivity|].
  apply (prefix_restores_raw_path ev_base_path _ "/prefix" "/test/1234/pix" eq_refl);
    try reflexivity; [discriminate|].
  intros i Hi. cbn in Hi.
  do 7 (destruct i as [|i]; [reflexivity|]). lia.
Defined.

(** X4. The URL of the API is scheme, host header and a suffix such that
    the suffix followed by the api-prefix is the prefix of the path
    information; an event without headers raises [KeyError]. *)
Theorem host_prefix (https : bool) (event : gmap string jval) (p : ApigwPath) :
  (forall headers, event !! "headers" = Some (JDict headers) ->
     exists suffix,
       host https event p =
         Ok ((if https then "https" else "http") +:+ "://"
             +:+ Py.str (host_header headers) +:+ suffix) /\
       prefix p = suffix +:+ api_prefix p) /\
  (event !! "headers" = None -> host https event p = Raise (KeyError "headers")).
Proof.
  split.
  - intros headers Hh. unfold host, getitem. rewrite Hh. cbn [mbind result_bind as_dict].
    fold (host_header headers). unfold prefix.
    destruct (Py.truthy (apigw_stage p) && _).
    + eexists. split; [reflexivity|]. norm_app. reflexivity.
    + exists (path_mapping p). split; [reflexivity|].
      destruct (path_mapping p); reflexivity.
  - intros Hh. unfold host, getitem. rewrite Hh. reflexivity.
Qed.

Lemma host_prefix_witness :
  exists suffix,
    host true ev_default_stage float_letter_path =
      Ok ("https" +:+ "://" +:+ Py.str (host_header (list_to_map [("host", managed_host)]))
          +:+ suffix) /\
    prefix float_letter_path = suffix +:+ api_prefix float_letter_path.
Proof.
  exact (proj1 (host_prefix true ev_default_stage float_letter_path)
           (list_to_map [("host", managed_host)]) eq_refl).
Defined.

(** *** Resources with and without a greedy placeholder *)

Lemma proxy_miss_at pos s :
  Str.mem "{" s = false -> Re.match_at proxy_pattern pos s = None.
Proof.
  intros H. destruct s as [|c [|d s]]; [reflexivity| |].
  - unfold Re.match_at, proxy_pattern. cbn [Re.p_re Re.m Re.one_char].
    destruct (Ascii.eqb "/" c); reflexivity.
  - apply proxy_no_match_before. right. exists d, s. split; [reflexivity|].
    cbn in H. apply orb_false_iff in H as [_ H]. apply orb_false_iff in H as [H _].
    rewrite Ascii.eqb_sym. exact H.
Qed.

Lemma mem_tail c d s : Str.mem c (String d s) = false -> Str.mem c s = false.
Proof. cbn. intros H. apply orb_false_iff in H as [_ H]. exact H. Qed.

Lemma proxy_search_plain s :
  Str.mem "{" s = false -> forall pos, Re.search_from proxy_pattern pos s = None.
Proof.
  induction s as [|c s IH]; intros H pos; cbn [Re.search_from];
    rewrite proxy_miss_at by exact H; [reflexivity|].
  apply IH. exact (mem_tail _ _ _ H).
Qed.

Lemma proxy_sub_plain s :
  Str.mem "{" s = false -> forall pos, Re.sub_go proxy_pattern "" pos s 0 = s.
Proof.
  induction s as [|c s IH]; intros H pos; [reflexivity|].
  rewrite sub_go_miss by (apply proxy_miss_at; exact H).
  rewrite IH by exact (mem_tail _ _ _ H). reflexivity.
Qed.

Lemma proxy_sub_greedy pre name :
  Str.mem "{" pre = false ->
  name <> "" -> Str.all not_newline name = true ->
  Re.sub proxy_pattern "" (pre +:+ "/{" +:+ name +:+ "+}") = pre.
Proof.
  intros Hpre Hne Hnl. unfold Re.sub.
  enough (forall pos, Re.sub_go proxy_pattern "" pos (pre +:+ "/{" +:+ name +:+ "+}") 0 = pre)
    as H by apply H.
  induction pre as [|c pre IH]; intros pos.
  - rewrite app_nil_l. rewrite app_cons.
    erewrite sub_go_hit;
      [|rewrite <- app_cons; apply (proxy_match_here pos name Hne Hnl) | cbn [Re.m_end]; lia].
    cbn [Re.m_end]. rewrite app_nil_l.
    replace (pred (pos + String.length name + 4 - pos))
      with (String.length ("{" +:+ name +:+ "+}"))
      by (rewrite !length_app; simpl; lia).
    rewrite <- (app_nil_r ("{" +:+ name +:+ "+}")) at 1.
    rewrite sub_go_skip. reflexivity.
  - rewrite app_cons, sub_go_miss.
    + rewrite IH by exact (mem_tail _ _ _ Hpre). reflexivity.
    + apply proxy_no_match_before. right. destruct pre as [|d pre].
      * rewrite app_nil_l. eexists _, _. split; reflexivity.
      * rewrite app_cons. eexists _, _. split; [reflexivity|].
        apply mem_tail in Hpre. cbn in Hpre. apply orb_false_iff in Hpre as [Hd _].
        rewrite Ascii.eqb_sym. exact Hd.
Qed.

Lemma strip_prefix_longer old s :
  String.length s < String.length old -> Str.strip_prefix old s = None.
Proof.
  revert s. induction old as [|a old IH]; intros s H; [simpl in H; lia|].
  destruct s as [|b s]; [reflexivity|]. cbn [Str.strip_prefix].
  destruct (Ascii.eqb a b); [|reflexivity]. apply IH. simpl in H. lia.
Qed.

Lemma replace_longer old new s :
  String.length s < String.length old -> Str.replace s old new = s.
Proof.
  unfold Str.replace. induction s as [|c s IH]; intros H.
  - cbn [Str.replace_go]. rewrite strip_prefix_longer by exact H. reflexivity.
  - rewrite replace_go_miss by (apply strip_prefix_longer; exact H).
    rewrite IH; [reflexivity|]. simpl in H. lia.
Qed.

(** X5. For a resource [pre/{name+}] and path parameters that hold
    [name], the logical path is [/] followed by the value and the
    api-prefix is [pre] without its trailing slashes. *)
Theorem greedy_resource_path_info (event : gmap string jval) (p : ApigwPath)
    (pre name : string) (d : gmap string scalar) (v : scalar) :
  Str.mem "{" pre = false ->
  name <> "" -> Str.all not_newline name = true ->
  event !! "resource" = Some (jstr (pre +:+ "/{" +:+ name +:+ "+}")) ->
  event !! "pathParameters" = Some (JDict d) -> d !! name = Some v ->
  ApigwPath_init event = Ok p ->
  path p = jstr ("/" +:+ Py.str v) /\ api_prefix p = Str.rstrip "/" pre.
Proof.
  intros Hpre Hne Hnl Hres Hpp Hv Hinit.
  destruct (init_fields _ _ Hinit) as (st & pth & res & pm & _ & Hpath & Hr & _ & ->).
  cbn [path api_prefix].
  rewrite Hres in Hr. injection Hr as <-. rewrite proxy_sub_greedy by assumption.
  split; [|reflexivity].
  destruct (proxy_search_shape pre name Hpre Hne Hnl) as (mt & Hmt & Hname).
  unfold _get_request_path, getitem in Hpath. rewrite Hres in Hpath.
  change (as_subject (default (jstr "/") (Some (jstr (pre +:+ "/{" +:+ name +:+ "+}")))))
    with (Ok (pre +:+ "/{" +:+ name +:+ "+}")) in Hpath.
  cbn [mbind result_bind] in Hpath. rewrite Hmt, Hname, Hpp in Hpath.
  cbn [mbind result_bind as_dict] in Hpath. rewrite Hv in Hpath.
  injection Hpath as <-. reflexivity.
Qed.

Lemma greedy_resource_path_info_witness :
  exists p, ApigwPath_init ev_base_path = Ok p /\
    path p = jstr "/test/1234/pix" /\ api_prefix p = "/api".
Proof.
  eexists. split; [vm_compute; reflexivity|].
  apply (greedy_resource_path_info ev_base_path _ "/api" "proxy"
           (list_to_map [("proxy", SStr "test/1234/pix")]) (SStr "test/1234/pix"));
    try reflexivity. discriminate.
Defined.

(** X6. For a resource without a brace the logical path is the path of
    the event as it is, and the api-prefix is the resource without its
    trailing slashes.  With no stage and a non-empty path, a non-empty
    api-prefix makes the whole raw path the path mapping, so the prefix
    is the raw path followed by the api-prefix; an empty api-prefix
    leaves no path mapping and no prefix. *)
Theorem plain_resource_path_info (event : gmap string jval) (p : ApigwPath)
    (res : string) :
  Str.mem "{" res = false ->
  event !! "resource" = Some (jstr res) ->
  ApigwPath_init event = Ok p ->
  path p = default jnone (event !! "path") /\
  api_prefix p = Str.rstrip "/" res /\
  (forall raw, event !! "path" = Some (jstr raw) -> raw <> "" ->
     Py.truthy (apigw_stage p) = false ->
     (api_prefix p <> "" ->
        path_mapping p = raw /\ prefix p = raw +:+ api_prefix p) /\
     (api_prefix p = "" -> path_mapping p = "" /\ prefix p = "")).
Proof.
  intros Hres Hr Hinit.
  destruct (init_fields _ _ Hinit) as (st & pth & res' & pm & _ & Hpath & Hr' & Hpm & ->).
  cbn [path api_prefix apigw_stage path_mapping].
  rewrite Hr in Hr'. injection Hr' as <-.
  unfold Re.sub in *. rewrite proxy_sub_plain in * by exact Hres.
  unfold _get_request_path in Hpath. rewrite Hr in Hpath.
  change (as_subject (default (jstr "/") (Some (jstr res)))) with (Ok res) in Hpath.
  cbn [mbind result_bind] in Hpath. unfold Re.search in Hpath.
  rewrite proxy_search_plain in Hpath by exact Hres. injection Hpath as <-.
  split; [reflexivity|]. split; [reflexivity|].
  intros raw Hraw Hne Hst. rewrite Hraw, Hst in Hpm. cbn in Hpm.
  apply eqb_false_iff in Hne. rewrite Hne in Hpm. cbn in Hpm. injection Hpm as <-.
  unfold prefix. cbn [path api_prefix apigw_stage path_mapping]. rewrite Hst. cbn [andb].
  split.
  - intros Hap. rewrite replace_longer.
    + rewrite Hne. auto.
    + rewrite length_app. destruct (Str.rstrip "/" res); [congruence|simpl; lia].
  - intros ->. rewrite app_nil_l. unfold Str.replace.
    destruct raw as [|c raw]; [discriminate Hne|]. rewrite replace_whole. auto.
Qed.

Lemma plain_resource_path_info_witness :
  exists p,
    ApigwPath_init (mk_event [("resource", jstr "/users"); ("path", jstr "/users");
                              ("headers", mk_dict [])]) = Ok p /\
    path_mapping p = "/users" /\ prefix p = "/users/users".
Proof.
  eexists. split; [vm_compute; reflexivity|].
  refine (proj1 (proj2 (proj2 (plain_resource_path_info
            (mk_event [("resource", jstr "/users"); ("path", jstr "/users");
                       ("headers", mk_dict [])]) _ "/users" eq_refl eq_refl eq_refl))
            "/users" eq_refl _ eq_refl) _); discriminate.
Defined.

(** ** The response builder *)

Section ResponseFacts.

Context (compress : Z -> list Byte.byte -> list Byte.byte)
        (b64encode_text : list Byte.byte -> string)
        (utf8 : string -> list Byte.byte)
        (json_dumps : string -> string -> string).

Implicit Types (r : ResponseObj) (msg : Message).

Lemma finish_fields r headers response_body b64 ttl cc msg :
  finish b64encode_text r headers response_body b64 ttl cc = Ok msg ->
  msg_statusCode msg = ro_status_code r /\
  (forall key, key <> "Cache-Control" -> msg_headers msg !! key = headers !! key) /\
  msg_headers msg !! "Cache-Control" =
    match ttl_set ttl, text_set cc with
    | Some z, _ =>
        Some (if is_ok (ro_status_code r) then "max-age=" +:+ str_int z else "no-cache")
    | None, Some c => Some (if is_ok (ro_status_code r) then c else "no-cache")
    | None, None => headers !! "Cache-Control"
    end /\
  msg_isBase64Encoded msg =
    (bool_decide (ro_content_type r ∈ BINARY_TYPES) || negb (is_str response_body)) && b64 /\
  (msg_isBase64Encoded msg = true -> is_str (msg_body msg) = true) /\
  (msg_isBase64Encoded msg = false -> msg_body msg = response_body).
Proof.
  unfold finish. intros H.
  assert (forall h b e, Ok {| msg_headers := h; msg_statusCode := ro_status_code r;
                              msg_isBase64Encoded := b; msg_body := e |} = Ok msg ->
            msg_headers msg = h /\ msg_statusCode msg = ro_status_code r /\
            msg_isBase64Encoded msg = b /\ msg_body msg = e) as Hinv
    by (intros h b e [= <-]; auto).
  destruct ((bool_decide (ro_content_type r ∈ BINARY_TYPES) || negb (is_str response_body))
            && b64) eqn:Hb.
  - apply bind_Ok in H as (enc & _ & H).
    apply Hinv in H as (Hh & Hs & Hf & He). rewrite Hh, Hs, Hf, He.
    split; [reflexivity|]. split.
    { intros key Hk. destruct (ttl_set ttl), (text_set cc);
        rewrite ?lookup_insert_ne by congruence; reflexivity. }
    split.
    { destruct (ttl_set ttl), (text_set cc); rewrite ?lookup_insert_eq; reflexivity. }
    repeat split; intros; try reflexivity; discriminate.
  - apply Hinv in H as (Hh & Hs & Hf & He). rewrite Hh, Hs, Hf, He.
    split; [reflexivity|]. split.
    { intros key Hk. destruct (ttl_set ttl), (text_set cc);
        rewrite ?lookup_insert_ne by congruence; reflexivity. }
    split.
    { destruct (ttl_set ttl), (text_set cc); rewrite ?lookup_insert_eq; reflexivity. }
    repeat split; intros; try reflexivity; discriminate.
Qed.

(** What [response] hands to its tail, for a compression that
    [RouteEntry] accepts. *)
Lemma response_supported r cors ms a compression b64 ttl cc :
  supported compression ->
  API_response compress b64encode_text utf8 json_dumps r cors ms (SStr a)
               compression b64 ttl cc =
  finish b64encode_text r
    ((if compresses compression a then <["Content-Encoding" := compression]> else id)
       ((if cors then cors_headers ms else id)
          (<["Content-Type" := ro_content_type r]> (default ∅ (ro_headers r)))))
    (if compresses compression a
     then BBytes (compress (wbits compression) (as_bytes utf8 (ro_body r)))
     else ro_body r)
    b64 ttl cc.
Proof.
  intros Hs. unfold supported in Hs. unfold compresses.
  repeat (apply elem_of_cons in Hs as [->|Hs]); [| | | |inversion Hs];
    unfold API_response;
    cbn [String.eqb Ascii.eqb Bool.eqb negb andb contains_in mbind result_bind];
    try (destruct (Str.contains _ a)); destruct cors; reflexivity.
Qed.

Lemma cors_headers_other ms (headers : gmap string string) key :
  key <> "Access-Control-Allow-Origin" -> key <> "Access-Control-Allow-Methods" ->
  key <> "Access-Control-Allow-Credentials" ->
  cors_headers ms headers !! key = headers !! key.
Proof.
  intros H1 H2 H3. unfold cors_headers.
  rewrite !lookup_insert_ne by congruence. reflexivity.
Qed.

(** X7. For a compression that a route may carry and a response that
    is answered: the message has the status of the response; its
    [Content-Type] is the content type of the response, whatever the
    response's own headers say; with [cors] the three CORS headers are
    set, the allowed methods joined by commas; when the body is
    compressed [Content-Encoding] names the compression, and when it is
    not the [Content-Encoding] of the response itself, if any, is left
    as it is; and every header of the response that [response] does
    not write is kept. *)
Theorem response_headers r cors ms a compression b64 ttl cc msg :
  supported compression ->
  API_response compress b64encode_text utf8 json_dumps r cors ms (SStr a)
               compression b64 ttl cc = Ok msg ->
  msg_statusCode msg = ro_status_code r /\
  msg_headers msg !! "Content-Type" = Some (ro_content_type r) /\
  (cors = true ->
     msg_headers msg !! "Access-Control-Allow-Origin" = Some "*" /\
     msg_headers msg !! "Access-Control-Allow-Methods" = Some (Str.join "," ms) /\
     msg_headers msg !! "Access-Control-Allow-Credentials" = Some "true") /\
  (compresses compression a = true ->
     msg_headers msg !! "Content-Encoding" = Some compression) /\
  (compresses compression a = false ->
     msg_headers msg !! "Content-Encoding" =
       default ∅ (ro_headers r) !! "Content-Encoding") /\
  (forall key, passive key ->
     msg_headers msg !! key = default ∅ (ro_headers r) !! key).
Proof.
  intros Hs H. rewrite response_supported in H by exact Hs.
  apply finish_fields in H as (Hst & Hh & _).
  split; [exact Hst|]. split; [|split; [|split; [|split]]].
  - rewrite Hh by discriminate.
    destruct (compresses compression a), cors; cbv beta iota; unfold id, cors_headers;
      rewrite ?lookup_insert_ne by discriminate; apply lookup_insert_eq.
  - intros ->. rewrite !Hh by discriminate.
    destruct (compresses compression a); cbv beta iota; unfold id, cors_headers;
      repeat split;
      rewrite ?lookup_insert_ne by discriminate; apply lookup_insert_eq.
  - intros Hc. rewrite Hh by discriminate. rewrite Hc. apply lookup_insert_eq.
  - intros Hc. rewrite Hh by discriminate. rewrite Hc.
    destruct cors; cbv beta iota; unfold id, cors_headers;
      rewrite !lookup_insert_ne by discriminate; reflexivity.
  - intros key Hp. unfold passive in Hp.
    assert (key <> "Cache-Control") by (intros ->; apply Hp, (bool_decide_unpack _); vm_compute; exact I).
    assert (key <> "Content-Type") by (intros ->; apply Hp, (bool_decide_unpack _); vm_compute; exact I).
    assert (key <> "Content-Encoding") by (intros ->; apply Hp, (bool_decide_unpack _); vm_compute; exact I).
    assert (key <> "Access-Control-Allow-Origin") by (intros ->; apply Hp, (bool_decide_unpack _); vm_compute; exact I).
    assert (key <> "Access-Control-Allow-Methods") by (intros ->; apply Hp, (bool_decide_unpack _); vm_compute; exact I).
    assert (key <> "Access-Control-Allow-Credentials") by (intros ->; apply Hp, (bool_decide_unpack _); vm_compute; exact I).
    rewrite Hh by assumption.
    destruct (compresses compression a), cors; cbv beta iota; unfold id, cors_headers;
      rewrite !lookup_insert_ne by congruence; reflexivity.
Qed.

(** X8. The [Cache-Control] of an answered response: a non-zero [ttl]
    gives [max-age=ttl] and goes before [cache_control]; without it a
    non-empty [cache_control] is used; a response whose status is not
    [OK] gets [no-cache] in both cases; with neither, the header of the
    response itself, if any, is left as it is. *)
Theorem response_cache_control r cors ms a compression b64 ttl cc msg :
  supported compression ->
  API_response compress b64encode_text utf8 json_dumps r cors ms (SStr a)
               compression b64 ttl cc = Ok msg ->
  (forall z, ttl = Some z -> z <> 0%Z ->
     msg_headers msg !! "Cache-Control" =
       Some (if is_ok (ro_status_code r) then "max-age=" +:+ str_int z else "no-cache")) /\
  (forall c, ttl = None \/ ttl = Some 0%Z -> cc = Some c -> c <> "" ->
     msg_headers msg !! "Cache-Control" =
       Some (if is_ok (ro_status_code r) then c else "no-cache")) /\
  (ttl = None \/ ttl = Some 0%Z -> cc = None \/ cc = Some "" ->
     msg_headers msg !! "Cache-Control" = default ∅ (ro_headers r) !! "Cache-Control").
Proof.
  intros Hs H. rewrite response_supported in H by exact Hs.
  apply finish_fields in H as (_ & _ & Hc & _). rewrite Hc. clear Hc.
  split; [|split].
  - intros z -> Hz. cbn [ttl_set]. apply Z.eqb_neq in Hz. rewrite Hz. reflexivity.
  - intros c Ht -> Hc. assert (ttl_set ttl = None) as -> by (destruct Ht as [->| ->]; reflexivity).
    cbn [text_set]. apply eqb_false_iff in Hc. rewrite Hc. reflexivity.
  - intros Ht Hc. assert (ttl_set ttl = None) as -> by (destruct Ht as [->| ->]; reflexivity).
    assert (text_set cc = None) as -> by (destruct Hc as [->| ->]; reflexivity).
    destruct (compresses compression a), cors; cbv beta iota; unfold id, cors_headers;
      rewrite !lookup_insert_ne by discriminate; reflexivity.
Qed.

(** X9. The body of an answered response, for a compression that a
    route may carry.  The message is flagged as base64 exactly when
    [b64encode] is asked for and the content type is a binary one, or
    the body is bytes, or the body is compressed; a flagged body is a
    [str]; an unflagged body is the body of the response, or its
    compressed bytes.  A [str] body under a binary content type with
    [b64encode] and no compression is not answered: [TypeError]. *)
Theorem response_body_encoding r cors ms a compression b64 ttl cc :
  supported compression ->
  (forall msg,
     API_response compress b64encode_text utf8 json_dumps r cors ms (SStr a)
                  compression b64 ttl cc = Ok msg ->
     (msg_isBase64Encoded msg = true <->
        b64 = true /\
        (ro_content_type r ∈ BINARY_TYPES \/ is_str (ro_body r) = false
         \/ compresses compression a = true)) /\
     (msg_isBase64Encoded msg = true -> is_str (msg_body msg) = true) /\
     (msg_isBase64Encoded msg = false ->
        msg_body msg =
          if compresses compression a
          then BBytes (compress (wbits compression) (as_bytes utf8 (ro_body r)))
          else ro_body r)) /\
  (forall s, b64 = true -> ro_content_type r ∈ BINARY_TYPES -> ro_body r = BStr s ->
     compresses compression a = false ->
     API_response compress b64encode_text utf8 json_dumps r cors ms (SStr a)
                  compression b64 ttl cc
       = Raise (TypeError "a bytes-like object is required, not 'str'")).
Proof.
  intros Hs. rewrite response_supported by exact Hs. split.
  - intros msg H. apply finish_fields in H as (_ & _ & _ & Hf & Hstr & Hraw).
    split; [|split; [exact Hstr|exact Hraw]].
    rewrite Hf, andb_true_iff, orb_true_iff, bool_decide_eq_true, negb_true_iff.
    destruct (compresses compression a); cbn [is_str]; intuition congruence.
  - intros s -> Hct Hbody ->. unfold finish. rewrite Hbody.
    rewrite bool_decide_eq_true_2 by exact Hct. reflexivity.
Qed.

(** X10. A compression that is none of [gzip], [zlib] and [deflate],
    when its name occurs in the accepted encodings, is not answered:
    [response] calls itself with a [Response] it builds, which has no
    [headers], and raises [AttributeError], whatever the response and
    the other settings are. *)
Theorem response_unsupported_compression r cors ms a compression b64 ttl cc :
  ~ supported compression -> compresses compression a = true ->
  API_response compress b64encode_text utf8 json_dumps r cors ms (SStr a)
               compression b64 ttl cc = Raise AttributeError.
Proof.
  intros Hs Hc. unfold compresses in Hc. apply andb_true_iff in Hc as [Hne Hc].
  apply negb_true_iff in Hne. unfold supported in Hs.
  unfold API_response. cbn [contains_in mbind result_bind].
  rewrite Hne, Hc. cbn [mbind result_bind].
  assert (forall t, t ∈ [""; "gzip"; "zlib"; "deflate"] -> String.eqb compression t = false)
    as Hn.
  { intros t Ht. apply eqb_false_iff. intros ->. apply Hs, Ht. }
  rewrite !Hn by (apply (bool_decide_unpack _); vm_compute; exact I).
  reflexivity.
Qed.

End ResponseFacts.

Lemma response_headers_witness :
  exists msg,
    API_response (fun _ b => b) (fun _ => "") (fun _ => []) (fun _ v => v)
      {| ro_status_code := OK; ro_content_type := "text/plain"; ro_body := BStr "hey";
         ro_headers := Some {["Content-Type" := "text/html"]} |}
      true ["GET"; "POST"] (SStr "gzip, deflate") "gzip" false None None = Ok msg /\
    msg_headers msg !! "Content-Type" = Some "text/plain" /\
    msg_headers msg !! "Access-Control-Allow-Methods" = Some "GET,POST" /\
    msg_headers msg !! "Content-Encoding" = Some "gzip".
Proof.
  eexists. split; [reflexivity|].
  destruct (response_headers (fun _ b => b) (fun _ => "") (fun _ => []) (fun _ v => v)
              {| ro_status_code := OK; ro_content_type := "text/plain"; ro_body := BStr "hey";
                 ro_headers := Some {["Content-Type" := "text/html"]} |}
              true ["GET"; "POST"] "gzip, deflate" "gzip" false None None _
              ltac:(apply (bool_decide_unpack _); vm_compute; exact I) eq_refl)
    as (_ & Hct & Hcors & Hce & _ & _).
  split; [exact Hct|]. split; [exact (proj1 (proj2 (Hcors eq_refl)))|exact (Hce eq_refl)].
Defined.

Lemma response_cache_control_witness :
  exists msg,
    API_response (fun _ b => b) (fun _ => "") (fun _ => []) (fun _ v => v)
      {| ro_status_code := BAD_REQUEST; ro_content_type := "text/plain";
         ro_body := BStr "hey"; ro_headers := None |}
      false [] (SStr "") "" false (Some 300%Z) (Some "public") = Ok msg /\
    msg_headers msg !! "Cache-Control" = Some "no-cache".
Proof.
  eexists. split; [reflexivity|].
  refine (proj1 (response_cache_control (fun _ b => b) (fun _ => "") (fun _ => [])
            (fun _ v => v)
            {| ro_status_code := BAD_REQUEST; ro_content_type := "text/plain";
               ro_body := BStr "hey"; ro_headers := None |}
            false [] "" "" false (Some 300%Z) (Some "public") _
            ltac:(apply (bool_decide_unpack _); vm_compute; exact I) eq_refl)
            300%Z eq_refl _).
  discriminate.
Defined.

Lemma response_body_encoding_witness :
  API_response (fun _ b => b) (fun _ => "") (fun _ => []) (fun _ v => v)
    {| ro_status_code := OK; ro_content_type := "image/png"; ro_body := BStr "hey";
       ro_headers := None |}
    false [] (SStr "") "" true None None
  = Raise (TypeError "a bytes-like object is required, not 'str'").
Proof.
  refine (proj2 (response_body_encoding (fun _ b => b) (fun _ => "") (fun _ => [])
            (fun _ v => v)
            {| ro_status_code := OK; ro_content_type := "image/png"; ro_body := BStr "hey";
               ro_headers := None |}
            false [] "" "" true None None
            ltac:(apply (bool_decide_unpack _); vm_compute; exact I))
            "hey" eq_refl _ eq_refl eq_refl).
  apply (bool_decide_unpack _). vm_compute. exact I.
Defined.

Lemma response_unsupported_compression_witness :
  API_response (fun _ b => b) (fun _ => "") (fun _ => []) (fun _ v => v)
    {| ro_status_code := OK; ro_content_type := "text/plain"; ro_body := BStr "hey";
       ro_headers := None |}
    true ["GET"] (SStr "gzip, br") "br" false None None
  = Raise AttributeError.
Proof.
  refine (response_unsupported_compression (fun _ b => b) (fun _ => "") (fun _ => [])
            (fun _ v => v) _ true ["GET"] "gzip, br" "br" false None None _ eq_refl).
  intros H. apply (bool_decide_pack _) in H. vm_compute in H. exact H.
Defined.

(** ** The dispatcher and its answers *)

Lemma foldl_insert_notin {K} `{Countable K} {V A} (key : A -> K) (val : A -> V)
    (l : list A) :
  forall (d : gmap K V) k,
    k ∉ key <$> l ->
    foldl (fun d a => <[key a := val a]> d) d l !! k = d !! k.
Proof.
  induction l as [|a l IH]; intros d k Hk; [reflexivity|].
  cbn [foldl]. rewrite fmap_cons in Hk. apply not_elem_of_cons in Hk as [Hne Hk].
  rewrite IH by exact Hk. apply lookup_insert_ne. congruence.
Qed.

Lemma foldl_insert_in {K} `{Countable K} {V A} (key : A -> K) (val : A -> V)
    (l : list A) :
  forall (d : gmap K V) a,
    NoDup (key <$> l) -> a ∈ l ->
    foldl (fun d a => <[key a := val a]> d) d l !! key a = Some (val a).
Proof.
  induction l as [|a0 l IH]; intros d a Hnd Ha; [inversion Ha|].
  rewrite fmap_cons in Hnd. apply NoDup_cons in Hnd as [Hnotin Hnd].
  cbn [foldl]. apply elem_of_cons in Ha as [->|Ha].
  - rewrite foldl_insert_notin by exact Hnotin. apply lookup_insert_eq.
  - apply IH; assumption.
Qed.

Lemma foldl_insert_inv {K} `{Countable K} {V A} (key : A -> K) (val : A -> V)
    (l : list A) :
  forall (d : gmap K V) k v,
    foldl (fun d a => <[key a := val a]> d) d l !! k = Some v ->
    (exists a, a ∈ l /\ key a = k /\ val a = v) \/ d !! k = Some v.
Proof.
  induction l as [|a0 l IH]; intros d k v Hl; [right; exact Hl|].
  cbn [foldl] in Hl. apply IH in Hl as [(a & Ha & Hk & Hv)|Hl].
  - left. exists a. split; [right; exact Ha|auto].
  - destruct (decide (key a0 = k)) as [E|E].
    + rewrite <- E, lookup_insert_eq in Hl. injection Hl as <-.
      left. exists a0. split; [left|auto].
    + rewrite lookup_insert_ne in Hl by exact E. right. exact Hl.
Qed.

Lemma foldl_insert_some {K} `{Countable K} {V A} (key : A -> K) (val : A -> V)
    (l : list A) :
  forall (d : gmap K V) k,
    k ∈ key <$> l ->
    is_Some (foldl (fun d a => <[key a := val a]> d) d l !! k).
Proof.
  induction l as [|a0 l IH]; intros d k Hk; [inversion Hk|].
  cbn [foldl]. destruct (decide (k ∈ key <$> l)) as [Hin|Hin]; [apply IH; exact Hin|].
  rewrite foldl_insert_notin by exact Hin.
  rewrite fmap_cons in Hk. apply elem_of_cons in Hk as [->|Hk]; [|contradiction].
  rewrite lookup_insert_eq. eauto.
Qed.

(** X11. The keys of the headers are lower-cased by the dispatcher:
    every header of the result comes from a header of the event whose
    name it is in lower case; every header of the event is found under
    its lower-cased name; and when no two names of the event differ in
    case only, it is found there with its own value. *)
Theorem lower_keys_lookup (headers : gmap string scalar) :
  (forall k v, lower_keys headers !! k = Some v ->
     exists k', Py.lower k' = k /\ headers !! k' = Some v) /\
  (forall k' v, headers !! k' = Some v ->
     is_Some (lower_keys headers !! Py.lower k')) /\
  ((forall k1 k2, is_Some (headers !! k1) -> is_Some (headers !! k2) ->
      Py.lower k1 = Py.lower k2 -> k1 = k2) ->
   forall k' v, headers !! k' = Some v -> lower_keys headers !! Py.lower k' = Some v).
Proof.
  unfold lower_keys, dict_of.
  set (l := (fun kv : string * scalar => (Py.lower kv.1, kv.2)) <$> map_to_list headers).
  assert (forall k v, (k, v) ∈ l <-> exists k', Py.lower k' = k /\ headers !! k' = Some v)
    as Hl.
  { intros k v. unfold l. rewrite list_elem_of_fmap. split.
    - intros ([k' v'] & [= -> ->] & Hin). apply elem_of_map_to_list in Hin. eauto.
    - intros (k' & <- & Hk). exists (k', v). split; [reflexivity|].
      apply elem_of_map_to_list. exact Hk. }
  split; [|split].
  - intros k v H.
    apply (foldl_insert_inv fst snd) in H as [([k0 v0] & Ha & Hk & Hv)|H];
      [|rewrite lookup_empty in H; discriminate H].
    cbn in Hk, Hv. subst. apply Hl. exact Ha.
  - intros k' v Hk.
    apply (foldl_insert_some fst snd). apply list_elem_of_fmap.
    exists (Py.lower k', v). split; [reflexivity|]. apply Hl. eauto.
  - intros Hinj k' v Hk.
    apply (foldl_insert_in fst snd l ∅ (Py.lower k', v)); [|apply Hl; eauto].
    unfold l. rewrite <- list_fmap_compose.
    apply NoDup_fmap_2_strong; [|apply NoDup_map_to_list].
    intros [k1 v1] [k2 v2] H1 H2 E. cbn in E.
    apply elem_of_map_to_list in H1, H2.
    assert (k1 = k2) as -> by (apply Hinj; eauto). congruence.
Qed.

Lemma lower_keys_lookup_witness :
  lower_keys {["Accept-Encoding" := SStr "gzip"]} !! "accept-encoding" = Some (SStr "gzip").
Proof.
  refine (proj2 (proj2 (lower_keys_lookup {["Accept-Encoding" := SStr "gzip"]})) _
            "Accept-Encoding" (SStr "gzip") eq_refl).
  intros k1 k2 [v1 H1] [v2 H2] _.
  apply lookup_singleton_Some in H1 as [<- _], H2 as [<- _]. reflexivity.
Defined.

Section DispatchFacts.

Context (Message : Type)
        (response : Response -> option (RouteEntry * scalar) -> result Message)
        (json_dumps : string -> string -> string)
        (exn_str : exn -> string)
        (env_token : option string)
        (b64decode : jval -> result string)
        (repr_dict : gmap string scalar -> string).

(** What is left of [__call__] once the path is resolved. *)
Lemma call_at_lookup routes event headers request_path :
  resolved event headers request_path ->
  __call__ Message response json_dumps exn_str env_token b64decode repr_dict routes event =
  (http_method ← getitem event "httpMethod";
   route_entry ← _url_matching routes (path request_path) http_method;
   match route_entry with
   | None =>
       response (error_response json_dumps BAD_REQUEST "errorMessage"
                   ("No view function for: " +:+ jval_str repr_dict http_method +:+ " - "
                    +:+ jval_str repr_dict (path request_path))) None
   | Some route_entry =>
       request_params ← or_empty (event !! "queryStringParameters");
       if token route_entry
          && negb (_validate_token env_token (request_params !! "access_token"))
       then response (error_response json_dumps INTERNAL_SERVER_ERROR "message"
                        "Invalid access token") None
       else
         function_kwargs ← _get_matching_args route_entry (path request_path);
         function_kwargs ←
           with_body b64decode (<["headers" := JDict (lower_keys headers)]> event)
             http_method
             (update_with (delete "access_token" request_params) function_kwargs);
         response (guarded json_dumps exn_str
                     (call_endpoint (endpoint route_entry) function_kwargs))
                  (Some (route_entry,
                         default (SStr "") (lower_keys headers !! "accept-encoding")))
   end).
Proof.
  intros [Hh Hp Hr]. unfold __call__.
  rewrite Hh. cbn [mbind result_bind]. rewrite Hp. cbn [mbind result_bind].
  rewrite Hr. unfold getitem.
  rewrite !lookup_insert_ne by discriminate. reflexivity.
Qed.

(** The path information of an event without a path of its own. *)
Lemma pathless_init event st :
  pathless event ->
  _get_apigw_stage event = Ok st ->
  exists p, ApigwPath_init event = Ok p /\ path p = jnone.
Proof.
  intros [Hpath Hres] Hst. unfold ApigwPath_init. rewrite Hst. cbn [mbind result_bind].
  assert (_get_request_path event = Ok jnone) as ->.
  { unfold _get_request_path. destruct Hres as [->|(res & -> & Hplain)].
    - change (as_subject (default (jstr "/") None)) with (Ok "/").
      cbn [mbind result_bind]. rewrite Hpath. reflexivity.
    - change (as_subject (default (jstr "/") (Some (jstr res)))) with (Ok res).
      cbn [mbind result_bind]. unfold Re.search.
      rewrite proxy_search_plain by exact Hplain. rewrite Hpath. reflexivity. }
  cbn [mbind result_bind].
  assert (exists res, as_subject (default (jstr "") (event !! "resource")) = Ok res)
    as [res ->] by (destruct Hres as [->|(res & -> & _)]; eexists; reflexivity).
  cbn [mbind result_bind jtruthy jnone Py.truthy andb]. rewrite andb_false_r.
  cbn [mbind result_bind]. eexists. split; reflexivity.
Qed.

Lemma with_body_argument event headers http_method kwargs :
  with_body b64decode (<["headers" := JDict (lower_keys headers)]> event) http_method kwargs =
  (b ← body_argument b64decode event http_method;
   Ok (match b with Some v => <[Some "body" := v]> kwargs | None => kwargs end)).
Proof.
  unfold with_body, body_argument, getitem.
  rewrite !lookup_insert_ne by discriminate.
  destruct (method_in http_method _ && _); [|reflexivity].
  destruct (event !! "body") as [raw|]; [|reflexivity]. cbn [mbind result_bind].
  destruct (jtruthy (default jnone (event !! "isBase64Encoded"))); [|reflexivity].
  destruct (b64decode raw); reflexivity.
Qed.

Lemma update_with_lookup (params : gmap string scalar) (kwargs : gmap (option string) pyval) :
  update_with params kwargs !! None = kwargs !! None /\
  forall k, update_with params kwargs !! Some k =
    match params !! k with
    | Some s => Some (of_scalar s)
    | None => kwargs !! Some k
    end.
Proof.
  unfold update_with. split.
  - apply (foldl_insert_notin (fun kv : string * scalar => Some kv.1)
             (fun kv => of_scalar kv.2)).
    intros H. apply list_elem_of_fmap in H as (kv & H & _). discriminate H.
  - intros k. destruct (params !! k) as [s|] eqn:E.
    + apply (foldl_insert_in (fun kv : string * scalar => Some kv.1)
               (fun kv => of_scalar kv.2) _ _ (k, s)).
      * change (NoDup ((Some ∘ fst) <$> map_to_list params)).
        rewrite (list_fmap_compose fst Some). apply NoDup_fmap_2; [|apply NoDup_fst_map_to_list].
        intros x y [= ->]. reflexivity.
      * apply elem_of_map_to_list. exact E.
    + apply (foldl_insert_notin (fun kv : string * scalar => Some kv.1)
               (fun kv => of_scalar kv.2)).
      intros H. apply list_elem_of_fmap in H as ([k' s'] & [= <-] & H).
      apply elem_of_map_to_list in H. congruence.
Qed.

(** X12. The keyword arguments of the handler.  Once a dispatch has
    found its route and passed the token test, the handler is called
    with the arguments read from the path, overridden by the query
    parameters of the same name, but for [access_token], which is never
    passed on from the query; and [body], when the request has one,
    overrides both.  The dispatch ends with [response] applied to what
    the handler returns for these arguments or, when the handler
    raises, to the internal-server-error [Response] built from the
    exception, and to the settings of the route. *)
Theorem handler_keywords routes event headers request_path http_method route
    request_params path_args b :
  reaches_extraction env_token routes event headers request_path http_method
                     route request_params ->
  _get_matching_args route (path request_path) = Ok path_args ->
  body_argument b64decode event http_method = Ok b ->
  exists kwargs,
    __call__ Message response json_dumps exn_str env_token b64decode repr_dict routes event =
      response (guarded json_dumps exn_str (call_endpoint (endpoint route) kwargs))
               (Some (route, default (SStr "") (lower_keys headers !! "accept-encoding"))) /\
    kwargs !! None = path_args !! None /\
    (forall v, b = Some v -> kwargs !! Some "body" = Some v) /\
    (forall k, b = None \/ k <> "body" ->
       kwargs !! Some k =
         if String.eqb k "access_token" then path_args !! Some k
         else match request_params !! k with
              | Some s => Some (of_scalar s)
              | None => path_args !! Some k
              end).
Proof.
  intros Hreach Hargs Hb.
  rewrite (call_at_extraction _ _ _ _ _ _ _ _ _ _ _ _ _ _ Hreach).
  rewrite Hargs. cbn [mbind result_bind].
  rewrite with_body_argument, Hb. cbn [mbind result_bind].
  destruct (update_with_lookup (delete "access_token" request_params) path_args)
    as [Hnone Hsome].
  assert (forall k, update_with (delete "access_token" request_params) path_args !! Some k =
            if String.eqb k "access_token" then path_args !! Some k
            else match request_params !! k with
                 | Some s => Some (of_scalar s)
                 | None => path_args !! Some k
                 end) as Hk.
  { intros k. rewrite Hsome. destruct (String.eqb_spec k "access_token") as [->|Hne].
    - rewrite lookup_delete_eq. reflexivity.
    - rewrite lookup_delete_ne by congruence. reflexivity. }
  eexists. split; [reflexivity|]. destruct b as [v|].
  - split; [rewrite lookup_insert_ne by discriminate; exact Hnone|]. split.
    + intros v' [= <-]. apply lookup_insert_eq.
    + intros k [Hk'|Hk']; [discriminate Hk'|].
      rewrite lookup_insert_ne by congruence. apply Hk.
  - split; [exact Hnone|]. split; [discriminate|]. intros k _. apply Hk.
Qed.

End DispatchFacts.

Lemma handler_keywords_witness :
  exists kwargs,
    __call__ Response (fun r _ => Ok r) (fun _ v => v) (fun _ => "") None
             (fun _ => Ok "") (fun _ => "") [scenario_route]
             (mk_event [("path", jstr "/test/remote/pixel"); ("httpMethod", jstr "GET");
                        ("headers", mk_dict []);
                        ("queryStringParameters",
                         mk_dict [("name", SStr "query"); ("access_token", SStr "t")])])
    = Ok (guarded (fun _ v => v) (fun _ => "")
            (call_endpoint (endpoint scenario_route) kwargs)) /\
    kwargs !! Some "name" = Some (VStr "query") /\
    kwargs !! Some "user" = Some (VStr "remote") /\
    kwargs !! Some "access_token" = None.
Proof.
  destruct (handler_keywords Response (fun r _ => Ok r) (fun _ v => v) (fun _ => "") None
              (fun _ => Ok "") (fun _ => "") [scenario_route]
              (mk_event [("path", jstr "/test/remote/pixel"); ("httpMethod", jstr "GET");
                         ("headers", mk_dict []);
                         ("queryStringParameters",
                          mk_dict [("name", SStr "query"); ("access_token", SStr "t")])])
              ∅
              {| version := jnone; apigw_stage := SStr ""; path := jstr "/test/remote/pixel";
                 api_prefix := ""; path_mapping := "" |}
              (jstr "GET") scenario_route
              (list_to_map [("name", SStr "query"); ("access_token", SStr "t")])
              (dict_of [(Some "user", VStr "remote"); (Some "name", VStr "pixel")])
              None)
    as (kwargs & Hcall & _ & _ & Hk).
  - constructor; vm_compute; reflexivity.
  - vm_compute. reflexivity.
  - reflexivity.
  - exists kwargs. split; [exact Hcall|].
    rewrite !Hk by (left; reflexivity). repeat split; vm_compute; reflexivity.
Defined.

Section ApiCallFacts.

Context (compress : Z -> list Byte.byte -> list Byte.byte)
        (b64encode_text : list Byte.byte -> string)
        (utf8 : string -> list Byte.byte)
        (json_dumps : string -> string -> string)
        (exn_str : exn -> string)
        (env_token : option string)
        (b64decode : jval -> result string)
        (repr_dict : gmap string scalar -> string).

(** X13. An event without a path of its own, with headers that can be
    read: whatever the routes are and whether or not it names a method,
    the dispatcher hands to [response] the [BAD_REQUEST] [Response]
    with the message of a missing path, and nothing else.  That
    [Response] has no [headers], so the call raises [AttributeError]
    and no message is returned. *)
Theorem pathless_request event headers st routes :
  or_empty (event !! "headers") = Ok headers ->
  _get_apigw_stage (<["headers" := JDict (lower_keys headers)]> event) = Ok st ->
  pathless event ->
  (forall (M : Type) (response : Response -> option (RouteEntry * scalar) -> result M),
     __call__ M response json_dumps exn_str env_token b64decode repr_dict routes event
     = response (error_response json_dumps BAD_REQUEST "errorMessage"
                   "Missing or invalid path") None) /\
  API_call compress b64encode_text utf8 json_dumps exn_str env_token b64decode repr_dict
           routes event
  = Raise AttributeError.
Proof.
  intros Hh Hst Hp.
  assert (forall (M : Type) (response : Response -> option (RouteEntry * scalar) -> result M),
            __call__ M response json_dumps exn_str env_token b64decode repr_dict routes event
            = response (error_response json_dumps BAD_REQUEST "errorMessage"
                          "Missing or invalid path") None) as Hcall.
  { intros M response. unfold __call__. rewrite Hh. cbn [mbind result_bind].
    destruct (pathless_init (<["headers" := JDict (lower_keys headers)]> event) st)
      as (p & -> & Hpath); [|exact Hst|].
    - destruct Hp as [Hpath Hres].
      split; rewrite !lookup_insert_ne by discriminate; assumption.
    - cbn [mbind result_bind]. rewrite Hpath. reflexivity. }
  split; [exact Hcall|]. unfold API_call. rewrite Hcall. reflexivity.
Qed.

(** X14. A request whose path is resolved: without [httpMethod] in the
    event the call raises [KeyError]; with a method for which the table
    has no route the dispatcher hands to [response] the [BAD_REQUEST]
    [Response] whose message names the method and the path.  That
    [Response] has no [headers], so the call raises [AttributeError]. *)
Theorem unknown_route routes event headers request_path :
  resolved event headers request_path ->
  (event !! "httpMethod" = None ->
     API_call compress b64encode_text utf8 json_dumps exn_str env_token b64decode
              repr_dict routes event = Raise (KeyError "httpMethod")) /\
  (forall http_method,
     event !! "httpMethod" = Some http_method ->
     _url_matching routes (path request_path) http_method = Ok None ->
     (forall (M : Type) (response : Response -> option (RouteEntry * scalar) -> result M),
        __call__ M response json_dumps exn_str env_token b64decode repr_dict routes event
        = response (error_response json_dumps BAD_REQUEST "errorMessage"
                      ("No view function for: " +:+ jval_str repr_dict http_method
                       +:+ " - " +:+ jval_str repr_dict (path request_path))) None) /\
     API_call compress b64encode_text utf8 json_dumps exn_str env_token b64decode
              repr_dict routes event = Raise AttributeError).
Proof.
  intros Hres. split.
  - intros Hm. unfold API_call. rewrite (call_at_lookup _ _ _ _ _ _ _ _ _ _ _ Hres).
    unfold getitem. rewrite Hm. reflexivity.
  - intros m Hm Hnone.
    assert (forall (M : Type)
                   (response : Response -> option (RouteEntry * scalar) -> result M),
              __call__ M response json_dumps exn_str env_token b64decode repr_dict
                       routes event
              = response (error_response json_dumps BAD_REQUEST "errorMessage"
                            ("No view function for: " +:+ jval_str repr_dict m
                             +:+ " - " +:+ jval_str repr_dict (path request_path))) None)
      as Hcall.
    { intros M response. rewrite (call_at_lookup _ _ _ _ _ _ _ _ _ _ _ Hres).
      unfold getitem. rewrite Hm. cbn [mbind result_bind]. rewrite Hnone. reflexivity. }
    split; [exact Hcall|]. unfold API_call. rewrite Hcall. reflexivity.
Qed.

(** X15. A route that asks for a token.  The token of the query is
    accepted exactly when it is a non-empty text equal to the [TOKEN]
    of the environment.  For any other request to the route the handler
    is not called: the dispatcher hands to [response] the
    [INTERNAL_SERVER_ERROR] [Response] with the message of an invalid
    token; that [Response] has no [headers], so the call raises
    [AttributeError]. *)
Theorem token_route_guarded routes event headers request_path http_method route
    request_params :
  resolved event headers request_path ->
  event !! "httpMethod" = Some http_method ->
  _url_matching routes (path request_path) http_method = Ok (Some route) ->
  token route = true ->
  or_empty (event !! "queryStringParameters") = Ok request_params ->
  (_validate_token env_token (request_params !! "access_token") = true <->
   exists t, t <> "" /\ request_params !! "access_token" = Some (SStr t)
             /\ env_token = Some t) /\
  (_validate_token env_token (request_params !! "access_token") = false ->
   (forall (M : Type) (response : Response -> option (RouteEntry * scalar) -> result M),
      __call__ M response json_dumps exn_str env_token b64decode repr_dict routes event
      = response (error_response json_dumps INTERNAL_SERVER_ERROR "message"
                    "Invalid access token") None) /\
   API_call compress b64encode_text utf8 json_dumps exn_str env_token b64decode
            repr_dict routes event = Raise AttributeError).
Proof.
  intros Hres Hm Hroute Htok Hq. split.
  - unfold _validate_token. split.
    + destruct (request_params !! "access_token") as [[| |t]|]; try discriminate.
      destruct env_token as [e|]; [|discriminate]. intros H.
      apply andb_true_iff in H as [H He]. apply andb_true_iff in H as [Ht _].
      apply String.eqb_eq in He as <-. apply negb_true_iff, eqb_false_iff in Ht.
      exists t. auto.
    + intros (t & Hne & -> & ->). apply eqb_false_iff in Hne.
      rewrite Hne, String.eqb_refl. reflexivity.
  - intros Hv.
    assert (forall (M : Type)
                   (response : Response -> option (RouteEntry * scalar) -> result M),
              __call__ M response json_dumps exn_str env_token b64decode repr_dict
                       routes event
              = response (error_response json_dumps INTERNAL_SERVER_ERROR "message"
                            "Invalid access token") None) as Hcall.
    { intros M response. rewrite (call_at_lookup _ _ _ _ _ _ _ _ _ _ _ Hres).
      unfold getitem. rewrite Hm. cbn [mbind result_bind]. rewrite Hroute.
      cbn [mbind result_bind]. rewrite Hq. cbn [mbind result_bind].
      rewrite Htok, Hv. reflexivity. }
    split; [exact Hcall|]. unfold API_call. rewrite Hcall. reflexivity.
Qed.

End ApiCallFacts.

Lemma pathless_request_witness :
  API_call (fun _ b => b) (fun _ => "") (fun _ => []) (fun _ v => v) (fun _ => "") None
           (fun _ => Ok "") (fun _ => "") [scenario_route]
           (mk_event [("headers", mk_dict [])])
  = Raise AttributeError.
Proof.
  apply (proj2 (pathless_request (fun _ b => b) (fun _ => "") (fun _ => [])
           (fun _ v => v) (fun _ => "") None (fun _ => Ok "") (fun _ => "")
           (mk_event [("headers", mk_dict [])]) ∅ (SStr "") [scenario_route]
           eq_refl ltac:(vm_compute; reflexivity)
           (conj eq_refl (or_introl eq_refl)))).
Defined.

Lemma unknown_route_witness :
  API_call (fun _ b => b) (fun _ => "") (fun _ => []) (fun _ v => v) (fun _ => "") None
           (fun _ => Ok "") (fun _ => "") [] ev_float_letter
  = Raise AttributeError.
Proof.
  refine (proj2 (proj2 (unknown_route (fun _ b => b) (fun _ => "") (fun _ => [])
            (fun _ v => v) (fun _ => "") None (fun _ => Ok "") (fun _ => "")
            [] ev_float_letter ∅ float_letter_path _) (jstr "GET") eq_refl eq_refl)).
  constructor; vm_compute; reflexivity.
Defined.

Lemma token_route_guarded_witness :
  API_call (fun _ b => b) (fun _ => "") (fun _ => []) (fun _ v => v) (fun _ => "")
           (Some "right") (fun _ => Ok "") (fun _ => "") [token_route] ev_secret
  = Raise AttributeError.
Proof.
  refine (proj2 (proj2 (token_route_guarded (fun _ b => b) (fun _ => "") (fun _ => [])
            (fun _ v => v) (fun _ => "") (Some "right") (fun _ => Ok "") (fun _ => "")
            [token_route] ev_secret ∅ secret_path (jstr "GET") token_route
            (list_to_map [("access_token", SStr "guess")]) _ eq_refl _ eq_refl eq_refl)
            _)).
  - constructor; vm_compute; reflexivity.
  - vm_compute. reflexivity.
  - vm_compute. reflexivity.
Defined.

(** ** The placeholders of a template *)

Section PathArgs.

Import Re.

Lemma params_expr_re :
  p_re params_expr =
  RGroup 0 (lit_re "<" (RSeq (RRep (RSet true [IChar ">"]) 0 None) (RChr ">"))).
Proof. reflexivity. Qed.

Lemma params_miss pos s :
  Str.strip_prefix "<" s = None -> match_at params_expr pos s = None.
Proof.
  intros H. unfold match_at. rewrite params_expr_re. cbn [m].
  rewrite m_lit, H. reflexivity.
Qed.

Lemma params_hit pos b rest :
  Str.all not_gt b = true ->
  match_at params_expr pos ("<" +:+ b +:+ String ">" rest) =
  Some {| m_start := pos; m_end := pos + String.length ("<" +:+ b +:+ ">");
          m_text := "<" +:+ b +:+ ">";
          m_caps := [Some ("<" +:+ b +:+ ">")]; m_names := [] |}.
Proof.
  intros Hb. unfold match_at. rewrite params_expr_re. cbn [m].
  rewrite m_lit, strip_prefix_app. cbn [m].
  rewrite rep_loop_one_char with (P := not_gt) by (reflexivity || lia).
  assert (forall s, "<" +:+ b +:+ String ">" s = ("<" +:+ b +:+ ">") +:+ s) as Hassoc.
  { intros s. rewrite !app_assoc. reflexivity. }
  erewrite greedy_skip; [| exact Hb |].
  2:{ cbn [greedy not_gt Ascii.eqb Bool.eqb negb andb or_else Nat.leb m one_char].
      reflexivity. }
  cbn [p_groups params_expr replicate]. f_equal.
  assert (S (pos + String.length "<" + String.length b) - pos
          = String.length ("<" +:+ b +:+ ">")) as Hlen.
  { rewrite !length_app. simpl. lia. }
  rewrite Hlen, (Hassoc rest), take_app_length.
  f_equal. rewrite !length_app. simpl. lia.
Qed.

Lemma params_no_lt text :
  Str.all not_lt text = true ->
  forall pos rest,
    finditer_go params_expr pos (text +:+ rest) 0 =
    finditer_go params_expr (pos + String.length text) rest 0.
Proof.
  induction text as [|c text IH]; intros H pos rest.
  - rewrite app_nil_l. simpl. rewrite Nat.add_0_r. reflexivity.
  - simpl in H. apply andb_true_iff in H as [Hc Ht].
    rewrite app_cons, finditer_go_miss.
    + rewrite (IH Ht). simpl. f_equal. lia.
    + apply params_miss. apply strip_prefix_head_ne.
      unfold not_lt in Hc. apply negb_true_iff in Hc.
      rewrite Ascii.eqb_sym. exact Hc.
Qed.

(** A placeholder whose inside holds no [>] is found whole. *)
Lemma params_tag b pos rest :
  Str.all not_gt b = true ->
  m_text <$> finditer_go params_expr pos (("<" +:+ b +:+ ">") +:+ rest) 0 =
  ("<" +:+ b +:+ ">") ::
  (m_text <$> finditer_go params_expr (pos + String.length ("<" +:+ b +:+ ">")) rest 0).
Proof.
  intros Hb. pose proof (params_hit pos b rest Hb) as Hhit.
  assert (("<" +:+ b +:+ ">") +:+ rest = "<" +:+ b +:+ String ">" rest) as ->
    by (norm_app; reflexivity).
  assert ("<" +:+ b +:+ String ">" rest = String "<" ((b +:+ ">") +:+ rest)) as E1
    by (norm_app; reflexivity).
  rewrite E1 in Hhit |- *. rewrite (finditer_go_hit _ _ _ _ _ Hhit).
  rewrite fmap_cons. cbn [m_text m_end].
  apply (f_equal2 cons); [reflexivity|].
  change ("<" +:+ b +:+ ">") with (String "<" (b +:+ ">")). cbn [String.length].
  replace (pred (pos + S (String.length (b +:+ ">")) - pos))
    with (String.length (b +:+ ">")) by lia.
  rewrite finditer_go_skip. do 2 f_equal. lia.
Qed.

Lemma params_end pos : finditer_go params_expr pos "" 0 = [].
Proof. cbn [finditer_go]. rewrite params_miss by reflexivity. reflexivity. Qed.

(** The inside of a placeholder, between the brackets. *)
Lemma placeholder_inside t :
  wf_tag t ->
  match t with
  | TLit _ => True
  | _ => exists b, render1 t = "<" +:+ b +:+ ">" /\ Str.all not_gt b = true
  end.
Proof.
  destruct t as [text|[ty|] name|p n]; cbn [wf_tag]; [auto|..].
  - intros [[_ Hty] [_ Hn]]. exists (ty +:+ ":" +:+ name).
    split; [unfold render1; norm_app; reflexivity|].
    rewrite all_app. rewrite app_cons, app_nil_l. cbn [Str.all]. rewrite (word_not_gt _ Hty), (word_not_gt _ Hn).
    reflexivity.
  - intros [_ Hn]. exists name. split; [reflexivity|]. apply word_not_gt, Hn.
  - intros (_ & Hp & _ & _ & [_ Hn]). exists ("regex(" +:+ p +:+ "):" +:+ n).
    split; [unfold render1; norm_app; reflexivity|].
    norm_app. cbn [Str.all]. rewrite all_app. cbn [Str.all].
    rewrite Hp, (word_not_gt _ Hn). reflexivity.
Qed.

(** The placeholders that [params_expr] finds in a template are those
    of its segments, in order. *)
Lemma route_args_segments toks :
  Forall wf_tag toks ->
  route_args_of (render toks) = render1 <$> placeholders toks.
Proof.
  unfold route_args_of, finditer. generalize 0 at 1 as pos.
  intros pos H. revert pos.
  induction H as [|t toks Hwf _ IH]; intros pos; cbn [render placeholders].
  - rewrite params_end. reflexivity.
  - pose proof (placeholder_inside t Hwf) as Hin.
    destruct t as [text|ty name|p n].
    + cbn [render1]. cbn [wf_tag] in Hwf.
      rewrite (params_no_lt _ (no_angle_not_lt _ Hwf)). apply IH.
    + destruct Hin as (b & E & Hb). rewrite fmap_cons, E.
      rewrite params_tag by exact Hb. f_equal. apply IH.
    + destruct Hin as (b & E & Hb). rewrite fmap_cons, E.
      rewrite params_tag by exact Hb. f_equal. apply IH.
Qed.

Lemma match_caps arg e cs :
  m (p_re param_pattern) 0 arg [None; None; None; None; None]
    (fun e _ cs => Some (e, cs)) = Some (e, cs) ->
  exists mt, match_ param_pattern arg = Some mt /\
    groupdict mt = {| arg_type := mjoin (cs !! 1); arg_pattern := mjoin (cs !! 3);
                      arg_name := mjoin (cs !! 4) |}.
Proof.
  intros H. unfold match_, match_at.
  change (replicate (p_groups param_pattern) None) with [@None string; None; None; None; None].
  rewrite H. eexists. split; reflexivity.
Qed.

(** What [param_pattern] reads from the text of a placeholder. *)
Lemma groupdict_segment t :
  wf_tag t ->
  match t with
  | TLit _ => True
  | _ => exists mt, match_ param_pattern (render1 t) = Some mt /\ groupdict mt = descriptor t
  end.
Proof.
  destruct t as [text|[ty|] name|p n]; cbn [wf_tag]; [auto|..].
  - intros [Hty Hn]. destruct (param_match_typed ty name Hty Hn) as (e & c0 & H).
    apply match_caps in H. exact H.
  - intros Hn. destruct (param_match_bare name Hn) as (e & H).
    apply match_caps in H. exact H.
  - intros (Hp & _ & Hnl & _ & Hn).
    destruct (param_match_regex p n Hp Hnl Hn) as (e & c0 & c2 & H).
    apply match_caps in H. exact H.
Qed.

(** X16. The descriptors of a route whose template is a sequence of
    literal texts and placeholders: one for each placeholder, in the
    order they are written; [<name>] gives the name alone, [<ty:name>]
    the type and the name, [<regex(p):name>] the type [regex], the
    pattern and the name. *)
Theorem path_args_of_segments (route : RouteEntry) (toks : list segment) :
  Forall wf_tag toks ->
  r_path route = render toks ->
  _get_path_args route = Ok (descriptor <$> placeholders toks).
Proof.
  intros Hwf Hpath. unfold _get_path_args. rewrite Hpath, route_args_segments by exact Hwf.
  clear Hpath. induction Hwf as [|t toks Ht _ IH]; [reflexivity|].
  pose proof (groupdict_segment t Ht) as Hg.
  destruct t as [text|ty name|p n]; cbn [placeholders]; [exact IH|..];
    destruct Hg as (mt & Hmt & Hd);
    rewrite !fmap_cons; cbn [mapM_result]; rewrite Hmt;
    cbn [groupdict_of mbind result_bind]; rewrite IH, Hd; reflexivity.
Qed.

(** X17. [_get_path_args] raises exactly when a placeholder of the
    template, as [params_expr] finds it, is not of the form that
    [param_pattern] reads, and what it raises is [AttributeError]. *)
Theorem path_args_malformed (route : RouteEntry) :
  (_get_path_args route = Raise AttributeError <->
   exists arg, arg ∈ route_args_of (r_path route) /\ match_ param_pattern arg = None) /\
  (forall e, _get_path_args route = Raise e -> e = AttributeError).
Proof.
  unfold _get_path_args. generalize (route_args_of (r_path route)) as args.
  intros args. induction args as [|arg args [IH1 IH2]]; cbn [mapM_result].
  - split; [|discriminate]. split; [discriminate|].
    intros (arg & Hin & _). inversion Hin.
  - destruct (match_ param_pattern arg) as [mt|] eqn:Hmt; cbn [groupdict_of mbind result_bind].
    + destruct (mapM_result _ args) as [l|e'] eqn:Hl; cbn [mbind result_bind].
      * split; [|discriminate]. split; [discriminate|].
        intros (arg' & Hin & Hnone). apply elem_of_cons in Hin as [->|Hin]; [congruence|].
        pose proof (proj2 IH1 (ex_intro _ arg' (conj Hin Hnone))) as Habs.
        discriminate Habs.
      * pose proof (IH2 e' eq_refl) as ->. split.
        -- split; [|reflexivity]. intros _.
           destruct (proj1 IH1 eq_refl) as (arg' & Hin & Hnone).
           exists arg'. split; [right; exact Hin|exact Hnone].
        -- intros e [= <-]. reflexivity.
    + split.
      * split; [|reflexivity]. intros _. exists arg. split; [left|exact Hmt].
      * intros e [= <-]. reflexivity.
Qed.

End PathArgs.

Lemma path_args_of_segments_witness :
  _get_path_args scenario_route =
  Ok [{| arg_type := Some "string"; arg_pattern := None; arg_name := Some "user" |};
      {| arg_type := None; arg_pattern := None; arg_name := Some "name" |}].
Proof.
  apply (path_args_of_segments scenario_route
           [TLit "/test/"; TParam (Some "string") "user"; TLit "/"; TParam None "name"]);
    [|reflexivity].
  repeat constructor; try discriminate; reflexivity.
Defined.

Lemma path_args_malformed_witness :
  _get_path_args (route_of "/<>" "heyyyy") = Raise AttributeError.
Proof.
  apply (proj1 (path_args_malformed (route_of "/<>" "heyyyy"))).
  exists "<>". split; [vm_compute; left|vm_compute; reflexivity].
Defined.

(** ** The parameters of the documentation *)

Example two_patterns_parameters :
  _get_parameters sig_a_b two_patterns_route = Ok [listed_a; listed_b].
Proof. vm_compute. reflexivity. Qed.

Section Parameters.

Implicit Types (store : gmap string (gmap string pyval)) (names : list string)
               (arg : path_arg) (args : list path_arg)
               (endpoint_args : list sig_param).

Lemma list_remove_inv n names names' :
  list_remove (Some n) names = Ok names' -> names ≡ₚ n :: names'.
Proof.
  revert names'. induction names as [|x names IH]; intros names' H; [discriminate H|].
  cbn [list_remove] in H. case_bool_decide as E.
  - injection E as ->. injection H as ->. reflexivity.
  - destruct (list_remove (Some n) names) as [rest|]; [|discriminate H].
    injection H as <-. rewrite (IH rest eq_refl). apply Permutation_swap.
Qed.

Lemma list_remove_elem n names :
  n ∈ names -> exists names', list_remove (Some n) names = Ok names'.
Proof.
  induction names as [|x names IH]; intros H; [inversion H|].
  cbn [list_remove]. case_bool_decide as E; [eauto|].
  apply elem_of_cons in H as [->|H]; [congruence|].
  destruct (IH H) as [rest ->]. eauto.
Qed.

(** A write through a reference into the store. *)
Lemma poke_domain store ty key (v : pyval) ty' :
  is_Some (store !! ty) ->
  is_Some (<[ty := <[key := v]> (default ∅ (store !! ty))]> store !! ty')
  <-> is_Some (store !! ty').
Proof.
  intros Hty. destruct (decide (ty = ty')) as [<-|Hne].
  - rewrite lookup_insert_eq. split; [intros _; exact Hty|eauto].
  - rewrite lookup_insert_ne by exact Hne. reflexivity.
Qed.

Lemma poke_lookup store ty key (v : pyval) ty' key' :
  default ∅ (<[ty := <[key := v]> (default ∅ (store !! ty))]> store !! ty') !! key' =
  if bool_decide (ty' = ty /\ key' = key) then Some v
  else default ∅ (store !! ty') !! key'.
Proof.
  destruct (decide (ty = ty')) as [<-|Hne].
  - rewrite lookup_insert_eq. cbn [from_option id]. destruct (decide (key = key')) as [<-|Hk].
    + rewrite lookup_insert_eq, bool_decide_eq_true_2 by auto. reflexivity.
    + rewrite lookup_insert_ne by exact Hk.
      rewrite bool_decide_eq_false_2 by (intros [_ ?]; congruence). reflexivity.
  - rewrite lookup_insert_ne by exact Hne.
    rewrite bool_decide_eq_false_2 by (intros [? _]; congruence). reflexivity.
Qed.

Lemma path_parameter_inv endpoint_args arg store names p store' names' :
  path_parameter endpoint_args arg (store, names) = Ok (p, (store', names')) ->
  path_round endpoint_args arg p store names store' names'.
Proof.
  unfold path_parameter, lookup_sig. intros H.
  destruct (arg_name arg) as [n|] eqn:Hn; [|discriminate H].
  destruct (list_find _ endpoint_args) as [[i a]|] eqn:Hf; [|discriminate H].
  apply list_find_Some in Hf as (Hi & Ha & _).
  apply list_elem_of_lookup_2 in Hi.
  cbn [mbind result_bind] in H.
  destruct (list_remove (Some n) names) as [names1|] eqn:Hr; [|discriminate H].
  apply list_remove_inv in Hr.
  cbn [mbind result_bind] in H.
  assert (Some <$> names ≡ₚ Some n :: (Some <$> names1)) as Hnames
    by (rewrite Hr; reflexivity).
  assert (forall b, b = no_default a ->
            exists a0, a0 ∈ endpoint_args /\ Some n = Some (sp_name a0) /\
                       b = no_default a0) as Hann
    by (intros b ->; exists a; rewrite Ha; auto).
  unfold no_default in Hann.
  destruct (arg_type arg) as [ty|] eqn:Hty.
  - destruct (store !! ty) as [s|] eqn:Hs; [|discriminate H].
    assert (is_Some (store !! ty)) as Hdom by (rewrite Hs; eauto).
    destruct (String.eqb ty "regex") eqn:Hre.
    + apply String.eqb_eq in Hre. subst ty.
      cbn [write_schema mbind result_bind] in H.
      destruct (sp_default a) as [d|]; cbn [write_schema] in H;
        injection H as <- <- <-; constructor; cbn [po_name po_in po_required po_schema]; rewrite ?Hn;
        try assumption; try reflexivity; try (apply Hann; reflexivity);
        try (intros ty0 E; rewrite Hty in E; injection E as <-;
             split; [reflexivity|assumption]);
        unfold pattern_after; rewrite ?Hty, ?bool_decide_eq_true_2 by reflexivity.
      * intros ty. etransitivity; [apply poke_domain|apply poke_domain; assumption].
        apply poke_domain; assumption.
      * rewrite poke_lookup, poke_lookup.
        rewrite bool_decide_eq_false_2 by (intros [_ ?]; discriminate).
        rewrite bool_decide_eq_true_2 by auto. reflexivity.
      * intros ty. apply poke_domain. assumption.
      * rewrite poke_lookup, bool_decide_eq_true_2 by auto. reflexivity.
    + apply String.eqb_neq in Hre.
      cbn [mbind result_bind] in H.
      destruct (sp_default a) as [d|]; cbn [write_schema] in H;
        injection H as <- <- <-; constructor; cbn [po_name po_in po_required po_schema]; rewrite ?Hn;
        try assumption; try reflexivity; try (apply Hann; reflexivity);
        try (intros ty0 E; rewrite Hty in E; injection E as <-;
             split; [reflexivity|assumption]);
        unfold pattern_after; rewrite ?Hty, ?bool_decide_eq_false_2 by congruence;
        try reflexivity.
      * intros ty'. apply poke_domain. assumption.
      * rewrite poke_lookup.
        rewrite bool_decide_eq_false_2 by (intros [_ ?]; discriminate). reflexivity.
  - cbn [mbind result_bind] in H.
    destruct (sp_default a) as [d|]; cbn [write_schema] in H;
      injection H as <- <- <-; constructor; cbn [po_name po_in po_required po_schema]; rewrite ?Hn;
      try assumption; try reflexivity; try (apply Hann; reflexivity);
      try (intros ty0 E; rewrite Hty in E; discriminate E);
      unfold pattern_after; rewrite ?Hty, ?bool_decide_eq_false_2 by discriminate;
      reflexivity.
Qed.

Lemma path_parameters_inv endpoint_args args :
  forall store names ps store' names',
    path_parameters endpoint_args args (store, names) = Ok (ps, (store', names')) ->
    Forall2 (path_entry endpoint_args store) args ps /\
    Some <$> names ≡ₚ (arg_name <$> args) ++ (Some <$> names') /\
    (forall ty, is_Some (store' !! ty) <-> is_Some (store !! ty)) /\
    default ∅ (store' !! "regex") !! "pattern" =
      foldl pattern_after (default ∅ (store !! "regex") !! "pattern") args.
Proof.
  induction args as [|arg args IH]; intros store names ps store' names' H.
  - injection H as <- <- <-. repeat split; auto.
  - cbn [path_parameters] in H.
    destruct (path_parameter endpoint_args arg (store, names))
      as [[p [store1 names1]]|] eqn:Hp; [|discriminate H].
    cbn [mbind result_bind] in H.
    destruct (path_parameters endpoint_args args (store1, names1))
      as [[ps1 [store2 names2]]|] eqn:Hps; [|discriminate H].
    injection H as <- <- <-.
    apply path_parameter_inv in Hp as [Hname Hin Hann Hnames Hshared Hdom Hpat].
    destruct (IH _ _ _ _ _ Hps) as (Hall & Hnames' & Hdom' & Hpat').
    repeat split.
    + constructor; [unfold path_entry; auto|].
      eapply Forall2_impl; [exact Hall|].
      intros arg' p' (Hn' & Hin' & Hann' & Hsh).
      split; [exact Hn'|]. split; [exact Hin'|]. split; [exact Hann'|].
      intros ty E. destruct (Hsh ty E) as [Hsc Hsd].
      split; [exact Hsc|]. apply Hdom, Hsd.
    + rewrite Hnames, fmap_cons. cbn [app]. rewrite Hnames'. reflexivity.
    + intros Hs. apply Hdom, Hdom', Hs.
    + intros Hs. apply Hdom', Hdom, Hs.
    + cbn [foldl]. rewrite Hpat'. f_equal. exact Hpat.
Qed.

Lemma path_parameter_ok endpoint_args arg store names n :
  arg_name arg = Some n -> n ∈ sp_name <$> endpoint_args -> n ∈ names ->
  (forall ty, arg_type arg = Some ty -> is_Some (store !! ty)) ->
  exists r, path_parameter endpoint_args arg (store, names) = Ok r.
Proof.
  intros Hn Hsig Hnames Hty. unfold path_parameter, lookup_sig. rewrite Hn.
  apply list_elem_of_fmap in Hsig as (a & Ha & Hin).
  destruct (list_find_elem_of (fun p => sp_name p = n) endpoint_args a Hin (eq_sym Ha))
    as [[i a'] ->].
  cbn [mbind result_bind].
  destruct (list_remove_elem n names Hnames) as [names1 ->].
  cbn [mbind result_bind].
  destruct (arg_type arg) as [ty|].
  - destruct (Hty ty eq_refl) as [s ->].
    destruct (String.eqb ty "regex"); cbn [write_schema mbind result_bind];
      destruct (sp_default a'); cbn [write_schema]; eauto.
  - cbn [mbind result_bind]. destruct (sp_default a'); cbn [write_schema]; eauto.
Qed.

Lemma path_parameters_ok endpoint_args args :
  forall store names,
    (arg_name <$> args) ⊆+ (Some <$> names) ->
    Forall (fun arg => arg_name arg ∈ Some <$> (sp_name <$> endpoint_args) /\
                       forall ty, arg_type arg = Some ty -> is_Some (store !! ty)) args ->
    exists r, path_parameters endpoint_args args (store, names) = Ok r.
Proof.
  induction args as [|arg args IH]; intros store names Hsub Hall; [cbn; eauto|].
  inversion Hall as [|? ? [Hname Hty] Hall']; subst.
  apply list_elem_of_fmap in Hname as (n & Hn & Hsig).
  rewrite fmap_cons in Hsub.
  assert (n ∈ names) as Hin.
  { assert (arg_name arg ∈ Some <$> names) as H
      by (eapply elem_of_submseteq; [left|exact Hsub]).
    rewrite Hn in H. apply list_elem_of_fmap in H as (n' & [= ->] & H). exact H. }
  destruct (path_parameter_ok endpoint_args arg store names n Hn Hsig Hin Hty)
    as [[p [store1 names1]] Hp].
  cbn [path_parameters]. rewrite Hp. cbn [mbind result_bind].
  apply path_parameter_inv in Hp as [_ _ _ Hnames _ Hdom _].
  destruct (IH store1 names1) as [[ps st] ->]; [| |cbn [mbind result_bind]; eauto].
  - apply submseteq_cons_l in Hsub as (k & Hk & Hsub).
    rewrite Hnames in Hk. apply Permutation_cons_inv in Hk. rewrite Hk. exact Hsub.
  - eapply Forall_impl; [exact Hall'|]. intros arg' [? Hty']. split; [assumption|].
    intros ty E. apply Hdom, (Hty' ty E).
Qed.

Lemma argspath_schema_types ty :
  is_Some (argspath_schema !! ty) <-> ty ∈ argspath_types.
Proof.
  unfold argspath_schema. split.
  - intros Hs. destruct (decide (ty ∈ argspath_types)) as [|Hn]; [assumption|].
    destruct Hs as [s Hs]. rewrite not_elem_of_list_to_map_1 in Hs; [discriminate Hs|].
    exact Hn.
  - intros H. unfold argspath_types in H.
    repeat (apply elem_of_cons in H as [->|H]; [vm_compute; eauto|]).
    inversion H.
Qed.

Lemma filter_iff_elem {A} (P Q : A -> Prop) `{!forall x, Decision (P x)}
    `{!forall x, Decision (Q x)} (l : list A) :
  (forall x, x ∈ l -> P x <-> Q x) -> filter P l = filter Q l.
Proof.
  induction l as [|x l IH]; intros Hl; [reflexivity|].
  rewrite !filter_cons. rewrite IH by (intros y Hy; apply Hl; right; exact Hy).
  pose proof (Hl x (list_elem_of_here _ _)) as Hx.
  destruct (decide (P x)) as [HP|HP], (decide (Q x)) as [HQ|HQ];
    try reflexivity; tauto.
Qed.

Lemma get_parameters_inv endpoint_args route args ps :
  _get_path_args route = Ok args ->
  _get_parameters endpoint_args route = Ok ps ->
  exists in_path store names,
    path_parameters endpoint_args args (argspath_schema, sp_name <$> endpoint_args)
      = Ok (in_path, (store, names)) /\
    ps = resolve store <$> (in_path ++ query_parameters endpoint_args names).
Proof.
  intros Hargs. unfold _get_parameters. rewrite Hargs. cbn [mbind result_bind].
  destruct (path_parameters _ _ _) as [[in_path [store names]]|]; [|discriminate].
  intros [= <-]. eauto.
Qed.

Lemma path_entries_names endpoint_args store args in_path :
  Forall2 (path_entry endpoint_args store) args in_path ->
  po_name <$> in_path = arg_name <$> args /\
  po_in <$> in_path = replicate (length args) "path".
Proof.
  induction 1 as [|arg p args in_path (Hn & Hin & _) _ [IH1 IH2]]; [split; reflexivity|].
  rewrite !fmap_cons, Hn, Hin, IH1, IH2. split; reflexivity.
Qed.

Lemma query_parameters_names endpoint_args names :
  po_name <$> query_parameters endpoint_args names =
    Some ∘ sp_name <$> filter (fun a => sp_name a ∈ names) endpoint_args /\
  po_in <$> query_parameters endpoint_args names =
    replicate (length (query_parameters endpoint_args names)) "query".
Proof.
  unfold query_parameters. induction (filter _ endpoint_args) as [|a l [IH1 IH2]];
    [split; reflexivity|].
  rewrite !fmap_cons, IH1, IH2. cbn [length replicate]. split; f_equal.
  - unfold query_parameter. destruct (sp_default a), (sp_var_keyword a); reflexivity.
  - unfold query_parameter. destruct (sp_default a), (sp_var_keyword a); reflexivity.
Qed.

(** The names left for the second loop are those of the parameters that
    no placeholder has taken. *)
Lemma names_left endpoint_args args names' :
  NoDup (sp_name <$> endpoint_args) ->
  Some <$> (sp_name <$> endpoint_args) ≡ₚ (arg_name <$> args) ++ (Some <$> names') ->
  filter (fun a => sp_name a ∈ names') endpoint_args =
  filter (fun a => Some (sp_name a) ∉ arg_name <$> args) endpoint_args.
Proof.
  intros Hnd Hperm. apply filter_iff_elem. intros a Ha.
  assert (NoDup ((arg_name <$> args) ++ (Some <$> names'))) as Hnd'.
  { rewrite <- Hperm. apply NoDup_fmap_2; [|exact Hnd]. intros x y [= ->]; reflexivity. }
  apply NoDup_app in Hnd' as (_ & Hdisj & _).
  assert (Some (sp_name a) ∈ (arg_name <$> args) ++ (Some <$> names')) as Hin.
  { rewrite <- Hperm. apply list_elem_of_fmap. exists (sp_name a). split; [reflexivity|].
    apply list_elem_of_fmap. exists a. auto. }
  split.
  - intros Hn Habs. apply (Hdisj _ Habs). apply list_elem_of_fmap. eauto.
  - intros Hn. apply elem_of_app in Hin as [Hin|Hin]; [contradiction|].
    apply list_elem_of_fmap in Hin as (n & [= <-] & Hin). exact Hin.
Qed.

(** X18. The parameters of a route for the documentation, for a handler
    whose parameters have distinct names: first one parameter for each
    placeholder of the template, in the order they are written and
    located in the path, then the parameters of the handler that no
    placeholder names, in the order of the signature and located in the
    query. *)
Theorem parameters_path_then_query endpoint_args (route : RouteEntry) args ps :
  NoDup (sp_name <$> endpoint_args) ->
  _get_path_args route = Ok args ->
  _get_parameters endpoint_args route = Ok ps ->
  p_name <$> ps =
    (arg_name <$> args) ++
    (Some ∘ sp_name <$>
       filter (fun a => Some (sp_name a) ∉ arg_name <$> args) endpoint_args) /\
  p_in <$> ps =
    replicate (length args) "path" ++ replicate (length ps - length args) "query".
Proof.
  intros Hnd Hargs Hps.
  destruct (get_parameters_inv _ _ _ _ Hargs Hps) as (in_path & store & names' & Hloop & ->).
  apply path_parameters_inv in Hloop as (Hall & Hnames & _ & _).
  pose proof (Forall2_length _ _ _ Hall) as Hlen.
  destruct (path_entries_names _ _ _ _ Hall) as [Hn1 Hi1].
  destruct (query_parameters_names endpoint_args names') as [Hn2 Hi2].
  split.
  - rewrite <- list_fmap_compose.
    change (p_name ∘ resolve store) with po_name.
    rewrite fmap_app, Hn1, Hn2, (names_left _ _ _ Hnd Hnames). reflexivity.
  - rewrite <- list_fmap_compose.
    change (p_in ∘ resolve store) with po_in.
    rewrite fmap_app, Hi1, Hi2. f_equal. f_equal.
    rewrite length_fmap, List.length_app. lia.
Qed.

Lemma path_entries_forall endpoint_args store args in_path :
  Forall2 (path_entry endpoint_args store) args in_path ->
  Forall (fun arg => arg_name arg ∈ Some <$> (sp_name <$> endpoint_args) /\
                     forall ty, arg_type arg = Some ty -> is_Some (store !! ty)) args.
Proof.
  induction 1 as [|arg p args in_path (_ & _ & (a & Ha & Hn & _) & Hty) _ IH];
    constructor; [|exact IH].
  split.
  - rewrite Hn. apply list_elem_of_fmap. exists (sp_name a). split; [reflexivity|].
    apply list_elem_of_fmap. eauto.
  - intros ty E. apply (Hty ty E).
Qed.

(** X19. For a handler whose parameters have distinct names, the
    parameters of a route can be listed exactly when the placeholders
    of its template have distinct names, each the name of a parameter
    of the handler, and every declared type is one of [default],
    [string], [str], [regex], [uuid], [int] and [float]; otherwise
    [_get_parameters] raises. *)
Theorem parameters_defined endpoint_args (route : RouteEntry) args :
  NoDup (sp_name <$> endpoint_args) ->
  _get_path_args route = Ok args ->
  (exists ps, _get_parameters endpoint_args route = Ok ps) <->
  NoDup (arg_name <$> args) /\
  Forall (fun arg => arg_name arg ∈ Some <$> (sp_name <$> endpoint_args) /\
                     forall ty, arg_type arg = Some ty -> ty ∈ argspath_types) args.
Proof.
  intros Hnd Hargs. split.
  - intros [ps Hps].
    destruct (get_parameters_inv _ _ _ _ Hargs Hps) as (in_path & store & names' & Hloop & _).
    apply path_parameters_inv in Hloop as (Hall & Hnames & _ & _).
    split.
    + assert (NoDup ((arg_name <$> args) ++ (Some <$> names'))) as Hnd'.
      { rewrite <- Hnames. apply NoDup_fmap_2; [|exact Hnd]. intros x y [= ->]; reflexivity. }
      apply NoDup_app in Hnd' as (H1 & _). exact H1.
    + eapply Forall_impl; [exact (path_entries_forall _ _ _ _ Hall)|].
      intros arg [Hn Hty]. split; [exact Hn|].
      intros ty E. apply argspath_schema_types, (Hty ty E).
  - intros [Hnd' Hall].
    destruct (path_parameters_ok endpoint_args args argspath_schema
                (sp_name <$> endpoint_args)) as [[in_path [store names']] Hloop].
    + apply NoDup_submseteq; [exact Hnd'|].
      intros x Hx. apply list_elem_of_fmap in Hx as (arg & -> & Harg).
      rewrite Forall_forall in Hall. apply (Hall arg Harg).
    + eapply Forall_impl; [exact Hall|].
      intros arg [Hn Hty]. split; [exact Hn|].
      intros ty E. apply argspath_schema_types, (Hty ty E).
    + unfold _get_parameters. rewrite Hargs. cbn [mbind result_bind].
      rewrite Hloop. cbn [mbind result_bind]. eauto.
Qed.

(** The parameter listed for the placeholder at a position. *)
Lemma path_parameter_at endpoint_args args in_path store rest i arg p :
  Forall2 (path_entry endpoint_args argspath_schema) args in_path ->
  args !! i = Some arg ->
  (resolve store <$> (in_path ++ rest)) !! i = Some p ->
  exists po, path_entry endpoint_args argspath_schema arg po /\ p = resolve store po.
Proof.
  intros Hall Hi Hp.
  destruct (Forall2_lookup_l _ _ _ _ _ Hall Hi) as (po & Hpo & Hentry).
  exists po. split; [exact Hentry|].
  rewrite list_lookup_fmap, lookup_app_l, Hpo in Hp by (eapply lookup_lt_Some, Hpo).
  injection Hp as <-. reflexivity.
Qed.

(** X20. The schema of a typed placeholder is the dict of
    [argspath_schema] for its type, the same object for every
    placeholder of that type: two placeholders of one declared type are
    listed with equal schemas, whatever the patterns and the defaults
    of the two are. *)
Theorem parameters_share_schema endpoint_args (route : RouteEntry) args ps
    i j ai aj pi pj ty :
  _get_path_args route = Ok args ->
  _get_parameters endpoint_args route = Ok ps ->
  args !! i = Some ai -> args !! j = Some aj ->
  arg_type ai = Some ty -> arg_type aj = Some ty ->
  ps !! i = Some pi -> ps !! j = Some pj ->
  p_schema pi = p_schema pj.
Proof.
  intros Hargs Hps Hi Hj Hti Htj Hpi Hpj.
  destruct (get_parameters_inv _ _ _ _ Hargs Hps) as (in_path & store & names' & Hloop & ->).
  apply path_parameters_inv in Hloop as (Hall & _ & _ & _).
  destruct (path_parameter_at _ _ _ _ _ _ _ _ Hall Hi Hpi) as (poi & (_ & _ & _ & Hsi) & ->).
  destruct (path_parameter_at _ _ _ _ _ _ _ _ Hall Hj Hpj) as (poj & (_ & _ & _ & Hsj) & ->).
  cbn [resolve p_schema].
  rewrite (proj1 (Hsi ty Hti)), (proj1 (Hsj ty Htj)). reflexivity.
Qed.

Lemma pattern_after_others shown post :
  Forall (fun b => arg_type b <> Some "regex") post ->
  foldl pattern_after shown post = shown.
Proof.
  intros H. revert shown. induction H as [|b post Hb _ IH]; intros shown; [reflexivity|].
  cbn [foldl]. rewrite IH. unfold pattern_after.
  rewrite bool_decide_eq_false_2 by exact Hb. reflexivity.
Qed.

(** X21. Every placeholder written with an inline pattern is listed
    with the pattern of the last such placeholder of the template,
    between [^] and [$]. *)
Theorem regex_parameters_show_last_pattern endpoint_args (route : RouteEntry)
    pre a post ps i ai pi :
  _get_path_args route = Ok (pre ++ a :: post) ->
  arg_type a = Some "regex" ->
  Forall (fun b => arg_type b <> Some "regex") post ->
  _get_parameters endpoint_args route = Ok ps ->
  (pre ++ a :: post) !! i = Some ai -> arg_type ai = Some "regex" ->
  ps !! i = Some pi ->
  p_schema pi !! "pattern" = Some (VStr ("^" +:+ Py.str_opt (arg_pattern a) +:+ "$")).
Proof.
  intros Hargs Ha Hpost Hps Hi Hti Hpi.
  destruct (get_parameters_inv _ _ _ _ Hargs Hps) as (in_path & store & names' & Hloop & ->).
  apply path_parameters_inv in Hloop as (Hall & _ & _ & Hpat).
  destruct (path_parameter_at _ _ _ _ _ _ _ _ Hall Hi Hpi) as (poi & (_ & _ & _ & Hsi) & ->).
  cbn [resolve p_schema]. rewrite (proj1 (Hsi _ Hti)). cbn [read_schema].
  rewrite Hpat, foldl_app. cbn [foldl]. rewrite pattern_after_others by exact Hpost.
  unfold pattern_after. rewrite bool_decide_eq_true_2 by exact Ha. reflexivity.
Qed.

(** X22. Each listed parameter is a parameter of the handler; it is
    marked as required exactly when the handler gives it no default,
    except that a [**kwargs] parameter located in the query is never
    required. *)
Theorem parameters_required endpoint_args (route : RouteEntry) ps p :
  _get_parameters endpoint_args route = Ok ps ->
  p ∈ ps ->
  exists a, a ∈ endpoint_args /\ p_name p = Some (sp_name a) /\
    p_required p =
      no_default a && negb (String.eqb (p_in p) "query" && sp_var_keyword a).
Proof.
  intros Hps Hp.
  destruct (_get_path_args route) as [args|] eqn:Hargs;
    [|unfold _get_parameters in Hps; rewrite Hargs in Hps; discriminate Hps].
  destruct (get_parameters_inv _ _ _ _ Hargs Hps) as (in_path & store & names' & Hloop & ->).
  apply path_parameters_inv in Hloop as (Hall & _ & _ & _).
  apply list_elem_of_fmap in Hp as (po & -> & Hpo).
  cbn [resolve p_name p_required p_in].
  apply elem_of_app in Hpo as [Hpo|Hpo].
  - apply list_elem_of_lookup in Hpo as [i Hi].
    destruct (Forall2_lookup_r _ _ _ _ _ Hall Hi)
      as (arg & _ & Hn & Hin & (a & Ha & Hna & Hreq) & _).
    exists a. split; [exact Ha|]. split; [congruence|].
    rewrite Hreq, Hin. cbn. rewrite andb_true_r. reflexivity.
  - unfold query_parameters in Hpo.
    apply list_elem_of_fmap in Hpo as (a & -> & Ha).
    apply list_elem_of_filter in Ha as [_ Ha].
    exists a. split; [exact Ha|]. unfold query_parameter, no_default.
    destruct (sp_default a), (sp_var_keyword a); auto.
Qed.

End Parameters.

Lemma parameters_path_then_query_witness :
  exists ps,
    _get_parameters sig_a_b_limit_kwargs two_patterns_route = Ok ps /\
    p_name <$> ps = [Some "a"; Some "b"; Some "limit"; Some "kwargs"] /\
    p_in <$> ps = ["path"; "path"; "query"; "query"].
Proof.
  eexists. split; [vm_compute; reflexivity|].
  apply (parameters_path_then_query sig_a_b_limit_kwargs two_patterns_route
           two_patterns_args).
  - apply (bool_decide_unpack _). vm_compute. exact I.
  - vm_compute. reflexivity.
  - vm_compute. reflexivity.
Defined.

Lemma parameters_defined_witness :
  exists ps, _get_parameters sig_a_b two_patterns_route = Ok ps.
Proof.
  apply (proj2 (parameters_defined sig_a_b two_patterns_route two_patterns_args
                  ltac:(apply (bool_decide_unpack _); vm_compute; exact I)
                  ltac:(vm_compute; reflexivity))).
  split.
  - apply (bool_decide_unpack _). vm_compute. exact I.
  - unfold two_patterns_args.
    repeat (apply List.Forall_cons; [split|]); try apply List.Forall_nil;
      try (intros ty [= <-]); apply (bool_decide_unpack _); vm_compute; exact I.
Defined.

Lemma parameters_share_schema_witness :
  _get_parameters sig_a_b two_patterns_route = Ok [listed_a; listed_b] /\
  p_schema listed_a = p_schema listed_b.
Proof.
  split; [vm_compute; reflexivity|].
  apply (parameters_share_schema sig_a_b two_patterns_route two_patterns_args
           [listed_a; listed_b] 0 1
           {| arg_type := Some "regex"; arg_pattern := Some "[a-z]+"; arg_name := Some "a" |}
           {| arg_type := Some "regex"; arg_pattern := Some "[0-9]+"; arg_name := Some "b" |}
           listed_a listed_b "regex");
    vm_compute; reflexivity.
Defined.

Lemma regex_parameters_show_last_pattern_witness :
  _get_parameters sig_a_b two_patterns_route = Ok [listed_a; listed_b] /\
  p_schema listed_a !! "pattern" = Some (VStr "^[0-9]+$").
Proof.
  split; [vm_compute; reflexivity|].
  apply (regex_parameters_show_last_pattern sig_a_b two_patterns_route
           [{| arg_type := Some "regex"; arg_pattern := Some "[a-z]+";
               arg_name := Some "a" |}]
           {| arg_type := Some "regex"; arg_pattern := Some "[0-9]+"; arg_name := Some "b" |}
           [] [listed_a; listed_b] 0
           {| arg_type := Some "regex"; arg_pattern := Some "[a-z]+"; arg_name := Some "a" |}
           listed_a);
    first [apply List.Forall_nil | vm_compute; reflexivity].
Defined.

Lemma parameters_required_witness :
  exists a, a ∈ sig_a_b_limit_kwargs /\ Some "kwargs" = Some (sp_name a) /\
    false = no_default a && negb (String.eqb "query" "query" && sp_var_keyword a).
Proof.
  apply (parameters_required sig_a_b_limit_kwargs two_patterns_route
           [{| p_name := Some "a"; p_in := "path";
               p_schema := <["pattern" := VStr "^[0-9]+$"]> {["type" := VStr "string"]};
               p_required := true |};
            {| p_name := Some "b"; p_in := "path";
               p_schema := <["pattern" := VStr "^[0-9]+$"]> {["type" := VStr "string"]};
               p_required := true |};
            {| p_name := Some "limit"; p_in := "query";
               p_schema := {["default" := VInt 10]}; p_required := false |};
            {| p_name := Some "kwargs"; p_in := "query";
               p_schema := {["format" := VStr "dict"]}; p_required := false |}]
           {| p_name := Some "kwargs"; p_in := "query";
              p_schema := {["format" := VStr "dict"]}; p_required := false |}).
  - vm_compute. reflexivity.
  - do 3 right. left.
Defined.

